(** * safe_ptr and execute_around: scoped-lock wrappers

    A shallow embedding of [main.cpp]: the two wrapper class templates
    [execute_around] and [safe_ptr], their accessor classes
    ([execute_around::proxy], [safe_ptr::auto_lock_t],
    [safe_ptr::auto_lock_obj_t]), the two test functions that exercise
    them, and main, followed by the properties they satisfy.

    Conventions.
    - A [std::shared_ptr<X>] is a location in a heap of [X] objects; copying
      the pointer copies the location, so both copies designate one object.
      Use counts are not kept: an object is deleted only where a constructor
      unwinds, and where test_execute_around leaves its block, its wrapper
      being the only owner then.
    - Allocation does not fail.
    - Every operation that may call [mutex::lock] takes the calling thread
      and returns an [outcome]: it returns, blocks, or faults.
    - Threads interleave instruction by instruction (the program has no
      data race, so its executions are the sequentially consistent ones).
    - [std::cout] is a list of items, part of the store.

    The file has four parts: the embedding of the source, the definitions
    and lemmas the proofs need, the properties C1 to C10, and further
    properties X1 onwards, each with the lemmas it needs. *)

From stdpp Require Import base option list gmap strings numbers.
From Stdlib Require Import ZArith Lia.

Local Open Scope Z_scope.

(** ** Threads, locations, outcomes *)

Abbreviation tid := nat (only parsing).
Abbreviation loc := positive (only parsing).

Inductive outcome (A : Type) : Type :=
  | Ret (a : A)   (* the call returns [a] *)
  | Blocks        (* the caller is suspended inside [mutex::lock] *)
  | Fault.        (* undefined behaviour, or an exception nobody catches *)
Arguments Ret {A} a.
Arguments Blocks {A}.
Arguments Fault {A}.

Global Instance outcome_ret : MRet outcome := @Ret.
Global Instance outcome_bind : MBind outcome := λ A B f m,
  match m with
  | Ret a => f a
  | Blocks => Blocks
  | Fault => Fault
  end.

(** ** std::recursive_mutex

    [Held o n]: owned by thread [o], locked [S n] times. *)
Module recursive_mutex.

Inductive t : Type :=
  | Free
  | Held (owner : tid) (nested : nat).

Definition count (m : t) : nat :=
  match m with
  | Free => 0%nat
  | Held _ n => S n
  end.

Definition owned_by (o : tid) (m : t) : bool :=
  match m with
  | Free => false
  | Held o' _ => bool_decide (o' = o)
  end.

Definition lock (me : tid) (m : t) : outcome t :=
  match m with
  | Free => Ret (Held me 0)
  | Held o n => if decide (o = me) then Ret (Held o (S n)) else Blocks
  end.

(* unlocking a mutex the caller does not own is undefined *)
Definition unlock (me : tid) (m : t) : outcome t :=
  match m with
  | Free => Fault
  | Held o n =>
      if decide (o = me)
      then Ret (match n with O => Free | S n' => Held o n' end)
      else Fault
  end.

End recursive_mutex.

(** ** std::cout *)
Inductive out_item : Type :=
  | OStr (s : string)
  | OInt (z : Z)
  | OEndl.

(** ** The store: the heap of wrapped values, the heap of mutexes, cout *)
Record store (T : Type) : Type := Store {
  objs : gmap loc T;
  mtxs : gmap loc recursive_mutex.t;
  cout : list out_item
}.
Arguments Store {T} _ _ _.
Arguments objs {T} _.
Arguments mtxs {T} _.
Arguments cout {T} _.

Definition set_objs {T} (f : gmap loc T → gmap loc T) (σ : store T) : store T :=
  Store (f (objs σ)) (mtxs σ) (cout σ).
Definition set_mtxs {T} (f : gmap loc recursive_mutex.t → gmap loc recursive_mutex.t)
    (σ : store T) : store T :=
  Store (objs σ) (f (mtxs σ)) (cout σ).
Definition print {T} (items : list out_item) (σ : store T) : store T :=
  Store (objs σ) (mtxs σ) (cout σ ++ items).

Definition empty_store {T} : store T := Store ∅ ∅ [].

(** [std::make_shared<std::recursive_mutex>()] *)
Definition make_shared_mutex {T} (σ : store T) : loc * store T :=
  let l := fresh (dom (mtxs σ)) in
  (l, set_mtxs (insert l recursive_mutex.Free) σ).

(** The last [shared_ptr] to a mutex goes away: the mutex is deleted. *)
Definition delete_mutex {T} (l : loc) (σ : store T) : store T :=
  set_mtxs (delete l) σ.

(** [std::make_shared<T>(args...)]: whatever [T]'s constructor throws
    propagates and nothing is allocated. *)
Definition make_shared {T Args exn : Type} (T_ctor : Args → exn + T)
    (args : Args) (σ : store T) : (exn + loc) * store T :=
  match T_ctor args with
  | inl e => (inl e, σ)
  | inr v =>
      let l := fresh (dom (objs σ)) in
      (inr l, set_objs (insert l v) σ)
  end.

(** ** std::unique_lock<std::recursive_mutex> *)
Module unique_lock.

Record t : Type := mk {
  pm : option loc;   (* the mutex, or null *)
  owns : bool
}.

(* unique_lock(mutex_type& m): m.lock(), then owns *)
Definition ctor {T} (me : tid) (m : loc) (σ : store T) : outcome (t * store T) :=
  match mtxs σ !! m with
  | None => Fault
  | Some mu =>
      mu' ← recursive_mutex.lock me mu;
      Ret (mk (Some m) true, set_mtxs (insert m mu') σ)
  end.

(* unique_lock(unique_lock&& u): takes u's state, leaves u without mutex *)
Definition move (u : t) : t * t := (mk (pm u) (owns u), mk None false).

(* ~unique_lock(): if (owns) unlock() *)
Definition dtor {T} (me : tid) (u : t) (σ : store T) : outcome (store T) :=
  if owns u then
    match pm u with
    | None => Fault
    | Some m =>
        match mtxs σ !! m with
        | None => Fault
        | Some mu =>
            mu' ← recursive_mutex.unlock me mu;
            Ret (set_mtxs (insert m mu') σ)
        end
    end
  else Ret σ.

End unique_lock.

(** The lock types a wrapper can be instantiated with ([x_lock_t],
    [s_lock_t]): constructible from a mutex, movable, destructible. *)
Class Lockable (L : Type) : Type := {
  lk_ctor : ∀ {T}, tid → loc → store T → outcome (L * store T);
  lk_move : L → L * L;
  lk_dtor : ∀ {T}, tid → L → store T → outcome (store T)
}.

Global Instance unique_lock_lockable : Lockable unique_lock.t := {|
  lk_ctor := @unique_lock.ctor;
  lk_move := unique_lock.move;
  lk_dtor := @unique_lock.dtor
|}.

(** What the accessors hand out: [T*], [const T*], and the reference to
    one element that [operator[]] returns. *)
Inductive raw_ptr : Type := Ptr (l : loc).
Inductive const_raw_ptr : Type := ConstPtr (l : loc).
Inductive elem_ref (K : Type) : Type := ElemRef (l : loc) (k : K).
Arguments ElemRef {K} l k.

(** Calling a member of [T] through [T*] may change the object; through
    [const T*] only const members are callable, and they only read. *)
Definition call {T R} (f : T → T * R) (p : raw_ptr) (σ : store T) : outcome (R * store T) :=
  let 'Ptr l := p in
  match objs σ !! l with
  | None => Fault
  | Some v => let '(v', r) := f v in Ret (r, set_objs (insert l v') σ)
  end.

Definition call_const {T R} (f : T → R) (p : const_raw_ptr) (σ : store T) : outcome R :=
  let 'ConstPtr l := p in
  match objs σ !! l with
  | None => Fault
  | Some v => Ret (f v)
  end.

(** A member function of [T], const-qualified or not, and [p->f(...)] for
    either kind of pointer: a member that is not const cannot be called
    through [const T*] ([None]: the call does not compile). *)
Inductive member (T R : Type) : Type :=
  | NonConstMember (f : T → T * R)
  | ConstMember (f : T → R).
Arguments NonConstMember {T R} f.
Arguments ConstMember {T R} f.

Definition call_member {T R} (f : member T R) (p : raw_ptr + const_raw_ptr) (σ : store T)
    : option (outcome (R * store T)) :=
  match p, f with
  | inl p, NonConstMember f => Some (call f p σ)
  | inl (Ptr l), ConstMember f => Some (r ← call_const f (ConstPtr l) σ; Ret (r, σ))
  | inr p, ConstMember f => Some (r ← call_const f p σ; Ret (r, σ))
  | inr _, NonConstMember _ => None
  end.

(** The object a member function is called on is const or not, and
    overload resolution goes by that: on a const object only the
    const-qualified overloads are viable. *)
Inductive qualified (A : Type) : Type :=
  | NonConst (a : A)
  | Const (a : A).
Arguments NonConst {A} a.
Arguments Const {A} a.

(** Containers with [operator[]]: [subscript k c] is the container after
    [c[k]] ([None]: undefined), the element being designated by [k]. *)
Class Indexable (T K V : Type) : Type := {
  subscript : K → T → option T;
  elem_get : K → T → option V;
  elem_set : K → V → T → T
}.

Definition nl : string := String (Ascii.ascii_of_nat 10) EmptyString.

(** ** execute_around<T, std::recursive_mutex> *)
Module execute_around.

Record t : Type := mk {
  mtx : loc;   (* std::shared_ptr<mutex_type> *)
  p : loc      (* std::shared_ptr<T> *)
}.

Definition get_p (w : t) : loc := p w.
Definition get_mtx (w : t) : loc := mtx w.

Module proxy.

Record t : Type := mk {
  lock : unique_lock.t;
  p : loc
}.

(* proxy(T* const _p, mutex_type& _mtx) : lock(_mtx), p(_p) { cout << "locked\n"; } *)
Definition ctor {T} (me : tid) (_p _mtx : loc) (σ : store T) : outcome (t * store T) :=
  '(l, σ1) ← unique_lock.ctor me _mtx σ;
  Ret (mk l _p, print [OStr ("locked" +:+ nl)] σ1).

(* proxy(proxy&& px) : lock(std::move(px.lock)), p(px.p) {}
   returns the new proxy and what is left of px *)
Definition move (px : t) : t * t :=
  let '(l, l0) := unique_lock.move (lock px) in
  (mk l (p px), mk l0 (p px)).

(* ~proxy() { cout << "unlocked\n"; }, then the member lock is destroyed *)
Definition dtor {T} (me : tid) (a : t) (σ : store T) : outcome (store T) :=
  unique_lock.dtor me (lock a) (print [OStr ("unlocked" +:+ nl)] σ).

Definition arrow (a : t) : raw_ptr := Ptr (p a).
Definition arrow_const (a : t) : const_raw_ptr := ConstPtr (p a).

(* T* operator->() { return p; } and const T* operator->() const { return p; }
   as overload resolution picks between them *)
Definition operator_arrow (a : qualified t) : raw_ptr + const_raw_ptr :=
  match a with
  | NonConst a => inl (arrow a)
  | Const a => inr (arrow_const a)
  end.

End proxy.

Section methods.
Context {T Args exn : Type} (T_ctor : Args → exn + T).

(* execute_around(Args... args) : mtx(make_shared<mutex_type>()),
                                  p(make_shared<T>(args...)) {}
   when T's constructor throws, the already built member mtx is destroyed *)
Definition ctor (args : Args) (σ : store T) : (exn + t) * store T :=
  let '(m, σ1) := make_shared_mutex σ in
  match make_shared T_ctor args σ1 with
  | (inl e, σ2) => (inl e, delete_mutex m σ2)
  | (inr v, σ2) => (inr (mk m v), σ2)
  end.
End methods.

(* the implicit copy constructor copies the two shared_ptr members *)
Definition copy (w : t) : t := mk (mtx w) (p w).

(* proxy operator->() { return proxy(p.get(), *mtx); } *)
Definition arrow {T} (me : tid) (w : t) (σ : store T) : outcome (proxy.t * store T) :=
  proxy.ctor me (p w) (mtx w) σ.

(* const proxy operator->() const { return proxy(p.get(), *mtx); } *)
Definition arrow_const {T} (me : tid) (w : t) (σ : store T) : outcome (proxy.t * store T) :=
  proxy.ctor me (p w) (mtx w) σ.

(* w.operator->() as overload resolution picks between the two: the
   overload for a const handle returns a const proxy *)
Definition operator_arrow {T} (me : tid) (w : qualified t) (σ : store T)
    : outcome (qualified proxy.t * store T) :=
  match w with
  | NonConst w => '(a, σ1) ← arrow me w σ; Ret (NonConst a, σ1)
  | Const w => '(a, σ1) ← arrow_const me w σ; Ret (Const a, σ1)
  end.

(* ~execute_around(), implicit, of a handle that is the last owner of its
   two members: p goes first, then mtx, and the value and the mutex are
   deleted; deleting a mutex that is still locked is undefined *)
Definition dtor_last_owner {T} (w : t) (σ : store T) : outcome (store T) :=
  match mtxs σ !! mtx w with
  | Some recursive_mutex.Free => Ret (delete_mutex (mtx w) (set_objs (delete (p w)) σ))
  | _ => Fault
  end.

(* void lock() const { mtx->lock(); } and
   void unlock() const { mtx->unlock(); }: private, for the friends *)
Definition lock {T} (me : tid) (w : t) (σ : store T) : outcome (store T) :=
  match mtxs σ !! mtx w with
  | None => Fault
  | Some mu =>
      mu' ← recursive_mutex.lock me mu;
      Ret (set_mtxs (insert (mtx w) mu') σ)
  end.

Definition unlock {T} (me : tid) (w : t) (σ : store T) : outcome (store T) :=
  match mtxs σ !! mtx w with
  | None => Fault
  | Some mu =>
      mu' ← recursive_mutex.unlock me mu;
      Ret (set_mtxs (insert (mtx w) mu') σ)
  end.

End execute_around.

(** ** safe_ptr<T, std::recursive_mutex, x_lock_t, s_lock_t> *)
Module safe_ptr.

Record t : Type := mk {
  ptr : loc;       (* const std::shared_ptr<T> *)
  mtx_ptr : loc    (* std::shared_ptr<mutex_t> *)
}.

Module auto_lock_t.
Section req_lock.
Context {req_lock : Type} `{!Lockable req_lock}.

Record t : Type := mk {
  ptr : loc;
  lock : req_lock
}.

(* auto_lock_t(T* const _ptr, mutex_t& _mtx) : ptr(_ptr), lock(_mtx) {} *)
Definition ctor {T} (me : tid) (_ptr _mtx : loc) (σ : store T) : outcome (t * store T) :=
  '(l, σ1) ← lk_ctor me _mtx σ;
  Ret (mk _ptr l, σ1).

(* auto_lock_t(auto_lock_t&& o) : ptr(std::move(o.ptr)), lock(std::move(o.lock)) {} *)
Definition move (o : t) : t * t :=
  let '(l, l0) := lk_move (lock o) in
  (mk (ptr o) l, mk (ptr o) l0).

(* implicit destructor: destroys the member lock *)
Definition dtor {T} (me : tid) (a : t) (σ : store T) : outcome (store T) :=
  lk_dtor me (lock a) σ.

Definition arrow (a : t) : raw_ptr := Ptr (ptr a).
Definition arrow_const (a : t) : const_raw_ptr := ConstPtr (ptr a).

(* T* operator->() and const T* operator->() const, as overload resolution
   picks between them *)
Definition operator_arrow (a : qualified t) : raw_ptr + const_raw_ptr :=
  match a with
  | NonConst a => inl (arrow a)
  | Const a => inr (arrow_const a)
  end.
End req_lock.
Arguments t req_lock : clear implicits.
End auto_lock_t.

Module auto_lock_obj_t.
Section req_lock.
Context {req_lock : Type} `{!Lockable req_lock}.

Record t : Type := mk {
  ptr : loc;
  lock : req_lock
}.

(* auto_lock_obj_t(T* const _ptr, mutex_t& _mtx) : ptr(_ptr), lock(_mtx) {} *)
Definition ctor {T} (me : tid) (_ptr _mtx : loc) (σ : store T) : outcome (t * store T) :=
  '(l, σ1) ← lk_ctor me _mtx σ;
  Ret (mk _ptr l, σ1).

(* auto_lock_obj_t(auto_lock_obj_t&& o) : ptr(std::move(o.ptr)), lock(std::move(o.lock)) {} *)
Definition move (o : t) : t * t :=
  let '(l, l0) := lk_move (lock o) in
  (mk (ptr o) l, mk (ptr o) l0).

Definition dtor {T} (me : tid) (a : t) (σ : store T) : outcome (store T) :=
  lk_dtor me (lock a) σ.

(* auto operator[](arg_t arg) { return ptr->operator[](arg); } *)
Definition index {T K V} `{!Indexable T K V} (a : t) (arg : K) (σ : store T)
    : outcome (elem_ref K * store T) :=
  match objs σ !! ptr a with
  | None => Fault
  | Some c =>
      match subscript arg c with
      | None => Fault
      | Some c' => Ret (ElemRef (ptr a) arg, set_objs (insert (ptr a) c') σ)
      end
  end.

(* operator[] is not a const member: on a const accessor it is not viable
   ([None]: the call does not compile) *)
Definition operator_index {T K V} `{!Indexable T K V} (a : qualified t) (arg : K) (σ : store T)
    : option (outcome (elem_ref K * store T)) :=
  match a with
  | NonConst a => Some (index a arg σ)
  | Const _ => None
  end.
End req_lock.
Arguments t req_lock : clear implicits.
End auto_lock_obj_t.

Section methods.
Context {T Args exn : Type} (T_ctor : Args → exn + T).

(* safe_ptr(Args... args) : ptr(make_shared<T>(args...)),
                            mtx_ptr(make_shared<mutex_t>()) {} *)
Definition ctor (args : Args) (σ : store T) : (exn + t) * store T :=
  match make_shared T_ctor args σ with
  | (inl e, σ1) => (inl e, σ1)
  | (inr v, σ1) =>
      let '(m, σ2) := make_shared_mutex σ1 in
      (inr (mk v m), σ2)
  end.
End methods.

(* the implicit copy constructor copies the two shared_ptr members *)
Definition copy (w : t) : t := mk (ptr w) (mtx_ptr w).

Section access.
Context {T : Type}.
Context {x_lock_t : Type} `{!Lockable x_lock_t}.
Context {s_lock_t : Type} `{!Lockable s_lock_t}.

(* auto_lock_t<x_lock_t> operator->() *)
Definition arrow (me : tid) (w : t) (σ : store T)
    : outcome (auto_lock_t.t x_lock_t * store T) :=
  auto_lock_t.ctor me (ptr w) (mtx_ptr w) σ.

(* auto_lock_obj_t<x_lock_t> operator * () *)
Definition deref (me : tid) (w : t) (σ : store T)
    : outcome (auto_lock_obj_t.t x_lock_t * store T) :=
  auto_lock_obj_t.ctor me (ptr w) (mtx_ptr w) σ.

(* const auto_lock_t<s_lock_t> operator->() const *)
Definition arrow_const (me : tid) (w : t) (σ : store T)
    : outcome (auto_lock_t.t s_lock_t * store T) :=
  auto_lock_t.ctor me (ptr w) (mtx_ptr w) σ.

(* const auto_lock_obj_t<s_lock_t> operator * () const *)
Definition deref_const (me : tid) (w : t) (σ : store T)
    : outcome (auto_lock_obj_t.t s_lock_t * store T) :=
  auto_lock_obj_t.ctor me (ptr w) (mtx_ptr w) σ.
End access.

(* w.operator->() and w.operator*() as overload resolution picks between
   the overloads: those for a const handle return a const accessor. The
   lock types are the default ones, so that the overloads of one operator
   return accessors of one class. *)
Definition operator_arrow {T} (me : tid) (w : qualified t) (σ : store T)
    : outcome (qualified (auto_lock_t.t unique_lock.t) * store T) :=
  match w with
  | NonConst w => '(a, σ1) ← arrow (x_lock_t := unique_lock.t) me w σ; Ret (NonConst a, σ1)
  | Const w => '(a, σ1) ← arrow_const (s_lock_t := unique_lock.t) me w σ; Ret (Const a, σ1)
  end.

Definition operator_deref {T} (me : tid) (w : qualified t) (σ : store T)
    : outcome (qualified (auto_lock_obj_t.t unique_lock.t) * store T) :=
  match w with
  | NonConst w => '(a, σ1) ← deref (x_lock_t := unique_lock.t) me w σ; Ret (NonConst a, σ1)
  | Const w => '(a, σ1) ← deref_const (s_lock_t := unique_lock.t) me w σ; Ret (Const a, σ1)
  end.

(* void lock() { mtx_ptr->lock(); } and
   void unlock() { mtx_ptr->unlock(); }: private, for the friends *)
Definition lock {T} (me : tid) (w : t) (σ : store T) : outcome (store T) :=
  match mtxs σ !! mtx_ptr w with
  | None => Fault
  | Some mu =>
      mu' ← recursive_mutex.lock me mu;
      Ret (set_mtxs (insert (mtx_ptr w) mu') σ)
  end.

Definition unlock {T} (me : tid) (w : t) (σ : store T) : outcome (store T) :=
  match mtxs σ !! mtx_ptr w with
  | None => Fault
  | Some mu =>
      mu' ← recursive_mutex.unlock me mu;
      Ret (set_mtxs (insert (mtx_ptr w) mu') σ)
  end.

End safe_ptr.

(** ** Full expressions

    [w->f(...)]: the accessor is a temporary; it is built, the member is
    called through it, and it is destroyed at the end of the expression. *)
Section full_expressions.
Context {T R : Type}.

(* w->f(...) on a safe_ptr *)
Definition safe_ptr_call (me : tid) (w : safe_ptr.t) (f : T → T * R) (σ : store T)
    : outcome (R * store T) :=
  '(a, σ1) ← safe_ptr.arrow (x_lock_t := unique_lock.t) me w σ;
  '(r, σ2) ← call f (safe_ptr.auto_lock_t.arrow a) σ1;
  σ3 ← safe_ptr.auto_lock_t.dtor me a σ2;
  Ret (r, σ3).

(* w->f(...) on a const safe_ptr: f is a const member *)
Definition safe_ptr_call_const (me : tid) (w : safe_ptr.t) (f : T → R) (σ : store T)
    : outcome (R * store T) :=
  '(a, σ1) ← safe_ptr.arrow_const (s_lock_t := unique_lock.t) me w σ;
  r ← call_const f (safe_ptr.auto_lock_t.arrow_const a) σ1;
  σ2 ← safe_ptr.auto_lock_t.dtor me a σ1;
  Ret (r, σ2).

(* w->f(...) on an execute_around *)
Definition execute_around_call (me : tid) (w : execute_around.t) (f : T → T * R)
    (σ : store T) : outcome (R * store T) :=
  '(a, σ1) ← execute_around.arrow me w σ;
  '(r, σ2) ← call f (execute_around.proxy.arrow a) σ1;
  σ3 ← execute_around.proxy.dtor me a σ2;
  Ret (r, σ3).

(* w->f(...) on a const execute_around *)
Definition execute_around_call_const (me : tid) (w : execute_around.t) (f : T → R)
    (σ : store T) : outcome (R * store T) :=
  '(a, σ1) ← execute_around.arrow_const me w σ;
  r ← call_const f (execute_around.proxy.arrow_const a) σ1;
  σ2 ← execute_around.proxy.dtor me a σ1;
  Ret (r, σ2).
End full_expressions.

(** The default template arguments: both lock types are
    [std::unique_lock<std::recursive_mutex>]. *)
Abbreviation default_x_lock_t := unique_lock.t (only parsing).
Abbreviation default_s_lock_t := unique_lock.t (only parsing).

(** ** The payload types of the demo *)

(** [int]: 32 bits, two's complement. *)
Definition INT_MAX : Z := 2 ^ 31 - 1.
Definition int_wrap (z : Z) : Z := (z + 2 ^ 31) `mod` 2 ^ 32 - 2 ^ 31.

(** [std::map<std::string, std::pair<std::string, int>>] *)
Abbreviation map_t := (gmap string (string * Z)).

(* operator[]: inserts a value-initialised element when the key is absent *)
Definition map_subscript (k : string) (m : map_t) : map_t :=
  match m !! k with
  | Some _ => m
  | None => <[k := (EmptyString, 0)]> m
  end.

(* at(k) const: [None] stands for the std::out_of_range it throws *)
Definition map_at_const (k : string) (m : map_t) : option (string * Z) := m !! k.

Global Instance map_indexable : Indexable map_t string (string * Z) := {|
  subscript k m := Some (map_subscript k m);
  elem_get k m := m !! k;
  elem_set k v m := <[k := v]> m
|}.

Section elements.
Context {T K V : Type} `{!Indexable T K V}.

(* reading and writing through the reference to an element *)
Definition elem_read (r : elem_ref K) (σ : store T) : outcome V :=
  let 'ElemRef l k := r in
  match objs σ !! l with
  | None => Fault
  | Some c => match elem_get k c with Some v => Ret v | None => Fault end
  end.

Definition elem_write (r : elem_ref K) (v : V) (σ : store T) : outcome (store T) :=
  let 'ElemRef l k := r in
  match objs σ !! l with
  | None => Fault
  | Some c =>
      match elem_get k c with
      | Some _ => Ret (set_objs (insert l (elem_set k v c)) σ)
      | None => Fault
      end
  end.
End elements.

(* p->at(k): the reference to the element, std::out_of_range ([Fault]:
   nobody catches it) when absent *)
Definition map_at (k : string) (p : raw_ptr) (σ : store map_t) : outcome (elem_ref string) :=
  let 'Ptr l := p in
  match objs σ !! l with
  | None => Fault
  | Some m => if decide (is_Some (m !! k)) then Ret (ElemRef l k) else Fault
  end.

(* p->find(k)->second: the reference to the mapped pair; dereferencing
   end() is undefined *)
Definition map_find (k : string) (p : raw_ptr) (σ : store map_t) : outcome (elem_ref string) :=
  let 'Ptr l := p in
  match objs σ !! l with
  | None => Fault
  | Some m => if decide (is_Some (m !! k)) then Ret (ElemRef l k) else Fault
  end.

(** [std::vector<int>] *)
Abbreviation vector_int := (list Z).

(* vector(size_type n, const int& value): the value is converted to int *)
Definition vector_ctor (args : nat * Z) : Empty_set + vector_int :=
  inr (replicate args.1 (int_wrap args.2)).

(* std::accumulate(v.begin(), v.end(), init) *)
Definition accumulate (v : vector_int) (init : Z) : Z :=
  foldl (λ acc x, int_wrap (acc + x)) init v.

(** ** func and test_safe_ptr

    [func] runs in ten threads. A thread is a list of instructions, each
    executed atomically. An accessor temporary lives until the end of the
    full expression that created it ([Release]); the read and the write of
    [x.second++] are two instructions. *)

Inductive temp : Type :=
  | TObj (a : safe_ptr.auto_lock_obj_t.t unique_lock.t)   (* from operator * *)
  | TArrow (a : safe_ptr.auto_lock_t.t unique_lock.t)     (* from operator-> *)
  | TConst (a : safe_ptr.auto_lock_t.t unique_lock.t).    (* from operator-> const *)

Inductive instr : Type :=
  | Deref                            (* ( *safe_map_strings) *)
  | IndexSetFirst (k s : string)     (* tmp[k].first = s *)
  | Arrow                            (* safe_map_strings-> *)
  | AtLoad (k : string)              (* read tmp->at(k).second *)
  | FindLoad (k : string)            (* read tmp->find(k)->second.second *)
  | StoreInc (k : string)            (* write back the value read, plus one *)
  | CopyConst                        (* auto const readonly_safe_map_string = safe_map_strings *)
  | ArrowConst                       (* readonly_safe_map_string-> *)
  | OutStr (s : string)              (* cout << s *)
  | OutFirst (k : string)            (* cout << tmp->at(k).first *)
  | OutSecond (k : string)           (* cout << tmp->at(k).second *)
  | OutEndl                          (* cout << std::endl *)
  | Release.                         (* the newest temporary is destroyed *)

Record thread : Type := Thread {
  code : list instr;
  temps : list temp;
  reg : Z;
  safe_map_strings : safe_ptr.t;
  readonly_safe_map_string : option safe_ptr.t
}.

Definition set_code (c : list instr) (th : thread) : thread :=
  Thread c (temps th) (reg th) (safe_map_strings th) (readonly_safe_map_string th).
Definition set_temps (ts : list temp) (th : thread) : thread :=
  Thread (code th) ts (reg th) (safe_map_strings th) (readonly_safe_map_string th).
Definition set_reg (z : Z) (th : thread) : thread :=
  Thread (code th) (temps th) z (safe_map_strings th) (readonly_safe_map_string th).
Definition set_readonly (w : safe_ptr.t) (th : thread) : thread :=
  Thread (code th) (temps th) (reg th) (safe_map_strings th) (Some w).

Definition top_obj (th : thread) : outcome (safe_ptr.auto_lock_obj_t.t unique_lock.t) :=
  match temps th with TObj a :: _ => Ret a | _ => Fault end.
Definition top_arrow (th : thread) : outcome raw_ptr :=
  match temps th with TArrow a :: _ => Ret (safe_ptr.auto_lock_t.arrow a) | _ => Fault end.
Definition top_const (th : thread) : outcome const_raw_ptr :=
  match temps th with TConst a :: _ => Ret (safe_ptr.auto_lock_t.arrow_const a) | _ => Fault end.

Definition destroy (me : tid) (x : temp) (σ : store map_t) : outcome (store map_t) :=
  match x with
  | TObj a => safe_ptr.auto_lock_obj_t.dtor me a σ
  | TArrow a => safe_ptr.auto_lock_t.dtor me a σ
  | TConst a => safe_ptr.auto_lock_t.dtor me a σ
  end.

(* tmp[k].first = s *)
Definition index_set_first (a : safe_ptr.auto_lock_obj_t.t unique_lock.t) (k s : string)
    (σ : store map_t) : outcome (store map_t) :=
  '(r, σ1) ← safe_ptr.auto_lock_obj_t.index a k σ;
  '(_, z) ← elem_read r σ1;
  elem_write r (s, z) σ1.

Definition exec (me : tid) (i : instr) (th : thread) (σ : store map_t)
    : outcome (thread * store map_t) :=
  match i with
  | Deref =>
      '(a, σ1) ← safe_ptr.deref me (safe_map_strings th) σ;
      Ret (set_temps (TObj a :: temps th) th, σ1)
  | IndexSetFirst k s =>
      a ← top_obj th;
      σ1 ← index_set_first a k s σ;
      Ret (th, σ1)
  | Arrow =>
      '(a, σ1) ← safe_ptr.arrow me (safe_map_strings th) σ;
      Ret (set_temps (TArrow a :: temps th) th, σ1)
  | AtLoad k =>
      p ← top_arrow th;
      r ← map_at k p σ;
      '(_, z) ← elem_read r σ;
      Ret (set_reg z th, σ)
  | FindLoad k =>
      p ← top_arrow th;
      r ← map_find k p σ;
      '(_, z) ← elem_read r σ;
      Ret (set_reg z th, σ)
  | StoreInc k =>
      p ← top_arrow th;
      let 'Ptr l := p in
      '(f, _) ← elem_read (ElemRef l k) σ;
      σ1 ← elem_write (ElemRef l k) (f, int_wrap (reg th + 1)) σ;
      Ret (th, σ1)
  | CopyConst =>
      Ret (set_readonly (safe_ptr.copy (safe_map_strings th)) th, σ)
  | ArrowConst =>
      match readonly_safe_map_string th with
      | None => Fault
      | Some w =>
          '(a, σ1) ← safe_ptr.arrow_const me w σ;
          Ret (set_temps (TConst a :: temps th) th, σ1)
      end
  | OutStr s => Ret (th, print [OStr s] σ)
  | OutFirst k =>
      p ← top_const th;
      v ← call_const (map_at_const k) p σ;
      match v with
      | Some (f, _) => Ret (th, print [OStr f] σ)
      | None => Fault
      end
  | OutSecond k =>
      p ← top_const th;
      v ← call_const (map_at_const k) p σ;
      match v with
      | Some (_, z) => Ret (th, print [OInt z] σ)
      | None => Fault
      end
  | OutEndl => Ret (th, print [OEndl] σ)
  | Release =>
      match temps th with
      | [] => Fault
      | x :: rest =>
          σ1 ← destroy me x σ;
          Ret (set_temps rest th, σ1)
      end
  end.

(* the body of the for loop *)
Definition func_loop_body : list instr :=
  [ Arrow; AtLoad "apple"; StoreInc "apple"; Release;
    Arrow; FindLoad "potato"; StoreInc "potato"; Release ].

(* void func(decltype(safe_map_strings_global) safe_map_strings),
   with the bound of the loop as a parameter *)
Definition func (iterations : nat) : list instr :=
  [ Deref; IndexSetFirst "apple" "fruit"; Release;
    Deref; IndexSetFirst "potato" "vegetable"; Release ]
  ++ mjoin (replicate iterations func_loop_body)
  ++ [ CopyConst;
       OutStr "potato is "; ArrowConst; OutFirst "potato";
       OutStr " "; ArrowConst; OutSecond "potato";
       OutStr ", apple is "; ArrowConst; OutFirst "apple";
       OutStr " "; ArrowConst; OutSecond "apple";
       OutEndl;
       Release; Release; Release; Release ].

(* std::thread(func, w): the thread's parameter is a copy of w *)
Definition spawn (iterations : nat) (w : safe_ptr.t) : thread :=
  Thread (func iterations) [] 0 (safe_ptr.copy w) None.

Record state : Type := State {
  sto : store map_t;
  threads : list thread
}.

(* one instruction of thread [me] *)
Definition step (me : tid) (st : state) : outcome state :=
  match threads st !! me with
  | None => Fault
  | Some th =>
      match code th with
      | [] => Fault
      | i :: c =>
          '(th', σ') ← exec me i (set_code c th) (sto st);
          Ret (State σ' (<[me := th']> (threads st)))
      end
  end.

(* a schedule names the thread that moves next *)
Fixpoint run (sched : list tid) (st : state) : outcome state :=
  match sched with
  | [] => Ret st
  | me :: sched' => st' ← step me st; run sched' st'
  end.

Definition finished (st : state) : Prop :=
  Forall (λ th, code th = []) (threads st).

(* safe_ptr<std::map<...>> safe_map_strings_global; *)
Definition map_ctor (_ : unit) : Empty_set + map_t := inr ∅.

Definition globals : safe_ptr.t * store map_t :=
  match safe_ptr.ctor map_ctor () empty_store with
  | (inr w, σ) => (w, σ)
  | (inl e, _) => match e with end
  end.

Definition safe_map_strings_global : safe_ptr.t := globals.1.

(* test_safe_ptr, with the number of threads and the bound of the loop as
   parameters: the state in which every thread is about to enter func *)
Definition test_safe_ptr_with (nthreads iterations : nat) : state :=
  State globals.2 (replicate nthreads (spawn iterations safe_map_strings_global)).

Definition test_safe_ptr : state :=
  test_safe_ptr_with 10 (Z.to_nat 10000).

(* ( *w)[k].first = s; as a full expression *)
Definition assign_first (me : tid) (w : safe_ptr.t) (k s : string) (σ : store map_t)
    : outcome (store map_t) :=
  '(a, σ1) ← safe_ptr.deref (x_lock_t := unique_lock.t) me w σ;
  σ2 ← index_set_first a k s σ1;
  safe_ptr.auto_lock_obj_t.dtor me a σ2.

(* w->at(k) on a const handle, as a full expression *)
Definition read_const (me : tid) (w : safe_ptr.t) (k : string) (σ : store map_t)
    : outcome (option (string * Z) * store map_t) :=
  safe_ptr_call_const me w (map_at_const k) σ.

(** ** test_execute_around *)

(* std::accumulate(a->begin(), b->end(), 0): both iterators must come from
   the same vector *)
Definition accumulate_through (a b : execute_around.proxy.t) (σ : store vector_int)
    : outcome Z :=
  let 'Ptr la := execute_around.proxy.arrow a in
  let 'Ptr lb := execute_around.proxy.arrow b in
  if decide (la = lb) then
    match objs σ !! la with
    | Some v => Ret (accumulate v 0)
    | None => Fault
    end
  else Fault.

(* res = std::accumulate(X->begin(), X->end(), 0), where X builds a proxy
   temporary: two temporaries, alive until the end of the expression *)
Definition accumulate_temporaries (me : tid)
    (X : store vector_int → outcome (execute_around.proxy.t * store vector_int))
    (σ : store vector_int) : outcome (Z * store vector_int) :=
  '(b, σ1) ← X σ;
  '(e, σ2) ← X σ1;
  res ← accumulate_through b e σ2;
  σ3 ← execute_around.proxy.dtor me e σ2;
  σ4 ← execute_around.proxy.dtor me b σ3;
  Ret (res, σ4).

Definition report (n : string) (res : Z) (σ : store vector_int) : store vector_int :=
  print [OStr (n +:+ ". execute_around::accumulate:res = "); OInt res; OEndl] σ.

(* an object with automatic storage duration: [Ended] once its destructor
   has been invoked *)
Inductive automatic (A : Type) : Type :=
  | Alive (a : A)
  | Ended.
Arguments Alive {A} a.
Arguments Ended {A}.

(* x.~proxy(), and the destruction of x where its block is left: the
   destructor is invoked, and the lifetime of x ends; to invoke the
   destructor of an object whose lifetime has ended is undefined *)
Definition invoke_destructor (me : tid) (x : automatic execute_around.proxy.t)
    (σ : store vector_int)
    : outcome (automatic execute_around.proxy.t * store vector_int) :=
  match x with
  | Alive a => σ1 ← execute_around.proxy.dtor me a σ; Ret (Ended, σ1)
  | Ended => Fault
  end.

(* the statements of test_execute_around, lines 125 to 157: the four
   results, then vecc, tmp1 and tmp2 as the last statement leaves them *)
Definition test_execute_around_statements (me : tid) (σ : store vector_int)
    : outcome (list Z
               * (execute_around.t * automatic execute_around.proxy.t
                  * automatic execute_around.proxy.t)
               * store vector_int) :=
  match execute_around.ctor vector_ctor (10%nat, 10) σ with
  | (inl e, _) => match e with end
  | (inr vecc, σ0) =>
      (* vecc->begin(), vecc->end() *)
      '(res1, σ1) ← accumulate_temporaries me (execute_around.arrow me vecc) σ0;
      (* (vecc.operator->())->begin(), ... *)
      '(res2, σ2) ← accumulate_temporaries me (execute_around.arrow me vecc)
                      (report "1" res1 σ1);
      (* T::proxy(vecc.get_p().get(), *vecc.get_mtx())->begin(), ... *)
      '(res3, σ3) ← accumulate_temporaries me
                      (execute_around.proxy.ctor me (execute_around.get_p vecc)
                         (execute_around.get_mtx vecc))
                      (report "2" res2 σ2);
      (* T::proxy tmp1(...); T::proxy tmp2(...); *)
      '(tmp1, σ4) ← execute_around.proxy.ctor me (execute_around.get_p vecc)
                      (execute_around.get_mtx vecc) (report "3" res3 σ3);
      '(tmp2, σ5) ← execute_around.proxy.ctor me (execute_around.get_p vecc)
                      (execute_around.get_mtx vecc) σ4;
      res4 ← accumulate_through tmp1 tmp2 σ5;
      (* tmp2.~proxy(); tmp1.~proxy(); *)
      '(tmp2', σ6) ← invoke_destructor me (Alive tmp2) (report "4" res4 σ5);
      '(tmp1', σ7) ← invoke_destructor me (Alive tmp1) σ6;
      Ret ([res1; res2; res3; res4], (vecc, tmp1', tmp2'), σ7)
  end.

(* void test_execute_around(): after the last statement the block is left,
   and its automatic objects are destroyed in the reverse order of their
   construction: tmp2, tmp1, vecc *)
Definition test_execute_around (me : tid) (σ : store vector_int)
    : outcome (list Z * store vector_int) :=
  '(res, (vecc, tmp1, tmp2), σ7) ← test_execute_around_statements me σ;
  '(_, σ8) ← invoke_destructor me tmp2 σ7;
  '(_, σ9) ← invoke_destructor me tmp1 σ8;
  σ10 ← execute_around.dtor_last_owner vecc σ9;
  Ret (res, σ10).

(** ** main

    main fills a table with the two test functions, calls every function
    of the table, writing a numbered header before each, writes "end",
    waits for a number on std::cin and returns 0. *)

(* typedef void ( *test_function)(), and the two addresses put in the table *)
Inductive test_function : Type :=
  | Test_execute_around    (* &test_execute_around *)
  | Test_safe_ptr.         (* &test_safe_ptr *)

(* std::unordered_map<std::string, test_function> test_table, after the two
   calls of insert (the keys differ, so both pairs go in) *)
Definition test_table : gmap string test_function :=
  <["test_safe_ptr" := Test_safe_ptr]>
    (<["test_execute_around" := Test_execute_around]> ∅).

(* the thread that runs main; the threads of test_safe_ptr are 0 to 9 *)
Definition main_thread : tid := 10%nat.

(* what main works on: the part of the heap that test_execute_around uses,
   the part that holds safe_map_strings_global, and std::cout between the
   calls *)
Record world : Type := World {
  vectors : store vector_int;
  maps : store map_t;
  console : list out_item
}.

Definition write (items : list out_item) (g : world) : world :=
  World (vectors g) (maps g) (console g ++ items).

(* a function is called with std::cout as it is *)
Definition with_cout {T} (c : list out_item) (σ : store T) : store T :=
  Store (objs σ) (mtxs σ) c.

Definition returned (th : thread) : bool :=
  match code th with
  | [] => true
  | _ :: _ => false
  end.

(* void test_safe_ptr(): ten threads are started on func with copies of
   safe_map_strings_global, they run as the schedule has it, and the joins
   return once every thread has returned *)
Definition call_test_safe_ptr (sched : list tid) (σ : store map_t) : outcome (store map_t) :=
  st ← run sched (State σ (threads test_safe_ptr));
  if forallb returned (threads st) then Ret (sto st) else Blocks.

(* it->second() *)
Definition call_test (f : test_function) (sched : list tid) (g : world) : outcome world :=
  match f with
  | Test_execute_around =>
      '(_, σ) ← test_execute_around main_thread (with_cout (console g) (vectors g));
      Ret (World σ (maps g) (cout σ))
  | Test_safe_ptr =>
      σ ← call_test_safe_ptr sched (with_cout (console g) (maps g));
      Ret (World (vectors g) σ (cout σ))
  end.

(* std::cout << "=== Start test <" << it->first << "> #" << i << " ===" << std::endl *)
Definition header (name : string) (i : Z) : list out_item :=
  [OStr "=== Start test <"; OStr name; OStr "> #"; OInt i; OStr " ==="; OEndl].

(* the loop over test_table; [entries] are the elements the iterator has
   still to visit, [i] is the counter *)
Fixpoint call_tests (entries : list (string * test_function)) (i : Z) (sched : list tid)
    (g : world) : outcome world :=
  match entries with
  | [] => Ret g
  | (name, f) :: rest =>
      g1 ← call_test f sched (write (header name i) g);
      call_tests rest (int_wrap (i + 1)) sched g1
  end.

(* the program as main finds it: no vector yet, the global map built *)
Definition initial_world : world := World empty_store globals.2 [].

(* int main(): [order] is the order in which the iterator visits the
   elements of test_table, which the container does not specify; the
   number read from std::cin is not used *)
Definition main (order : list (string * test_function)) (sched : list tid) (input : Z)
    : outcome (Z * world) :=
  g ← call_tests order 1 sched initial_world;
  Ret (0, write [OStr "end"] g).


(** * Definitions used to state and prove the properties *)

(** ** Special member functions of the accessor classes *)

Inductive member_type : Type :=
  | unique_lock_member      (* std::unique_lock: movable, copy constructor deleted *)
  | const_pointer_member.   (* T* const: copyable *)

Record class_decl : Type := ClassDecl {
  data_members : list member_type;
  declares_move_ctor : bool;
  declares_copy_ctor : bool
}.

Definition member_copyable (x : member_type) : bool :=
  match x with
  | unique_lock_member => false
  | const_pointer_member => true
  end.

(* a class that declares a move constructor has its implicit copy
   constructor deleted; otherwise the implicit one is deleted as soon as a
   member cannot be copied *)
Definition copy_constructible (c : class_decl) : bool :=
  declares_copy_ctor c ||
  (negb (declares_move_ctor c) && forallb member_copyable (data_members c)).

Definition move_constructible (c : class_decl) : bool :=
  declares_move_ctor c || copy_constructible c.

(* class proxy { std::unique_lock<mutex_type> lock; T* const p; proxy(proxy&&); ... } *)
Definition proxy_decl : class_decl :=
  ClassDecl [unique_lock_member; const_pointer_member] true false.
(* class auto_lock_t { T* const ptr; req_lock lock; auto_lock_t(auto_lock_t&&); ... } *)
Definition auto_lock_t_decl : class_decl :=
  ClassDecl [const_pointer_member; unique_lock_member] true false.
(* class auto_lock_obj_t { T* const ptr; req_lock lock; auto_lock_obj_t(auto_lock_obj_t&&); ... } *)
Definition auto_lock_obj_t_decl : class_decl :=
  ClassDecl [const_pointer_member; unique_lock_member] true false.

(** ** The life of one accessor *)

(* the two states of an accessor *)
Inductive lock_state : Type := locked | unlocked.

(* what can happen to an accessor that exists: a member is called on it,
   another accessor is move-constructed from it, it is destroyed *)
Inductive event : Type := Used | MovedFrom | Destroyed.

(* the three accessor classes have the same interface: a locking
   constructor, a move constructor, a destructor, and a lock member *)
Class Accessor (A : Type) : Type := {
  acc_ptr : A → loc;
  acc_lock : A → unique_lock.t;
  acc_ctor : ∀ {T}, tid → loc → loc → store T → outcome (A * store T);
  acc_move : A → A * A;
  acc_dtor : ∀ {T}, tid → A → store T → outcome (store T)
}.

Global Instance proxy_accessor : Accessor execute_around.proxy.t := {|
  acc_ptr := execute_around.proxy.p;
  acc_lock := execute_around.proxy.lock;
  acc_ctor := @execute_around.proxy.ctor;
  acc_move := execute_around.proxy.move;
  acc_dtor := @execute_around.proxy.dtor
|}.
Global Instance auto_lock_t_accessor : Accessor (safe_ptr.auto_lock_t.t unique_lock.t) := {|
  acc_ptr := safe_ptr.auto_lock_t.ptr;
  acc_lock := safe_ptr.auto_lock_t.lock;
  acc_ctor := @safe_ptr.auto_lock_t.ctor unique_lock.t _;
  acc_move := safe_ptr.auto_lock_t.move;
  acc_dtor := @safe_ptr.auto_lock_t.dtor unique_lock.t _
|}.
Global Instance auto_lock_obj_t_accessor : Accessor (safe_ptr.auto_lock_obj_t.t unique_lock.t) := {|
  acc_ptr := safe_ptr.auto_lock_obj_t.ptr;
  acc_lock := safe_ptr.auto_lock_obj_t.lock;
  acc_ctor := @safe_ptr.auto_lock_obj_t.ctor unique_lock.t _;
  acc_move := safe_ptr.auto_lock_obj_t.move;
  acc_dtor := @safe_ptr.auto_lock_obj_t.dtor unique_lock.t _
|}.

Definition acc_state {A} `{!Accessor A} (a : A) : lock_state :=
  if unique_lock.owns (acc_lock a) then locked else unlocked.

(* thread [me] holds mutex [m] *)
Definition holds {T} (me : tid) (m : loc) (σ : store T) : Prop :=
  ∃ mu, mtxs σ !! m = Some mu ∧ recursive_mutex.owned_by me mu = true.

(* how often mutex [m] is locked *)
Definition lock_count {T} (m : loc) (σ : store T) : nat :=
  from_option recursive_mutex.count 0%nat (mtxs σ !! m).

(* the instance after an event, [None] once it is destroyed, and the
   store: a use changes neither, a move leaves of the instance what the
   move constructor leaves of its source, a destruction runs the
   destructor *)
Definition after_event {A} `{!Accessor A} {T} (me : tid) (e : event) (a : A) (σ : store T)
    : outcome (option A * store T) :=
  match e with
  | Used => Ret (Some a, σ)
  | MovedFrom => Ret (Some (acc_move a).2, σ)
  | Destroyed => σ1 ← acc_dtor me a σ; Ret (None, σ1)
  end.

(* an instance that is destroyed owns no lock *)
Definition state_of {A} `{!Accessor A} (a : option A) : lock_state :=
  match a with
  | Some a => acc_state a
  | None => unlocked
  end.

(* what is seen after each event of a life: the state of the instance,
   and how often its mutex [m] is locked; nothing can happen to an
   instance that no longer exists *)
Fixpoint trace {A} `{!Accessor A} {T} (me : tid) (m : loc) (es : list event) (a : option A)
    (σ : store T) : outcome (list (lock_state * nat)) :=
  match es with
  | [] => Ret []
  | e :: es' =>
      match a with
      | None => Fault
      | Some a0 =>
          '(a1, σ1) ← after_event me e a0 σ;
          t ← trace me m es' a1 σ1;
          Ret ((state_of a1, lock_count m σ1) :: t)
      end
  end.

(* C2 as the specification words it: whatever constructor built it, an
   accessor is locked until it is destroyed *)
Definition locked_until_destroyed (A : Type) `{!Accessor A} : Prop :=
  ∀ T me m (a : A) (σ : store T) es t,
    acc_state a = locked → Destroyed ∉ es → trace me m es (Some a) σ = Ret t →
    Forall (λ s, s.1 = locked) t.

(* C2 as the code has it: the locking constructor; the move constructor;
   the lives that begin with the locking constructor, which took the
   mutex from [lock_count m σ] to one more, with what the destructor does
   to the accessor itself and to an accessor move-constructed from it;
   the lives of an accessor that is unlocked *)
Definition locked_until_moved_or_destroyed (A : Type) `{!Accessor A} : Prop :=
  (∀ T me p m (σ σ' : store T) (a : A),
     acc_ctor me p m σ = Ret (a, σ') →
     acc_state a = locked ∧ holds me m σ' ∧ lock_count m σ' = S (lock_count m σ)) ∧
  (∀ T me p m (σ : store T) o n,
     mtxs σ !! m = Some (recursive_mutex.Held o n) → o ≠ me →
     acc_ctor (A := A) me p m σ = Blocks) ∧
  (∀ a : A, acc_state (acc_move a).1 = acc_state a ∧ acc_state (acc_move a).2 = unlocked) ∧
  (∀ T me p m (σ σ1 : store T) (a : A) es1,
     acc_ctor me p m σ = Ret (a, σ1) → Forall (λ e, e = Used) es1 →
     trace me m es1 (Some a) σ1 = Ret (replicate (length es1) (locked, S (lock_count m σ))) ∧
     trace me m (es1 ++ [Destroyed]) (Some a) σ1 =
       Ret (replicate (length es1) (locked, S (lock_count m σ)) ++ [(unlocked, lock_count m σ)]) ∧
     (∃ σ2, acc_dtor me a σ1 = Ret σ2 ∧ mtxs σ2 = mtxs σ ∧ objs σ2 = objs σ) ∧
     (∃ σ2, acc_dtor me (acc_move a).1 σ1 = Ret σ2 ∧ mtxs σ2 = mtxs σ ∧ objs σ2 = objs σ) ∧
     ∀ es2, Destroyed ∉ es2 →
       trace me m (es1 ++ MovedFrom :: es2) (Some a) σ1 =
         Ret (replicate (length es1) (locked, S (lock_count m σ))
              ++ replicate (S (length es2)) (unlocked, S (lock_count m σ))) ∧
       trace me m (es1 ++ MovedFrom :: es2 ++ [Destroyed]) (Some a) σ1 =
         Ret (replicate (length es1) (locked, S (lock_count m σ))
              ++ replicate (S (S (length es2))) (unlocked, S (lock_count m σ)))) ∧
  (∀ T me m (σ : store T) (a : A) es t,
     acc_state a = unlocked → trace me m es (Some a) σ = Ret t →
     Forall (λ s, s = (unlocked, lock_count m σ)) t).

(* C5: one acquisition, one move, two destructions, one release *)
Definition move_transfers_lock (A : Type) `{!Accessor A} : Prop :=
  ∀ T me p m (σ σ1 : store T) (a : A),
    acc_ctor me p m σ = Ret (a, σ1) →
    acc_state (acc_move a).1 = locked ∧
    unique_lock.pm (acc_lock (acc_move a).1) = Some m ∧
    acc_state (acc_move a).2 = unlocked ∧
    lock_count m σ1 = S (lock_count m σ) ∧
    ∃ σ2 σ3,
      acc_dtor me (acc_move a).2 σ1 = Ret σ2 ∧ mtxs σ2 = mtxs σ1 ∧
      acc_dtor me (acc_move a).1 σ2 = Ret σ3 ∧ mtxs σ3 = mtxs σ ∧
      lock_count m σ3 = lock_count m σ.

(* C7: [n] accessors built one after the other by one thread, newest
   first, and their destruction in that order *)
Fixpoint acquire_nested {A} `{!Accessor A} {T} (n : nat) (me : tid) (p m : loc)
    (σ : store T) : outcome (list A * store T) :=
  match n with
  | O => Ret ([], σ)
  | S n' =>
      '(a, σ1) ← acc_ctor me p m σ;
      '(l, σ2) ← acquire_nested n' me p m σ1;
      Ret (l ++ [a], σ2)
  end.

Fixpoint release_all {A} `{!Accessor A} {T} (me : tid) (l : list A) (σ : store T)
    : outcome (store T) :=
  match l with
  | [] => Ret σ
  | a :: l' => σ1 ← acc_dtor me a σ; release_all me l' σ1
  end.

Definition reentrant (A : Type) `{!Accessor A} : Prop :=
  ∀ T (n : nat) me p m (σ : store T) mu,
    mtxs σ !! m = Some mu →
    mu = recursive_mutex.Free ∨ recursive_mutex.owned_by me mu = true →
    ∃ (l : list A) σn σ',
      acquire_nested n me p m σ = Ret (l, σn) ∧
      length l = n ∧ Forall (λ a, acc_state a = locked) l ∧
      lock_count m σn = (lock_count m σ + n)%nat ∧ objs σn = objs σ ∧
      release_all me l σn = Ret σ' ∧
      mtxs σ' = mtxs σ ∧ objs σ' = objs σ.

(* w->f(...) and, for a const w, w->f(...), for any of the accessor classes *)
Definition acc_call {A} `{!Accessor A} {T R} (me : tid) (p m : loc) (f : T → T * R)
    (σ : store T) : outcome (R * store T) :=
  '(a, σ1) ← acc_ctor (A := A) me p m σ;
  '(r, σ2) ← call f (Ptr (acc_ptr a)) σ1;
  σ3 ← acc_dtor me a σ2;
  Ret (r, σ3).

Definition acc_call_const {A} `{!Accessor A} {T R} (me : tid) (p m : loc) (f : T → R)
    (σ : store T) : outcome (R * store T) :=
  '(a, σ1) ← acc_ctor (A := A) me p m σ;
  r ← call_const f (ConstPtr (acc_ptr a)) σ1;
  σ2 ← acc_dtor me a σ1;
  Ret (r, σ2).

(* C10: handles used as const, and the calls made through them *)
Inductive const_handle : Type :=
  | ConstSafePtr (w : safe_ptr.t)
  | ConstExecuteAround (w : execute_around.t).

Definition target (h : const_handle) : loc :=
  match h with
  | ConstSafePtr w => safe_ptr.ptr w
  | ConstExecuteAround w => execute_around.p w
  end.

Definition guard (h : const_handle) : loc :=
  match h with
  | ConstSafePtr w => safe_ptr.mtx_ptr w
  | ConstExecuteAround w => execute_around.mtx w
  end.

Definition const_call {T R} (me : tid) (h : const_handle) (f : T → R) (σ : store T)
    : outcome (R * store T) :=
  match h with
  | ConstSafePtr w => safe_ptr_call_const me w f σ
  | ConstExecuteAround w => execute_around_call_const me w f σ
  end.

Fixpoint const_calls {T R} (l : list (tid * const_handle * (T → R))) (σ : store T)
    : outcome (list R * store T) :=
  match l with
  | [] => Ret ([], σ)
  | (me, h, f) :: l' =>
      '(r, σ1) ← const_call me h f σ;
      '(rs, σ2) ← const_calls l' σ1;
      Ret (r :: rs, σ2)
  end.

(* what the calls return when the wrapped values are those of [σ] *)
Definition read_in {T R} (σ : store T) (c : tid * const_handle * (T → R)) : option R :=
  c.2 <$> objs σ !! target c.1.2.

(* every handle designates a value and a free mutex *)
Definition ready {T R} (l : list (tid * const_handle * (T → R))) (σ : store T) : Prop :=
  Forall (λ c, is_Some (objs σ !! target c.1.2) ∧
               mtxs σ !! guard c.1.2 = Some recursive_mutex.Free) l.

(* member redirection through a const handle, up to the call: the accessor
   that operator-> of the handle returns, and the pointer that operator->
   of that accessor returns *)
Definition const_redirect {T} (me : tid) (h : const_handle) (σ : store T)
    : outcome ((raw_ptr + const_raw_ptr) * store T) :=
  match h with
  | ConstSafePtr w =>
      '(a, σ1) ← safe_ptr.operator_arrow me (Const w) σ;
      Ret (safe_ptr.auto_lock_t.operator_arrow a, σ1)
  | ConstExecuteAround w =>
      '(a, σ1) ← execute_around.operator_arrow me (Const w) σ;
      Ret (execute_around.proxy.operator_arrow a, σ1)
  end.

(* what the public const members of a handle allow: a member redirection
   h->f(...), and for an execute_around also w.get_p()->f(...), get_p()
   const returning a shared_ptr to the value itself *)
Inductive const_access (T R : Type) : Type :=
  | Redirect (h : const_handle) (f : T → R)
  | GetP (w : execute_around.t) (f : T → T * R).
Arguments Redirect {T R} h f.
Arguments GetP {T R} w f.

Definition access {T R} (me : tid) (c : const_access T R) (σ : store T)
    : outcome (R * store T) :=
  match c with
  | Redirect h f => const_call me h f σ
  | GetP w f => call f (Ptr (execute_around.get_p w)) σ
  end.

Fixpoint accesses {T R} (l : list (tid * const_access T R)) (σ : store T)
    : outcome (list R * store T) :=
  match l with
  | [] => Ret ([], σ)
  | (me, c) :: l' =>
      '(r, σ1) ← access me c σ;
      '(rs, σ2) ← accesses l' σ1;
      Ret (r :: rs, σ2)
  end.

(* C10 as the specification words it: no sequence of accesses made through
   const handles changes a wrapped value *)
Definition const_handles_are_read_only : Prop :=
  ∀ (T R : Type) (l : list (tid * const_access T R)) (σ σ' : store T) rs,
    accesses l σ = Ret (rs, σ') → objs σ' = objs σ.

(* C3 as the specification words it: a mutation made through one handle
   cannot be seen through a copy of it *)
Definition copies_are_independent : Prop :=
  ∀ (w : safe_ptr.t) (σ σ' : store map_t) (me : tid) (k s : string),
    assign_first me w k s σ = Ret σ' →
    ∀ r σ'', read_const me (safe_ptr.copy w) k σ' = Ret (r, σ'') →
             read_const me (safe_ptr.copy w) k σ = Ret (r, σ).

(** ** The three accessor classes behave as their lock member *)

Class AccessorLaws (A : Type) `{!Accessor A} : Prop := {
  law_ctor : ∀ T me p m (σ : store T),
    match unique_lock.ctor me m σ with
    | Ret (l, σ1) =>
        ∃ a σ1', acc_ctor me p m σ = Ret (a, σ1') ∧ acc_lock a = l ∧ acc_ptr a = p ∧
                 objs σ1' = objs σ1 ∧ mtxs σ1' = mtxs σ1
    | Blocks => acc_ctor (A := A) me p m σ = Blocks
    | Fault => acc_ctor (A := A) me p m σ = Fault
    end;
  law_dtor : ∀ T me (a : A) (σ : store T),
    match unique_lock.dtor me (acc_lock a) σ with
    | Ret σ1 =>
        ∃ σ1', acc_dtor me a σ = Ret σ1' ∧ objs σ1' = objs σ1 ∧ mtxs σ1' = mtxs σ1
    | Blocks => acc_dtor me a σ = Blocks
    | Fault => acc_dtor me a σ = Fault
    end;
  law_move : ∀ a : A,
    acc_lock (acc_move a).1 = (unique_lock.move (acc_lock a)).1 ∧
    acc_lock (acc_move a).2 = (unique_lock.move (acc_lock a)).2
}.

(* a store with one vector and its mutex, and the proxy that
   proxy(p, mtx) builds on it *)
Definition vec_store : store vector_int :=
  Store {[ 1%positive := [10; 10] ]} {[ 1%positive := recursive_mutex.Free ]} [].

Definition vec_proxy : execute_around.proxy.t :=
  execute_around.proxy.mk (unique_lock.mk (Some 1%positive) true) 1%positive.

(* the store of the globals once apple has been given its first component *)
Definition apple_store : store map_t :=
  Store {[ 1%positive := {[ "apple" := ("fruit", 0) ]} ]}
        {[ 1%positive := recursive_mutex.Free ]} [].

(* v.push_back(x) *)
Definition push_back (x : Z) (v : vector_int) : vector_int * unit := (v ++ [x], ()).

(* the wrapped container after its own operator[], and the element that
   operator[] designates *)
Definition own_subscript {T K V} `{!Indexable T K V} (p : loc) (k : K) (σ : store T)
    : option T :=
  match objs σ !! p with
  | Some c => subscript k c
  | None => None
  end.

Definition own_element {T K V} `{!Indexable T K V} (p : loc) (k : K) (σ : store T)
    : option V :=
  match own_subscript p k σ with
  | Some c' => elem_get k c'
  | None => None
  end.

(* a constructor that refuses a negative size *)
Definition checked_vector_ctor (args : Z * Z) : string + vector_int :=
  if decide (args.1 < 0) then inl "length_error" else inr (replicate (Z.to_nat args.1) args.2).

(** ** test_safe_ptr: the invariant *)

Definition gptr : loc := safe_ptr.ptr safe_map_strings_global.
Definition gmtx : loc := safe_ptr.mtx_ptr safe_map_strings_global.

(* the mutex as thread [me] sees it while it holds [d] accessors *)
Definition mutex_for (me : tid) (d : nat) : recursive_mutex.t :=
  match d with
  | O => recursive_mutex.Free
  | S n => recursive_mutex.Held me n
  end.

Inductive kind : Type := KObj | KArrow | KConst.

Definition kind_of (x : temp) : kind :=
  match x with
  | TObj _ => KObj
  | TArrow _ => KArrow
  | TConst _ => KConst
  end.

(* what func assigns to the first component of each element *)
Definition firsts : gmap string string :=
  {[ "apple" := "fruit"; "potato" := "vegetable" ]}.

(* [wf s ks pend ro c]: the code [c] can run with accessors of kinds [s]
   alive, keys [ks] known to be present, a loaded value waiting to be
   stored back to [pend], and the read-only copy made iff [ro] *)
Inductive wf : list kind → list string → option string → bool → list instr → Prop :=
  | wf_nil ks ro : wf [] ks None ro []
  | wf_Deref s ks ro c :
      wf (KObj :: s) ks None ro c → wf s ks None ro (Deref :: c)
  | wf_IndexSetFirst s ks ro k v c :
      firsts !! k = Some v →
      wf (KObj :: s) (k :: ks) None ro c →
      wf (KObj :: s) ks None ro (IndexSetFirst k v :: c)
  | wf_Arrow s ks ro c :
      wf (KArrow :: s) ks None ro c → wf s ks None ro (Arrow :: c)
  | wf_AtLoad s ks ro k c :
      k ∈ ks → wf (KArrow :: s) ks (Some k) ro c →
      wf (KArrow :: s) ks None ro (AtLoad k :: c)
  | wf_FindLoad s ks ro k c :
      k ∈ ks → wf (KArrow :: s) ks (Some k) ro c →
      wf (KArrow :: s) ks None ro (FindLoad k :: c)
  | wf_StoreInc s ks ro k c :
      k ∈ ks → wf (KArrow :: s) ks None ro c →
      wf (KArrow :: s) ks (Some k) ro (StoreInc k :: c)
  | wf_CopyConst s ks ro c :
      wf s ks None true c → wf s ks None ro (CopyConst :: c)
  | wf_ArrowConst s ks c :
      wf (KConst :: s) ks None true c → wf s ks None true (ArrowConst :: c)
  | wf_OutStr s ks ro v c :
      wf s ks None ro c → wf s ks None ro (OutStr v :: c)
  | wf_OutFirst s ks ro k c :
      k ∈ ks → wf (KConst :: s) ks None ro c →
      wf (KConst :: s) ks None ro (OutFirst k :: c)
  | wf_OutSecond s ks ro k c :
      k ∈ ks → wf (KConst :: s) ks None ro c →
      wf (KConst :: s) ks None ro (OutSecond k :: c)
  | wf_OutEndl s ks ro c :
      wf s ks None ro c → wf s ks None ro (OutEndl :: c)
  | wf_Release x s ks ro c :
      wf s ks None ro c → wf (x :: s) ks None ro (Release :: c).

(* the increments a piece of code still has to store to [k] *)
Fixpoint incs (k : string) (c : list instr) : nat :=
  match c with
  | [] => 0
  | StoreInc k' :: c' => (if decide (k' = k) then 1 else 0) + incs k c'
  | _ :: c' => incs k c'
  end.

Definition counter (k : string) (m : map_t) : Z :=
  match m !! k with
  | Some (_, z) => z
  | None => 0
  end.

Definition owning_lock (w : safe_ptr.t) : unique_lock.t :=
  unique_lock.mk (Some (safe_ptr.mtx_ptr w)) true.

Definition the_lock : unique_lock.t := owning_lock safe_map_strings_global.
Global Arguments gptr : simpl never.
Global Arguments gmtx : simpl never.
Global Arguments the_lock : simpl never.

Definition temp_ok (x : temp) : Prop :=
  match x with
  | TObj a => a = safe_ptr.auto_lock_obj_t.mk gptr the_lock
  | TArrow a => a = safe_ptr.auto_lock_t.mk gptr the_lock
  | TConst a => a = safe_ptr.auto_lock_t.mk gptr the_lock
  end.

Definition map_ok (m : map_t) : Prop :=
  ∀ k f z, m !! k = Some (f, z) → firsts !! k = Some f ∧ 0 ≤ z.

Definition thread_ok (m : map_t) (th : thread) : Prop :=
  safe_map_strings th = safe_map_strings_global ∧
  (∀ w, readonly_safe_map_string th = Some w → w = safe_map_strings_global) ∧
  Forall temp_ok (temps th) ∧
  ∃ ks pend,
    wf (kind_of <$> temps th) ks pend
       (bool_decide (is_Some (readonly_safe_map_string th))) (code th) ∧
    (∀ k, k ∈ ks → is_Some (m !! k)) ∧
    (∀ k, pend = Some k → reg th = counter k m).

(* what one instruction of a thread that may run establishes *)
Record post (σ : store map_t) (m : map_t) (th : thread) (c : list instr) (i : instr)
    (th' : thread) (σ' : store map_t) (m' : map_t) (mu' : recursive_mutex.t) : Prop := {
  post_obj : objs σ' !! gptr = Some m';
  post_mtx : mtxs σ' !! gmtx = Some mu';
  post_map : map_ok m';
  post_code : code th' = c;
  post_thread : thread_ok m' th';
  post_keys : ∀ k, is_Some (m !! k) → is_Some (m' !! k);
  post_idle : temps th = [] → m' = m;
  post_count : ∀ k, counter k m' + Z.of_nat (incs k c) = counter k m + Z.of_nat (incs k (i :: c));
  post_out : ∀ z, OInt z ∈ drop (length (cout σ)) (cout σ') → ∃ k f, m !! k = Some (f, z)
}.

(* the mutex as it must be when thread [t] has [d] accessors alive *)
Definition held_ok (t : tid) (mu : recursive_mutex.t) (d : nat) : Prop :=
  match mu with
  | recursive_mutex.Free => d = 0%nat
  | recursive_mutex.Held o n => if decide (o = t) then d = S n else d = 0%nat
  end.

(* the increments of [k] that the threads still have to store *)
Definition incs_left (k : string) (ths : list thread) : nat :=
  sum_list_with (λ th, incs k (code th)) ths.

(* the instructions left to execute *)
Definition remaining (st : state) : nat :=
  sum_list_with (λ th, length (code th)) (threads st).

(* [m] is the wrapped map and [mu] its mutex *)
Record inv (total : string → nat) (st : state) (m : map_t) (mu : recursive_mutex.t) : Prop := {
  inv_obj : objs (sto st) !! gptr = Some m;
  inv_mtx : mtxs (sto st) !! gmtx = Some mu;
  inv_map : map_ok m;
  inv_threads : ∀ t th, threads st !! t = Some th → thread_ok m th;
  inv_held : ∀ t th, threads st !! t = Some th → held_ok t mu (length (temps th));
  inv_holder : ∀ o n, mu = recursive_mutex.Held o n → is_Some (threads st !! o);
  inv_count : ∀ k, counter k m + Z.of_nat (incs_left k (threads st)) = Z.of_nat (total k);
  inv_max : ∀ k, Z.of_nat (total k) ≤ INT_MAX
}.

Definition total (nthreads iterations : nat) (k : string) : nat :=
  (nthreads * incs k (func iterations))%nat.

(* the element of key [k] of the map that safe_map_strings_global wraps *)
Definition value_of (k : string) (σ : store map_t) : option (string * Z) :=
  m ← objs σ !! safe_ptr.ptr safe_map_strings_global; m !! k.

(* every thread has done all its increments *)
Definition increments_done (st : state) : Prop :=
  Forall (λ th, ∀ k, StoreInc k ∉ code th) (threads st).

(* two threads, three iterations each: they take turns, an instruction
   each, and whoever finds the mutex taken waits *)
Definition turns (fuel : nat) (st : state) : list nat * state :=
  Nat.iter fuel
    (λ acc : list nat * state,
       let t := (length acc.1 `mod` 2)%nat in
       match step t acc.2 with
       | Ret st' => (acc.1 ++ [t], st')
       | _ =>
           match step (1 - t) acc.2 with
           | Ret st' => (acc.1 ++ [(1 - t)%nat], st')
           | _ => acc
           end
       end)
    ([], st).

Definition small_schedule : list nat := Eval vm_compute in (turns 200 (test_safe_ptr_with 2 3)).1.


(** ** Definitions for the further properties *)

(* [me] can lock the mutex without waiting: it is free, or [me] holds it *)
Definition available (me : tid) (mu : recursive_mutex.t) : bool :=
  match mu with
  | recursive_mutex.Free => true
  | recursive_mutex.Held o _ => bool_decide (o = me)
  end.

(* [k] once thread [me] has got mutex [m]: undefined when there is no such
   mutex, blocked while another thread holds it *)
Definition guarded {T A} (me : tid) (m : loc) (σ : store T) (k : outcome A) : outcome A :=
  match mtxs σ !! m with
  | None => Fault
  | Some mu => if available me mu then k else Blocks
  end.

(* the two lines a proxy writes *)
Definition locked_line : out_item := OStr ("locked" +:+ nl).
Definition unlocked_line : out_item := OStr ("unlocked" +:+ nl).

(* what test_execute_around writes *)
Definition accumulate_lines (n : string) (res : Z) : list out_item :=
  [OStr (n +:+ ". execute_around::accumulate:res = "); OInt res; OEndl].

Definition test_execute_around_cout : list out_item :=
  [locked_line; locked_line; unlocked_line; unlocked_line] ++ accumulate_lines "1" 100 ++
  [locked_line; locked_line; unlocked_line; unlocked_line] ++ accumulate_lines "2" 100 ++
  [locked_line; locked_line; unlocked_line; unlocked_line] ++ accumulate_lines "3" 100 ++
  [locked_line; locked_line] ++ accumulate_lines "4" 100 ++ [unlocked_line; unlocked_line].

(* func(w) called by one thread, alone: the thread runs from its first
   instruction to its last *)
Definition call_func (iterations : nat) (w : safe_ptr.t) (σ : store map_t) : outcome state :=
  run (replicate (length (func iterations)) 0%nat) (State σ [spawn iterations w]).

(* the line func writes when the counts are [p] and [a] *)
Definition func_line (p a : Z) : list out_item :=
  [ OStr "potato is "; OStr "vegetable"; OStr " "; OInt p;
    OStr ", apple is "; OStr "fruit"; OStr " "; OInt a; OEndl ].

(* the instructions that lock the mutex *)
Definition acquires (i : instr) : bool :=
  match i with
  | Deref | Arrow | ArrowConst => true
  | _ => false
  end.

(* the instructions that write to the map *)
Definition writes (i : instr) : bool :=
  match i with
  | IndexSetFirst _ _ | StoreInc _ => true
  | _ => false
  end.

(* the lock member of an accessor temporary *)
Definition lock_of (x : temp) : unique_lock.t :=
  match x with
  | TObj a => safe_ptr.auto_lock_obj_t.lock a
  | TArrow a => safe_ptr.auto_lock_t.lock a
  | TConst a => safe_ptr.auto_lock_t.lock a
  end.

(* the same objects and the same mutexes exist in both stores *)
Definition same_shape {T} (σ σ' : store T) : Prop :=
  dom (objs σ') = dom (objs σ) ∧ dom (mtxs σ') = dom (mtxs σ).

(* where the two threads of [small_schedule] end *)
Definition small_final : state :=
  Eval vm_compute in
    match run small_schedule (test_safe_ptr_with 2 3) with
    | Ret st => st
    | _ => test_safe_ptr_with 2 3
    end.

(* the store with [c] written to std::cout before everything else *)
Definition shift {T} (c : list out_item) (σ : store T) : store T :=
  Store (objs σ) (mtxs σ) (c ++ cout σ).

Definition shift_state (c : list out_item) (st : state) : state :=
  State (shift c (sto st)) (threads st).

(* the end of func, from the first accessor of the output statement on:
   the thread holds the mutex until the last [Release] *)
Definition print_section : list instr :=
  [ ArrowConst; OutFirst "potato";
    OutStr " "; ArrowConst; OutSecond "potato";
    OutStr ", apple is "; ArrowConst; OutFirst "apple";
    OutStr " "; ArrowConst; OutSecond "apple";
    OutEndl;
    Release; Release; Release; Release ].

(* what a thread writes in [print_section] when both counts are [n] *)
Definition last_line (n : Z) : list out_item :=
  [ OStr "vegetable"; OStr " "; OInt n; OStr ", apple is "; OStr "fruit"; OStr " "; OInt n;
    OEndl ].

(* how many accessors a piece of code builds, and how many it destroys *)
Fixpoint built (c : list instr) : nat :=
  match c with
  | [] => 0
  | i :: c' => (if acquires i then 1 else 0) + built c'
  end.

Fixpoint destroyed (c : list instr) : nat :=
  match c with
  | [] => 0
  | Release :: c' => 1 + destroyed c'
  | _ :: c' => destroyed c'
  end.

(* thread [t] has the last [j] instructions of func left and every other
   thread has returned *)
Definition last_running (t : tid) (j : nat) (st : state) : Prop :=
  (∃ th, threads st !! t = Some th ∧ code th = drop (16 - j) print_section) ∧
  ∀ u th, u ≠ t → threads st !! u = Some th → code th = [].


(** * Lemmas *)

(** ** The mutex and the lock *)

Lemma lock_unlock me mu mu' :
  recursive_mutex.lock me mu = Ret mu' → recursive_mutex.unlock me mu' = Ret mu.
Proof.
  destruct mu as [|o n]; simpl.
  - intros [= <-]. simpl. by rewrite decide_True.
  - case_decide; [|done]. intros [= <-]. simpl. by rewrite decide_True.
Qed.

Lemma lock_owned me mu mu' :
  recursive_mutex.lock me mu = Ret mu' →
  recursive_mutex.owned_by me mu' = true ∧
  recursive_mutex.count mu' = S (recursive_mutex.count mu).
Proof.
  destruct mu as [|o n]; simpl.
  - intros [= <-]. simpl. by rewrite bool_decide_eq_true_2.
  - case_decide; [|done]. intros [= <-]. simpl. by rewrite bool_decide_eq_true_2.
Qed.

Lemma lock_free_or_owned me mu mu' :
  recursive_mutex.lock me mu = Ret mu' →
  mu = recursive_mutex.Free ∨ recursive_mutex.owned_by me mu = true.
Proof.
  destruct mu as [|o n]; simpl; [by left|].
  case_decide; [|done]. intros _. right. by apply bool_decide_eq_true_2.
Qed.

Lemma lock_held me mu mu' :
  recursive_mutex.lock me mu = Ret mu' → ∃ n, mu' = recursive_mutex.Held me n.
Proof.
  destruct mu as [|o n]; simpl.
  - intros [= <-]. eauto.
  - case_decide; [|done]. intros [= <-]. subst. eauto.
Qed.

Lemma lock_returns me mu :
  mu = recursive_mutex.Free ∨ recursive_mutex.owned_by me mu = true →
  ∃ mu', recursive_mutex.lock me mu = Ret mu'.
Proof.
  intros [->|H]; [by eexists|]. destruct mu as [|o n]; [done|].
  simpl in *. apply bool_decide_eq_true_1 in H. rewrite decide_True by done. by eexists.
Qed.

Lemma unique_lock_ctor_inv {T} me m (σ : store T) l σ' :
  unique_lock.ctor me m σ = Ret (l, σ') →
  l = unique_lock.mk (Some m) true ∧
  ∃ mu mu', mtxs σ !! m = Some mu ∧ recursive_mutex.lock me mu = Ret mu' ∧
            σ' = set_mtxs (insert m mu') σ.
Proof.
  unfold unique_lock.ctor. destruct (mtxs σ !! m) as [mu|]; [|done].
  destruct (recursive_mutex.lock me mu) as [mu'| |] eqn:E; [|done..].
  simpl. intros [= <- <-]. eauto 10.
Qed.

Lemma unique_lock_dtor_owning {T} me m (σ : store T) mu' mu :
  mtxs σ !! m = Some mu' → recursive_mutex.unlock me mu' = Ret mu →
  unique_lock.dtor me (unique_lock.mk (Some m) true) σ = Ret (set_mtxs (insert m mu) σ).
Proof. intros Hm Hu. unfold unique_lock.dtor. simpl. by rewrite Hm, Hu. Qed.

Global Instance proxy_laws : AccessorLaws execute_around.proxy.t.
Proof.
  split.
  - intros T me p m σ. simpl. unfold execute_around.proxy.ctor.
    destruct (unique_lock.ctor me m σ) as [[l σ1]| |]; simpl; eauto 10.
  - intros T me a σ. simpl. unfold execute_around.proxy.dtor, unique_lock.dtor.
    destruct (unique_lock.owns _); [|simpl; eauto].
    destruct (unique_lock.pm _) as [m|]; [|done]. simpl.
    destruct (mtxs σ !! m) as [mu|]; [|done].
    destruct (recursive_mutex.unlock me mu); simpl; eauto.
  - by intros [[pm owns] p].
Qed.

Global Instance auto_lock_t_laws : AccessorLaws (safe_ptr.auto_lock_t.t unique_lock.t).
Proof.
  split.
  - intros T me p m σ. simpl. unfold safe_ptr.auto_lock_t.ctor. simpl.
    destruct (unique_lock.ctor me m σ) as [[l σ1]| |]; simpl; eauto 10.
  - intros T me a σ. simpl. unfold safe_ptr.auto_lock_t.dtor. simpl.
    destruct (unique_lock.dtor me _ σ); simpl; eauto.
  - by intros [p [pm owns]].
Qed.

Global Instance auto_lock_obj_t_laws : AccessorLaws (safe_ptr.auto_lock_obj_t.t unique_lock.t).
Proof.
  split.
  - intros T me p m σ. simpl. unfold safe_ptr.auto_lock_obj_t.ctor. simpl.
    destruct (unique_lock.ctor me m σ) as [[l σ1]| |]; simpl; eauto 10.
  - intros T me a σ. simpl. unfold safe_ptr.auto_lock_obj_t.dtor. simpl.
    destruct (unique_lock.dtor me _ σ); simpl; eauto.
  - by intros [p [pm owns]].
Qed.

Section accessor_laws.
Context {A : Type} `{!Accessor A} `{!AccessorLaws A}.

Lemma acc_ctor_inv {T} me p m (σ σ' : store T) (a : A) :
  acc_ctor me p m σ = Ret (a, σ') →
  acc_lock a = unique_lock.mk (Some m) true ∧ acc_ptr a = p ∧
  ∃ mu mu', mtxs σ !! m = Some mu ∧ recursive_mutex.lock me mu = Ret mu' ∧
            mtxs σ' = <[m := mu']> (mtxs σ) ∧ objs σ' = objs σ.
Proof.
  intros Hc. pose proof (law_ctor T me p m σ) as H.
  destruct (unique_lock.ctor me m σ) as [[l σ1]| |] eqn:E.
  - destruct H as (a' & σ1' & Ha & Hl & Hp & Ho & Hm). rewrite Hc in Ha. injection Ha as <- <-.
    apply unique_lock_ctor_inv in E as (-> & mu & mu' & Hmu & Hlock & ->).
    split_and!; [done..|]. exists mu, mu'. by rewrite Ho, Hm.
  - congruence.
  - congruence.
Qed.

Lemma acc_ctor_returns {T} me p m (σ : store T) mu mu' :
  mtxs σ !! m = Some mu → recursive_mutex.lock me mu = Ret mu' →
  ∃ (a : A) σ', acc_ctor me p m σ = Ret (a, σ').
Proof.
  intros Hmu Hlock. pose proof (law_ctor T me p m σ) as H.
  unfold unique_lock.ctor in H. rewrite Hmu, Hlock in H. simpl in H.
  destruct H as (a & σ' & ? & _). eauto.
Qed.

Lemma acc_ctor_blocks {T} me p m (σ : store T) o n :
  mtxs σ !! m = Some (recursive_mutex.Held o n) → o ≠ me →
  acc_ctor (A := A) me p m σ = Blocks.
Proof.
  intros Hmu Hne. pose proof (law_ctor T me p m σ) as H.
  unfold unique_lock.ctor in H. rewrite Hmu in H. simpl in H.
  by rewrite decide_False in H.
Qed.

Lemma acc_dtor_owning {T} me (a : A) m (σ : store T) mu' mu :
  acc_lock a = unique_lock.mk (Some m) true →
  mtxs σ !! m = Some mu' → recursive_mutex.unlock me mu' = Ret mu →
  ∃ σ', acc_dtor me a σ = Ret σ' ∧ mtxs σ' = <[m := mu]> (mtxs σ) ∧ objs σ' = objs σ.
Proof.
  intros Hl Hm Hu. pose proof (law_dtor T me a σ) as H.
  rewrite Hl, (unique_lock_dtor_owning _ _ _ _ _ Hm Hu) in H.
  destruct H as (σ' & ? & ? & ?). eauto.
Qed.

Lemma acc_dtor_moved_from {T} me (a : A) (σ : store T) :
  unique_lock.owns (acc_lock a) = false →
  ∃ σ', acc_dtor me a σ = Ret σ' ∧ mtxs σ' = mtxs σ ∧ objs σ' = objs σ.
Proof.
  intros Hl. pose proof (law_dtor T me a σ) as H.
  unfold unique_lock.dtor in H. rewrite Hl in H.
  destruct H as (σ' & ? & ? & ?). eauto.
Qed.

Lemma acc_move_new (a : A) : acc_lock (acc_move a).1 = acc_lock a.
Proof. rewrite (proj1 (law_move a)). by destruct (acc_lock a). Qed.

Lemma acc_move_old (a : A) : acc_lock (acc_move a).2 = unique_lock.mk None false.
Proof. by rewrite (proj2 (law_move a)). Qed.

Lemma lock_count_same {T} m (σ σ' : store T) :
  mtxs σ' = mtxs σ → lock_count m σ' = lock_count m σ.
Proof. unfold lock_count. by intros ->. Qed.

Lemma trace_used {T} me m es (a : A) (σ : store T) es2 :
  Forall (λ e, e = Used) es →
  trace me m (es ++ es2) (Some a) σ =
  t ← trace me m es2 (Some a) σ;
  Ret (replicate (length es) (acc_state a, lock_count m σ) ++ t).
Proof.
  induction 1 as [|e es -> _ IH]; cbn [app length replicate].
  - by destruct (trace me m es2 (Some a) σ).
  - cbn [trace after_event mbind outcome_bind]. rewrite IH.
    by destruct (trace me m es2 (Some a) σ).
Qed.

Lemma trace_unlocked {T} me m es (a : A) (σ : store T) t :
  acc_state a = unlocked → trace me m es (Some a) σ = Ret t →
  Forall (λ s, s = (unlocked, lock_count m σ)) t.
Proof.
  revert a σ t. induction es as [|e es IH]; intros a σ t Ha; cbn [trace].
  - intros [= <-]. constructor.
  - assert (unique_lock.owns (acc_lock a) = false) as Hown.
    { unfold acc_state in Ha. by destruct (unique_lock.owns (acc_lock a)). }
    destruct e; cbn [after_event mbind outcome_bind].
    + destruct (trace me m es (Some a) σ) as [t'| |] eqn:Ht; [|done..].
      cbn [mbind outcome_bind state_of]. intros [= <-]. rewrite Ha.
      constructor; [done|]. by eapply IH.
    + destruct (trace me m es (Some (acc_move a).2) σ) as [t'| |] eqn:Ht; [|done..].
      cbn [mbind outcome_bind state_of]. intros [= <-].
      assert (acc_state (acc_move a).2 = unlocked) as Ha'.
      { unfold acc_state. by rewrite acc_move_old. }
      rewrite Ha'. constructor; [done|]. by eapply IH.
    + destruct (acc_dtor_moved_from me a σ Hown) as (σ1 & -> & Hm & _).
      cbn [mbind outcome_bind]. destruct es as [|e es']; cbn [trace]; [|done].
      cbn [mbind outcome_bind state_of]. intros [= <-].
      rewrite (lock_count_same _ _ _ Hm). by repeat constructor.
Qed.

Lemma trace_unlocked_returns {T} me m es (a : A) (σ : store T) :
  acc_state a = unlocked → Destroyed ∉ es →
  trace me m es (Some a) σ = Ret (replicate (length es) (unlocked, lock_count m σ)) ∧
  trace me m (es ++ [Destroyed]) (Some a) σ =
    Ret (replicate (S (length es)) (unlocked, lock_count m σ)).
Proof.
  revert a. induction es as [|e es IH]; intros a Ha Hes.
  - assert (unique_lock.owns (acc_lock a) = false) as Hown.
    { unfold acc_state in Ha. by destruct (unique_lock.owns (acc_lock a)). }
    split; [done|]. cbn [app trace after_event].
    destruct (acc_dtor_moved_from me a σ Hown) as (σ1 & -> & Hm & _).
    cbn [mbind outcome_bind state_of length replicate].
    by rewrite (lock_count_same _ _ _ Hm).
  - apply not_elem_of_cons in Hes as [He Hes].
    destruct e; [| |done]; cbn [app trace after_event mbind outcome_bind length replicate].
    + destruct (IH a Ha Hes) as [-> ->]. cbn [mbind outcome_bind state_of]. by rewrite Ha.
    + assert (acc_state (acc_move a).2 = unlocked) as Ha'.
      { unfold acc_state. by rewrite acc_move_old. }
      destruct (IH _ Ha' Hes) as [-> ->]. cbn [mbind outcome_bind state_of]. by rewrite Ha'.
Qed.

Lemma accessor_life : locked_until_moved_or_destroyed A.
Proof.
  split_and!.
  - intros T me p m σ σ' a Hc.
    apply acc_ctor_inv in Hc as (Hl & _ & mu & mu' & Hmu & Hlock & Hm & _).
    pose proof (lock_owned _ _ _ Hlock) as [Hown Hcount].
    split_and!; [unfold acc_state; by rewrite Hl| |].
    + exists mu'. by rewrite Hm, lookup_insert_eq.
    + unfold lock_count. by rewrite Hm, lookup_insert_eq, Hmu.
  - intros *. apply acc_ctor_blocks.
  - intros a. unfold acc_state. by rewrite acc_move_new, acc_move_old.
  - intros T me p m σ σ1 a es1 Hc Hes.
    apply acc_ctor_inv in Hc as (Hl & _ & mu & mu' & Hmu & Hlock & Hm & Ho).
    pose proof (lock_owned _ _ _ Hlock) as [_ Hcount].
    assert (acc_state a = locked) as Ha by (unfold acc_state; by rewrite Hl).
    assert (lock_count m σ1 = S (lock_count m σ)) as Hc1.
    { unfold lock_count. by rewrite Hm, lookup_insert_eq, Hmu. }
    destruct (acc_dtor_owning me a m σ1 mu' mu Hl) as (σ2 & Hd & Hm2 & Ho2).
    { by rewrite Hm, lookup_insert_eq. }
    { by eapply lock_unlock. }
    assert (mtxs σ2 = mtxs σ) as Hback.
    { rewrite Hm2, Hm, insert_insert_eq. by apply insert_id. }
    assert (acc_state (acc_move a).2 = unlocked) as Ha'.
    { unfold acc_state. by rewrite acc_move_old. }
    split_and!.
    + rewrite <- (app_nil_r es1) at 1. rewrite trace_used by done.
      cbn [trace mbind outcome_bind]. by rewrite app_nil_r, Ha, Hc1.
    + rewrite trace_used by done. cbn [trace after_event]. rewrite Hd.
      cbn [mbind outcome_bind state_of]. by rewrite Ha, Hc1, (lock_count_same _ _ _ Hback).
    + exists σ2. split_and!; [done..|]. by rewrite Ho2.
    + destruct (acc_dtor_owning me (acc_move a).1 m σ1 mu' mu) as (σ3 & Hd3 & Hm3 & Ho3).
      { by rewrite acc_move_new. }
      { by rewrite Hm, lookup_insert_eq. }
      { by eapply lock_unlock. }
      exists σ3. split_and!; [done| |by rewrite Ho3].
      rewrite Hm3, Hm, insert_insert_eq. by apply insert_id.
    + intros es2 Hes2.
      destruct (trace_unlocked_returns me m es2 (acc_move a).2 σ1 Ha' Hes2) as [Ht1 Ht2].
      split.
      * rewrite trace_used by done. cbn [trace after_event mbind outcome_bind].
        rewrite Ht1. cbn [mbind outcome_bind state_of replicate]. by rewrite Ha, Ha', Hc1.
      * rewrite trace_used by done. cbn [trace after_event mbind outcome_bind].
        rewrite Ht2. cbn [mbind outcome_bind state_of replicate]. by rewrite Ha, Ha', Hc1.
  - intros *. apply trace_unlocked.
Qed.

Lemma lock_count_insert {T} m mu (σ σ' : store T) :
  mtxs σ' = <[m := mu]> (mtxs σ) → lock_count m σ' = recursive_mutex.count mu.
Proof. unfold lock_count. intros ->. by rewrite lookup_insert_eq. Qed.

Lemma accessor_move : move_transfers_lock A.
Proof.
  intros T me p m σ σ1 a Hc.
  apply acc_ctor_inv in Hc as (Hl & _ & mu & mu' & Hmu & Hlock & Hm & Ho).
  pose proof (lock_unlock _ _ _ Hlock) as Hunlock.
  pose proof (lock_owned _ _ _ Hlock) as [_ Hcount].
  unfold acc_state. rewrite acc_move_new, acc_move_old, Hl. simpl.
  split_and!; [done..| |].
  { rewrite (lock_count_insert _ _ _ _ Hm). unfold lock_count. by rewrite Hmu. }
  destruct (acc_dtor_moved_from me (acc_move a).2 σ1) as (σ2 & Hd2 & Hm2 & Ho2).
  { by rewrite acc_move_old. }
  destruct (acc_dtor_owning me (acc_move a).1 m σ2 mu' mu) as (σ3 & Hd3 & Hm3 & Ho3).
  { by rewrite acc_move_new. }
  { by rewrite Hm2, Hm, lookup_insert_eq. }
  { done. }
  assert (mtxs σ3 = mtxs σ) as Hback.
  { rewrite Hm3, Hm2, Hm, insert_insert_eq. by apply insert_id. }
  exists σ2, σ3. split_and!; try done. unfold lock_count. by rewrite Hback.
Qed.

Lemma release_all_app {T} me (l1 l2 : list A) (σ : store T) :
  release_all me (l1 ++ l2) σ = (σ1 ← release_all me l1 σ; release_all me l2 σ1).
Proof.
  revert σ. induction l1 as [|a l1 IH]; intros σ; simpl; [done|].
  destruct (acc_dtor me a σ); simpl; auto.
Qed.

Lemma accessor_reentrant : reentrant A.
Proof.
  intros T n. induction n as [|n IH]; intros me p m σ mu Hmu Hfree.
  - exists [], σ, σ. simpl. split_and!; first [done|lia].
  - destruct (lock_returns me mu Hfree) as [mu' Hlock].
    destruct (acc_ctor_returns me p m σ mu mu' Hmu Hlock) as (a & σ1 & Hc).
    pose proof Hc as Hc'.
    apply acc_ctor_inv in Hc' as (Hl & _ & mu0 & mu0' & Hmu0 & Hlock0 & Hm1 & Ho1).
    rewrite Hmu in Hmu0. injection Hmu0 as <-. rewrite Hlock in Hlock0. injection Hlock0 as <-.
    pose proof (lock_owned _ _ _ Hlock) as [Hown Hcount].
    destruct (IH me p m σ1 mu') as (l & σn & σ' & Hacq & Hlen & Hall & Hcnt & Hon & Hrel & Hm' & Ho').
    { by rewrite Hm1, lookup_insert_eq. }
    { by right. }
    destruct (acc_dtor_owning me a m σ' mu' mu Hl) as (σ'' & Hd & Hm'' & Ho'').
    { by rewrite Hm', Hm1, lookup_insert_eq. }
    { by eapply lock_unlock. }
    exists (l ++ [a]), σn, σ''. cbn [acquire_nested]. rewrite Hc. simpl. rewrite Hacq. simpl.
    split_and!.
    + done.
    + rewrite length_app. simpl. lia.
    + apply Forall_app. split; [done|]. constructor; [|done]. unfold acc_state. by rewrite Hl.
    + rewrite Hcnt, (lock_count_insert _ _ _ _ Hm1). unfold lock_count. rewrite Hmu. simpl. lia.
    + by rewrite Hon.
    + rewrite release_all_app, Hrel. simpl. by rewrite Hd.
    + rewrite Hm'', Hm', Hm1, insert_insert_eq. by apply insert_id.
    + by rewrite Ho'', Ho'.
Qed.
End accessor_laws.

(** ** Calls through an accessor temporary *)

Section accessor_calls.
Context {A : Type} `{!Accessor A} `{!AccessorLaws A} {T R : Type}.

Lemma acc_call_const_inv me p m (f : T → R) (σ : store T) r σ' :
  acc_call_const (A := A) me p m f σ = Ret (r, σ') →
  objs σ' = objs σ ∧ mtxs σ' = mtxs σ ∧ ∃ v, objs σ !! p = Some v ∧ r = f v.
Proof.
  unfold acc_call_const.
  destruct (acc_ctor me p m σ) as [[a σ1]| |] eqn:Hc; [|done..]. simpl.
  apply acc_ctor_inv in Hc as (Hl & Hp & mu & mu' & Hmu & Hlock & Hm & Ho).
  unfold call_const. rewrite Hp, Ho.
  destruct (objs σ !! p) as [v|]; [|done]. simpl.
  destruct (acc_dtor_owning me a m σ1 mu' mu Hl) as (σ2 & Hd & Hm2 & Ho2).
  { by rewrite Hm, lookup_insert_eq. }
  { by eapply lock_unlock. }
  rewrite Hd. simpl. intros [= <- <-]. split_and!.
  - by rewrite Ho2.
  - rewrite Hm2, Hm, insert_insert_eq. by apply insert_id.
  - eauto.
Qed.

Lemma acc_call_const_returns me p m (f : T → R) (σ : store T) v mu :
  objs σ !! p = Some v → mtxs σ !! m = Some mu →
  mu = recursive_mutex.Free ∨ recursive_mutex.owned_by me mu = true →
  ∃ σ', acc_call_const (A := A) me p m f σ = Ret (f v, σ').
Proof.
  intros Hv Hmu Hfree. unfold acc_call_const.
  destruct (lock_returns me mu Hfree) as [mu' Hlock].
  destruct (acc_ctor_returns me p m σ mu mu' Hmu Hlock) as (a & σ1 & Hc). rewrite Hc. simpl.
  apply acc_ctor_inv in Hc as (Hl & Hp & mu0 & mu0' & Hmu0 & Hlock0 & Hm & Ho).
  rewrite Hmu in Hmu0. injection Hmu0 as <-. rewrite Hlock in Hlock0. injection Hlock0 as <-.
  unfold call_const. rewrite Hp, Ho, Hv. simpl.
  destruct (acc_dtor_owning me a m σ1 mu' mu Hl) as (σ2 & Hd & _).
  { by rewrite Hm, lookup_insert_eq. }
  { by eapply lock_unlock. }
  rewrite Hd. simpl. eauto.
Qed.

Lemma acc_call_inv me p m (f : T → T * R) (σ : store T) r σ' :
  acc_call (A := A) me p m f σ = Ret (r, σ') →
  ∃ v mu, objs σ !! p = Some v ∧ r = (f v).2 ∧
       objs σ' = <[p := (f v).1]> (objs σ) ∧ mtxs σ' = mtxs σ ∧
       mtxs σ !! m = Some mu ∧
       (mu = recursive_mutex.Free ∨ recursive_mutex.owned_by me mu = true).
Proof.
  unfold acc_call.
  destruct (acc_ctor me p m σ) as [[a σ1]| |] eqn:Hc; [|done..]. simpl.
  apply acc_ctor_inv in Hc as (Hl & Hp & mu & mu' & Hmu & Hlock & Hm & Ho).
  unfold call. rewrite Hp, Ho.
  destruct (objs σ !! p) as [v|]; [|done]. destruct (f v) as [v' r'] eqn:Hf. simpl.
  destruct (acc_dtor_owning me a m (set_objs (insert p v') σ1) mu' mu Hl) as (σ3 & Hd & Hm3 & Ho3).
  { simpl. by rewrite Hm, lookup_insert_eq. }
  { by eapply lock_unlock. }
  rewrite Hd. simpl. intros [= <- <-]. exists v, mu. rewrite Hf. simpl. split_and!; try done.
  - rewrite Ho3. simpl. by rewrite Ho.
  - rewrite Hm3. simpl. rewrite Hm, insert_insert_eq. by apply insert_id.
  - by eapply lock_free_or_owned.
Qed.

Lemma acc_call_returns me p m (f : T → T * R) (σ : store T) v mu :
  objs σ !! p = Some v → mtxs σ !! m = Some mu →
  mu = recursive_mutex.Free ∨ recursive_mutex.owned_by me mu = true →
  ∃ σ', acc_call (A := A) me p m f σ = Ret ((f v).2, σ').
Proof.
  intros Hv Hmu Hfree. unfold acc_call.
  destruct (lock_returns me mu Hfree) as [mu' Hlock].
  destruct (acc_ctor_returns me p m σ mu mu' Hmu Hlock) as (a & σ1 & Hc). rewrite Hc. simpl.
  apply acc_ctor_inv in Hc as (Hl & Hp & mu0 & mu0' & Hmu0 & Hlock0 & Hm & Ho).
  rewrite Hmu in Hmu0. injection Hmu0 as <-. rewrite Hlock in Hlock0. injection Hlock0 as <-.
  unfold call. rewrite Hp, Ho, Hv. destruct (f v) as [v' r'] eqn:Hf. simpl.
  destruct (acc_dtor_owning me a m (set_objs (insert p v') σ1) mu' mu Hl) as (σ3 & Hd & _).
  { simpl. by rewrite Hm, lookup_insert_eq. }
  { by eapply lock_unlock. }
  rewrite Hd. simpl. eauto.
Qed.
End accessor_calls.

Lemma safe_ptr_call_acc {T R} me w (f : T → T * R) σ :
  safe_ptr_call me w f σ =
  acc_call (A := safe_ptr.auto_lock_t.t unique_lock.t) me (safe_ptr.ptr w) (safe_ptr.mtx_ptr w) f σ.
Proof. reflexivity. Qed.

Lemma safe_ptr_call_const_acc {T R} me w (f : T → R) σ :
  safe_ptr_call_const me w f σ =
  acc_call_const (A := safe_ptr.auto_lock_t.t unique_lock.t) me
    (safe_ptr.ptr w) (safe_ptr.mtx_ptr w) f σ.
Proof. reflexivity. Qed.

Lemma execute_around_call_acc {T R} me w (f : T → T * R) σ :
  execute_around_call me w f σ =
  acc_call (A := execute_around.proxy.t) me (execute_around.p w) (execute_around.mtx w) f σ.
Proof. reflexivity. Qed.

Lemma execute_around_call_const_acc {T R} me w (f : T → R) σ :
  execute_around_call_const me w f σ =
  acc_call_const (A := execute_around.proxy.t) me
    (execute_around.p w) (execute_around.mtx w) f σ.
Proof. reflexivity. Qed.

Lemma const_call_inv {T R} me h (f : T → R) σ r σ' :
  const_call me h f σ = Ret (r, σ') →
  objs σ' = objs σ ∧ mtxs σ' = mtxs σ ∧ ∃ v, objs σ !! target h = Some v ∧ r = f v.
Proof.
  destruct h as [w|w]; simpl.
  - rewrite safe_ptr_call_const_acc. apply acc_call_const_inv.
  - rewrite execute_around_call_const_acc. apply acc_call_const_inv.
Qed.

Lemma const_call_returns {T R} me h (f : T → R) σ v :
  objs σ !! target h = Some v → mtxs σ !! guard h = Some recursive_mutex.Free →
  ∃ σ', const_call me h f σ = Ret (f v, σ').
Proof.
  intros Hv Hm. destruct h as [w|w]; simpl in *.
  - rewrite safe_ptr_call_const_acc. eapply acc_call_const_returns; eauto.
  - rewrite execute_around_call_const_acc. eapply acc_call_const_returns; eauto.
Qed.

Lemma const_calls_inv {T R} (l : list (tid * const_handle * (T → R))) σ rs σ' :
  const_calls l σ = Ret (rs, σ') →
  objs σ' = objs σ ∧ mtxs σ' = mtxs σ ∧ Some <$> rs = read_in σ <$> l.
Proof.
  revert σ rs. induction l as [|[[me h] f] l IH]; intros σ rs; simpl.
  - by intros [= <- <-].
  - destruct (const_call me h f σ) as [[r σ1]| |] eqn:Hc; [|done..]. simpl.
    destruct (const_calls l σ1) as [[rs' σ2]| |] eqn:Hcs; [|done..]. simpl.
    intros [= <- <-].
    apply const_call_inv in Hc as (Ho & Hm & v & Hv & ->).
    apply IH in Hcs as (Ho' & Hm' & Hrs).
    split_and!; [congruence|congruence|]. rewrite !fmap_cons. f_equal.
    + unfold read_in. simpl. by rewrite Hv.
    + rewrite Hrs. apply list_fmap_ext. intros i c _. unfold read_in. by rewrite Ho.
Qed.

Lemma const_calls_returns {T R} (l : list (tid * const_handle * (T → R))) σ :
  ready l σ → ∃ rs σ', const_calls l σ = Ret (rs, σ').
Proof.
  revert σ. induction l as [|[[me h] f] l IH]; intros σ Hr; simpl; [eauto|].
  apply Forall_cons_1 in Hr as [[[v Hv] Hm] Hr]. simpl in Hv, Hm.
  destruct (const_call_returns me h f σ v Hv Hm) as (σ1 & Hc). rewrite Hc. simpl.
  pose proof Hc as Hc'. apply const_call_inv in Hc' as (Ho & Hm' & _).
  destruct (IH σ1) as (rs & σ' & Hcs).
  { unfold ready in *. eapply Forall_impl; [|exact Hr]. intros c. by rewrite Ho, Hm'. }
  rewrite Hcs. simpl. eauto.
Qed.

(** ** Construction *)

Section construction.
Context {T Args exn : Type} (T_ctor : Args → exn + T).

Lemma fresh_objs (σ : store T) : objs σ !! fresh (dom (objs σ)) = None.
Proof. apply not_elem_of_dom, is_fresh. Qed.

Lemma fresh_mtxs (σ : store T) : mtxs σ !! fresh (dom (mtxs σ)) = None.
Proof. apply not_elem_of_dom, is_fresh. Qed.

Lemma safe_ptr_ctor_throws args σ e :
  T_ctor args = inl e → safe_ptr.ctor T_ctor args σ = (inl e, σ).
Proof. intros H. unfold safe_ptr.ctor, make_shared. by rewrite H. Qed.

Lemma safe_ptr_ctor_builds args σ v :
  T_ctor args = inr v →
  ∃ w σ', safe_ptr.ctor T_ctor args σ = (inr w, σ') ∧
    objs σ !! safe_ptr.ptr w = None ∧ mtxs σ !! safe_ptr.mtx_ptr w = None ∧
    objs σ' = <[safe_ptr.ptr w := v]> (objs σ) ∧
    mtxs σ' = <[safe_ptr.mtx_ptr w := recursive_mutex.Free]> (mtxs σ) ∧
    cout σ' = cout σ.
Proof.
  intros H. unfold safe_ptr.ctor, make_shared, make_shared_mutex. rewrite H. simpl.
  eexists _, _. split; [done|]. simpl. split_and!; try done.
  - apply fresh_objs.
  - apply fresh_mtxs.
Qed.

Lemma execute_around_ctor_throws args σ e :
  T_ctor args = inl e → execute_around.ctor T_ctor args σ = (inl e, σ).
Proof.
  intros H. unfold execute_around.ctor, make_shared, make_shared_mutex. rewrite H. simpl.
  f_equal. destruct σ as [os ms co]. unfold delete_mutex, set_mtxs. simpl. f_equal.
  rewrite delete_insert_eq. apply delete_id. apply (fresh_mtxs (Store os ms co)).
Qed.

Lemma execute_around_ctor_builds args σ v :
  T_ctor args = inr v →
  ∃ w σ', execute_around.ctor T_ctor args σ = (inr w, σ') ∧
    objs σ !! execute_around.p w = None ∧ mtxs σ !! execute_around.mtx w = None ∧
    objs σ' = <[execute_around.p w := v]> (objs σ) ∧
    mtxs σ' = <[execute_around.mtx w := recursive_mutex.Free]> (mtxs σ) ∧
    cout σ' = cout σ.
Proof.
  intros H. unfold execute_around.ctor, make_shared, make_shared_mutex. rewrite H. simpl.
  eexists _, _. split; [done|]. simpl. split_and!; try done.
  - apply fresh_objs.
  - apply fresh_mtxs.
Qed.
End construction.

(** ** test_safe_ptr: one step of one thread *)

Lemma int_wrap_small z : - 2 ^ 31 ≤ z ≤ INT_MAX → int_wrap z = z.
Proof.
  unfold int_wrap, INT_MAX. intros ?.
  rewrite Z.mod_small; lia.
Qed.

Lemma lock_mutex_for me d :
  recursive_mutex.lock me (mutex_for me d) = Ret (mutex_for me (S d)).
Proof. destruct d; simpl; [done|]. by rewrite decide_True. Qed.

Lemma unlock_mutex_for me d :
  recursive_mutex.unlock me (mutex_for me (S d)) = Ret (mutex_for me d).
Proof. simpl. rewrite decide_True by done. by destruct d. Qed.

Lemma lock_other me o n :
  o ≠ me → recursive_mutex.lock me (recursive_mutex.Held o n) = Blocks.
Proof. intros. simpl. by rewrite decide_False. Qed.

Lemma incs_app k c1 c2 : incs k (c1 ++ c2) = (incs k c1 + incs k c2)%nat.
Proof.
  induction c1 as [|i c1 IH]; [done|].
  destruct i; simpl; rewrite ?IH; lia.
Qed.

Lemma wf_pending_stack s ks k ro c : wf s ks (Some k) ro c → s ≠ [].
Proof. by inversion 1. Qed.

Lemma wf_stack_code s ks pend ro c : wf s ks pend ro c → c = [] → s = [] ∧ pend = None.
Proof. intros Hwf ->. by inversion Hwf. Qed.

Lemma counter_insert k k' f z (m : map_t) :
  counter k (<[k' := (f, z)]> m) = if decide (k' = k) then z else counter k m.
Proof.
  unfold counter. rewrite lookup_insert. by destruct (decide (k' = k)).
Qed.

(** What the operations of the wrapper do to the store. *)
Section wrapper_equations.
Context {T : Type} (me : tid) (w : safe_ptr.t) (σ : store T) (mu : recursive_mutex.t).
Context (Hmu : mtxs σ !! safe_ptr.mtx_ptr w = Some mu).

Lemma unique_lock_ctor_eq :
  unique_lock.ctor me (safe_ptr.mtx_ptr w) σ =
  mu' ← recursive_mutex.lock me mu;
  Ret (owning_lock w, set_mtxs (insert (safe_ptr.mtx_ptr w) mu') σ).
Proof. unfold unique_lock.ctor. by rewrite Hmu. Qed.

Lemma unique_lock_dtor_eq :
  unique_lock.dtor me (owning_lock w) σ =
  mu' ← recursive_mutex.unlock me mu;
  Ret (set_mtxs (insert (safe_ptr.mtx_ptr w) mu') σ).
Proof. unfold unique_lock.dtor, owning_lock. simpl. by rewrite Hmu. Qed.

Lemma safe_ptr_arrow_eq :
  safe_ptr.arrow me w σ =
  mu' ← recursive_mutex.lock me mu;
  Ret (safe_ptr.auto_lock_t.mk (safe_ptr.ptr w) (owning_lock w),
       set_mtxs (insert (safe_ptr.mtx_ptr w) mu') σ).
Proof.
  unfold safe_ptr.arrow, safe_ptr.auto_lock_t.ctor. cbn [lk_ctor unique_lock_lockable].
  rewrite unique_lock_ctor_eq. by destruct (recursive_mutex.lock me mu).
Qed.

Lemma safe_ptr_arrow_const_eq :
  safe_ptr.arrow_const me w σ =
  mu' ← recursive_mutex.lock me mu;
  Ret (safe_ptr.auto_lock_t.mk (safe_ptr.ptr w) (owning_lock w),
       set_mtxs (insert (safe_ptr.mtx_ptr w) mu') σ).
Proof.
  unfold safe_ptr.arrow_const, safe_ptr.auto_lock_t.ctor. cbn [lk_ctor unique_lock_lockable].
  rewrite unique_lock_ctor_eq. by destruct (recursive_mutex.lock me mu).
Qed.

Lemma safe_ptr_deref_eq :
  safe_ptr.deref me w σ =
  mu' ← recursive_mutex.lock me mu;
  Ret (safe_ptr.auto_lock_obj_t.mk (safe_ptr.ptr w) (owning_lock w),
       set_mtxs (insert (safe_ptr.mtx_ptr w) mu') σ).
Proof.
  unfold safe_ptr.deref, safe_ptr.auto_lock_obj_t.ctor. cbn [lk_ctor unique_lock_lockable].
  rewrite unique_lock_ctor_eq. by destruct (recursive_mutex.lock me mu).
Qed.

Lemma auto_lock_t_dtor_eq p :
  safe_ptr.auto_lock_t.dtor me (safe_ptr.auto_lock_t.mk p (owning_lock w)) σ =
  mu' ← recursive_mutex.unlock me mu;
  Ret (set_mtxs (insert (safe_ptr.mtx_ptr w) mu') σ).
Proof. apply unique_lock_dtor_eq. Qed.

Lemma auto_lock_obj_t_dtor_eq p :
  safe_ptr.auto_lock_obj_t.dtor me (safe_ptr.auto_lock_obj_t.mk p (owning_lock w)) σ =
  mu' ← recursive_mutex.unlock me mu;
  Ret (set_mtxs (insert (safe_ptr.mtx_ptr w) mu') σ).
Proof. apply unique_lock_dtor_eq. Qed.
End wrapper_equations.

Section global_equations.
Context (me : tid) (σ : store map_t) (mu : recursive_mutex.t).
Context (Hmu : mtxs σ !! gmtx = Some mu).

Lemma deref_global :
  safe_ptr.deref me safe_map_strings_global σ =
  mu' ← recursive_mutex.lock me mu;
  Ret (safe_ptr.auto_lock_obj_t.mk gptr the_lock, set_mtxs (insert gmtx mu') σ).
Proof. exact (safe_ptr_deref_eq me safe_map_strings_global σ mu Hmu). Qed.

Lemma arrow_global :
  safe_ptr.arrow me safe_map_strings_global σ =
  mu' ← recursive_mutex.lock me mu;
  Ret (safe_ptr.auto_lock_t.mk gptr the_lock, set_mtxs (insert gmtx mu') σ).
Proof. exact (safe_ptr_arrow_eq me safe_map_strings_global σ mu Hmu). Qed.

Lemma arrow_const_global :
  safe_ptr.arrow_const me safe_map_strings_global σ =
  mu' ← recursive_mutex.lock me mu;
  Ret (safe_ptr.auto_lock_t.mk gptr the_lock, set_mtxs (insert gmtx mu') σ).
Proof. exact (safe_ptr_arrow_const_eq me safe_map_strings_global σ mu Hmu). Qed.

Lemma auto_lock_t_dtor_global :
  safe_ptr.auto_lock_t.dtor me (safe_ptr.auto_lock_t.mk gptr the_lock) σ =
  mu' ← recursive_mutex.unlock me mu;
  Ret (set_mtxs (insert gmtx mu') σ).
Proof. exact (auto_lock_t_dtor_eq me safe_map_strings_global σ mu Hmu gptr). Qed.

Lemma auto_lock_obj_t_dtor_global :
  safe_ptr.auto_lock_obj_t.dtor me (safe_ptr.auto_lock_obj_t.mk gptr the_lock) σ =
  mu' ← recursive_mutex.unlock me mu;
  Ret (set_mtxs (insert gmtx mu') σ).
Proof. exact (auto_lock_obj_t_dtor_eq me safe_map_strings_global σ mu Hmu gptr). Qed.
End global_equations.

Lemma map_subscript_lookup k (m : map_t) :
  map_subscript k m !! k = Some (default (EmptyString, 0) (m !! k)).
Proof.
  unfold map_subscript. destruct (m !! k) eqn:E; simpl; [done|].
  by rewrite lookup_insert_eq.
Qed.

Lemma insert_map_subscript k v (m : map_t) :
  <[k := v]> (map_subscript k m) = <[k := v]> m.
Proof.
  unfold map_subscript. destruct (m !! k); [done|]. by rewrite insert_insert_eq.
Qed.

Section thread_steps.
Context (me : tid) (σ : store map_t) (m : map_t) (mu : recursive_mutex.t).
Context (Hm : objs σ !! gptr = Some m) (Hmu : mtxs σ !! gmtx = Some mu).
Context (Hmap : map_ok m).

Ltac exec_cbn :=
  cbn [exec set_code set_temps set_reg set_readonly temps code reg
       safe_map_strings readonly_safe_map_string
       top_obj top_arrow top_const destroy mbind outcome_bind
       safe_ptr.auto_lock_t.arrow safe_ptr.auto_lock_t.arrow_const
       safe_ptr.auto_lock_t.ptr safe_ptr.auto_lock_obj_t.ptr
       objs mtxs cout set_objs set_mtxs print length].

Ltac post_easy :=
  first [ done | by rewrite lookup_insert_eq | by (intros; simpl; lia) ].

Ltac post_out_easy :=
  let Hin := fresh "Hin" in
  intros ?; rewrite ?drop_all, ?drop_app_length; intros Hin;
  repeat (apply elem_of_cons in Hin as [Hin|Hin]; [discriminate Hin|]);
  by apply elem_of_nil in Hin.

Lemma exec_owner th i c :
  thread_ok m th → code th = i :: c →
  (∀ k, counter k m + Z.of_nat (incs k (code th)) ≤ INT_MAX) →
  mu = mutex_for me (length (temps th)) →
  ∃ th' σ' m',
    exec me i (set_code c th) σ = Ret (th', σ') ∧
    post σ m th c i th' σ' m' (mutex_for me (length (temps th'))).
Proof.
  intros (Hw & Hro & Htemps & ks & pend & Hwf & Hks & Hpend) Hcode Hmax Heq.
  destruct th as [code0 ts r w ro]; simpl in Hw, Hro, Htemps, Hwf, Hpend, Hcode, Hmax, Heq.
  subst code0 w mu.
  destruct i; inversion Hwf; subst.
  all: repeat match goal with
       | H : _ :: _ = kind_of <$> ?ts |- _ => symmetry in H
       | H : kind_of <$> ?ts = _ :: _ |- _ =>
           apply fmap_cons_inv in H as (tmp & ts' & Hkind & Hs & ->);
           destruct tmp; try discriminate Hkind;
           apply Forall_cons_1 in Htemps as [Hx Htemps]; simpl in Hx; subst
       end.
  all: exec_cbn.
  - (* Deref *)
    rewrite (deref_global _ _ _ Hmu), lock_mutex_for. exec_cbn.
    eexists _, _, m. split; [done|]. split; exec_cbn; [post_easy..| |post_easy|post_easy|post_easy|post_out_easy].
    split_and!; try done. { by constructor. }
    exists ks, None. by split_and!.
  - (* IndexSetFirst *)
    unfold index_set_first, safe_ptr.auto_lock_obj_t.index, elem_read, elem_write. exec_cbn.
    rewrite Hm. cbn [subscript elem_get elem_set map_indexable]. exec_cbn.
    rewrite lookup_insert_eq, map_subscript_lookup.
    destruct (default (EmptyString, 0) (m !! k)) as [f0 z] eqn:Hdef.
    exec_cbn. rewrite insert_map_subscript.
    eexists _, _, _. split; [done|].
    assert (Hz : z = counter k m).
    { unfold counter. destruct (m !! k) as [[]|]; simpl in Hdef; congruence. }
    split; exec_cbn; [post_easy|post_easy| |post_easy| | |post_easy| |post_out_easy].
    + intros k' f' z'. rewrite lookup_insert. case_decide as Hk.
      * intros [= <- <-]. subst k'. split; [done|].
        unfold counter in Hz. destruct (m !! k) as [[]|] eqn:E; [|lia].
        apply Hmap in E. lia.
      * apply Hmap.
    + split_and!; try done. { by constructor. }
      exists (k :: ks), None. split_and!; try done.
      intros k' Hk'. rewrite lookup_insert. case_decide as Hkk; [done|].
      apply Hks. apply elem_of_cons in Hk' as [?|?]; [congruence|done].
    + intros k' ?. rewrite lookup_insert. by case_decide.
    + intros k'. rewrite counter_insert. case_decide; subst; simpl; lia.
  - (* Arrow *)
    rewrite (arrow_global _ _ _ Hmu), lock_mutex_for. exec_cbn.
    eexists _, _, m. split; [done|]. split; exec_cbn; [post_easy..| |post_easy|post_easy|post_easy|post_out_easy].
    split_and!; try done. { by constructor. }
    exists ks, None. by split_and!.
  - (* AtLoad *)
    unfold map_at, elem_read; exec_cbn; rewrite Hm. cbn [elem_get map_indexable].
    destruct (Hks k) as [[f z] Hk]; [done|].
    rewrite decide_True by (by rewrite Hk). exec_cbn. rewrite Hm, Hk. exec_cbn.
    eexists _, _, m. split; [done|]. split; exec_cbn; [post_easy..| |post_easy|post_easy|post_easy|post_out_easy].
    split_and!; try done. { by constructor. }
    exists ks, (Some k). split_and!; try done.
    intros k' [= <-]. unfold counter. by rewrite Hk.
  - (* FindLoad *)
    unfold map_find, elem_read; exec_cbn; rewrite Hm. cbn [elem_get map_indexable].
    destruct (Hks k) as [[f z] Hk]; [done|].
    rewrite decide_True by (by rewrite Hk). exec_cbn. rewrite Hm, Hk. exec_cbn.
    eexists _, _, m. split; [done|]. split; exec_cbn; [post_easy..| |post_easy|post_easy|post_easy|post_out_easy].
    split_and!; try done. { by constructor. }
    exists ks, (Some k). split_and!; try done.
    intros k' [= <-]. unfold counter. by rewrite Hk.
  - (* StoreInc *)
    unfold elem_read, elem_write; exec_cbn; rewrite Hm. cbn [elem_get elem_set map_indexable].
    destruct (Hks k) as [[f z] Hk]; [done|].
    rewrite Hk. exec_cbn.
    assert (Hr : r = z). { rewrite (Hpend k eq_refl). unfold counter. by rewrite Hk. }
    assert (Hz : int_wrap (r + 1) = z + 1).
    { subst r. apply int_wrap_small. pose proof (Hmax k) as Hx.
      unfold counter in Hx. rewrite Hk in Hx. simpl in Hx. rewrite decide_True in Hx by done.
      apply Hmap in Hk. unfold INT_MAX in *. lia. }
    rewrite Hz.
    eexists _, _, _. split; [done|].
    split; exec_cbn; [post_easy|post_easy| |post_easy| | |post_easy| |post_out_easy].
    + intros k' f' z'. rewrite lookup_insert. case_decide.
      * intros [= <- <-]. subst k'. apply Hmap in Hk. split; [tauto|lia].
      * apply Hmap.
    + split_and!; try done. { by constructor. }
      exists ks, None. split_and!; try done.
      intros k' Hk'. rewrite lookup_insert. case_decide; [done|]. by apply Hks.
    + intros k' ?. rewrite lookup_insert. by case_decide.
    + intros k'. rewrite counter_insert. simpl. case_decide; subst; [|lia].
      unfold counter. rewrite Hk. lia.
  - (* CopyConst *)
    eexists _, _, m. split; [done|]. split; exec_cbn; [post_easy..| |post_easy|post_easy|post_easy|post_out_easy].
    split_and!; try done.
    + intros w [= <-]. by destruct safe_map_strings_global.
    + exists ks, None. by split_and!.
  - (* ArrowConst *)
    destruct ro as [w|]; [|by inversion Hwf].
    pose proof (Hro w eq_refl) as ->.
    rewrite (arrow_const_global _ _ _ Hmu), lock_mutex_for. exec_cbn.
    eexists _, _, m. split; [done|]. split; exec_cbn; [post_easy..| |post_easy|post_easy|post_easy|post_out_easy].
    split_and!; [done|by intros ? [= <-]|by constructor|].
    exists ks, None. by split_and!.
  - (* OutStr *)
    eexists _, _, m. split; [done|]. split; exec_cbn; [post_easy..| |post_easy|post_easy|post_easy|post_out_easy].
    split_and!; try done. exists ks, None. by split_and!.
  - (* OutFirst *)
    unfold call_const, map_at_const; exec_cbn; rewrite Hm.
    destruct (Hks k) as [[f z] Hk]; [done|]. rewrite Hk. exec_cbn.
    eexists _, _, m. split; [done|]. split; exec_cbn; [post_easy..| |post_easy|post_easy|post_easy|post_out_easy].
    split_and!; try done. { by constructor. } exists ks, None. by split_and!.
  - (* OutSecond *)
    unfold call_const, map_at_const; exec_cbn; rewrite Hm.
    destruct (Hks k) as [[f z] Hk]; [done|]. rewrite Hk. exec_cbn.
    eexists _, _, m. split; [done|]. split; exec_cbn; [post_easy..| |post_easy|post_easy|post_easy|].
    + split_and!; try done. { by constructor. } exists ks, None. by split_and!.
    + intros z'. rewrite drop_app_length. intros [= ->]%list_elem_of_singleton. eauto.
  - (* OutEndl *)
    eexists _, _, m. split; [done|]. split; exec_cbn; [post_easy..| |post_easy|post_easy|post_easy|post_out_easy].
    split_and!; try done. exists ks, None. by split_and!.
  - (* Release, auto_lock_obj_t *)
    cbn [length] in Hmu. rewrite (auto_lock_obj_t_dtor_global _ _ _ Hmu), unlock_mutex_for. exec_cbn.
    eexists _, _, m. split; [done|]. split; exec_cbn; [post_easy..| |post_easy|post_easy|post_easy|post_out_easy].
    split_and!; try done. exists ks, None. by split_and!.
  - (* Release, auto_lock_t *)
    cbn [length] in Hmu. rewrite (auto_lock_t_dtor_global _ _ _ Hmu), unlock_mutex_for. exec_cbn.
    eexists _, _, m. split; [done|]. split; exec_cbn; [post_easy..| |post_easy|post_easy|post_easy|post_out_easy].
    split_and!; try done. exists ks, None. by split_and!.
  - (* Release, const auto_lock_t *)
    cbn [length] in Hmu. rewrite (auto_lock_t_dtor_global _ _ _ Hmu), unlock_mutex_for. exec_cbn.
    eexists _, _, m. split; [done|]. split; exec_cbn; [post_easy..| |post_easy|post_easy|post_easy|post_out_easy].
    split_and!; try done. exists ks, None. by split_and!.
Qed.

Lemma exec_waiter th i c o n th' σ' :
  thread_ok m th → code th = i :: c → temps th = [] →
  mu = recursive_mutex.Held o n → o ≠ me →
  exec me i (set_code c th) σ = Ret (th', σ') →
  objs σ' = objs σ ∧ mtxs σ' = mtxs σ ∧ temps th' = [] ∧ code th' = c ∧
  thread_ok m th' ∧ (∀ k, incs k c = incs k (i :: c)) ∧
  (∀ z, OInt z ∉ drop (length (cout σ)) (cout σ')).
Proof.
  intros (Hw & Hro & Htemps & ks & pend & Hwf & Hks & Hpend) Hcode Hts Heq Hne.
  destruct th as [code0 ts r w ro]; simpl in Hw, Hro, Htemps, Hwf, Hpend, Hcode, Hts.
  subst code0 w mu ts.
  destruct i; inversion Hwf; subst; exec_cbn.
  - rewrite (deref_global _ _ _ Hmu), lock_other by done. by exec_cbn.
  - rewrite (arrow_global _ _ _ Hmu), lock_other by done. by exec_cbn.
  - intros [= <- <-]. split_and!; try done.
    + split_and!; [done|by intros ? [= <-]; destruct safe_map_strings_global|done|].
      exists ks, None. by split_and!.
    + intros z. rewrite drop_all. apply not_elem_of_nil.
  - destruct ro as [w|]; [|by inversion Hwf].
    pose proof (Hro w eq_refl) as ->.
    rewrite (arrow_const_global _ _ _ Hmu), lock_other by done. by exec_cbn.
  - intros [= <- <-]. split_and!; try done.
    + split_and!; try done. exists ks, None. by split_and!.
    + intros z. exec_cbn. rewrite drop_app_length. by intros [=]%list_elem_of_singleton.
  - intros [= <- <-]. split_and!; try done.
    + split_and!; try done. exists ks, None. by split_and!.
    + intros z. exec_cbn. rewrite drop_app_length. by intros [=]%list_elem_of_singleton.
Qed.
End thread_steps.

(** ** test_safe_ptr: every step keeps the invariant *)

Lemma sum_list_with_insert {A} (f : A → nat) (l : list A) (i : nat) (x y : A) :
  l !! i = Some x →
  (sum_list_with f (<[i := y]> l) + f x = sum_list_with f l + f y)%nat.
Proof.
  revert i. induction l as [|a l IH]; intros [|i] Hi; simplify_eq/=; [lia|].
  specialize (IH i Hi). lia.
Qed.

Lemma sum_list_with_lookup_le {A} (f : A → nat) (l : list A) (i : nat) (x : A) :
  l !! i = Some x → (f x ≤ sum_list_with f l)%nat.
Proof. intros H. apply sum_list_with_in. by eapply list_elem_of_lookup_2. Qed.

Lemma held_ok_owner t mu d :
  held_ok t mu d →
  mu = mutex_for t d ∨ (d = 0%nat ∧ ∃ o n, mu = recursive_mutex.Held o n ∧ o ≠ t).
Proof.
  unfold held_ok. destruct mu as [|o n]; [intros ->; by left|].
  case_decide; intros ->; [subst; by left|right; eauto].
Qed.

Lemma held_ok_other t t' d d' mu :
  t ≠ t' → held_ok t mu d → mu = mutex_for t' d' → d = 0%nat.
Proof.
  intros Hne H ->. destruct d'; simpl in H; [done|]. by rewrite decide_False in H.
Qed.

Lemma held_ok_after t t' d' :
  t ≠ t' → held_ok t (mutex_for t' d') 0.
Proof. intros. destruct d'; simpl; [done|]. by rewrite decide_False. Qed.

Lemma held_ok_self t d : held_ok t (mutex_for t d) d.
Proof. destruct d; simpl; [done|]. by rewrite decide_True. Qed.

Lemma thread_ok_idle m m' th :
  thread_ok m th → temps th = [] → (∀ k, is_Some (m !! k) → is_Some (m' !! k)) →
  thread_ok m' th.
Proof.
  intros (Hw & Hro & Htemps & ks & pend & Hwf & Hks & Hpend) Hts Hsub.
  split_and!; try done. exists ks, pend. split_and!; [done|naive_solver|].
  intros k ->. apply wf_pending_stack in Hwf. by rewrite Hts in Hwf.
Qed.

Lemma step_inv total st m mu me st' :
  inv total st m mu → step me st = Ret st' →
  ∃ m' mu', inv total st' m' mu' ∧ remaining st = S (remaining st') ∧
    (∀ th k c, threads st !! me = Some th → code th = StoreInc k :: c →
       counter k m' = counter k m + 1) ∧
    (∀ z, OInt z ∈ drop (length (cout (sto st))) (cout (sto st')) →
       ∃ k f, m !! k = Some (f, z)).
Proof.
  intros [Hobj Hmtx Hmap Hths Hheld Hholder Hcount Hmax]. unfold step.
  destruct (threads st !! me) as [th|] eqn:Hth; [|done].
  destruct (code th) as [|i c] eqn:Hcode; [done|].
  destruct (exec me i (set_code c th) (sto st)) as [[th1 σ1]| |] eqn:Hexec; [|done..].
  intros [= <-]. simpl.
  destruct (held_ok_owner _ _ _ (Hheld _ _ Hth)) as [Hown|(Hd & o & n & -> & Hne)].
  - destruct (exec_owner me (sto st) m mu Hobj Hmtx Hmap th i c) as (th' & σ' & m' & Hex & Hpost);
      [by eapply Hths|done| |done|].
    { intros k. specialize (Hcount k). specialize (Hmax k).
      pose proof (sum_list_with_lookup_le (λ th, incs k (code th)) _ _ _ Hth) as Hle.
      unfold incs_left in Hcount. simpl in Hle. lia. }
    rewrite Hexec in Hex. injection Hex as <- <-.
    destruct Hpost as [Pobj Pmtx Pmap Pcode Pth Pkeys Pidle Pcount Pout].
    exists m', (mutex_for me (length (temps th1))). split_and!.
    + split; simpl; try done.
      * intros t th0. destruct (decide (t = me)) as [->|Hne].
        -- rewrite list_lookup_insert_eq by (by eapply lookup_lt_Some). by intros [= <-].
        -- rewrite list_lookup_insert_ne by done. intros Ht.
           eapply thread_ok_idle; [by eapply Hths| |done].
           apply length_zero_iff_nil. eapply held_ok_other; [|by eapply Hheld|done]. done.
      * intros t th0. destruct (decide (t = me)) as [->|Hne].
        -- rewrite list_lookup_insert_eq by (by eapply lookup_lt_Some). intros [= <-].
           apply held_ok_self.
        -- rewrite list_lookup_insert_ne by done. intros Ht.
           rewrite (held_ok_other t me _ _ mu Hne (Hheld _ _ Ht) Hown).
           by apply held_ok_after.
      * intros o n Ho. assert (o = me) as ->.
        { destruct (length (temps th1)); simpl in Ho; congruence. }
        rewrite list_lookup_insert_eq by (by eapply lookup_lt_Some). done.
      * intros k. specialize (Pcount k). specialize (Hcount k). unfold incs_left in *.
        pose proof (sum_list_with_insert (λ th, incs k (code th)) _ _ _ th1 Hth) as Hs.
        simpl in Hs. rewrite Pcode, Hcode in Hs. lia.
    + unfold remaining. simpl.
      pose proof (sum_list_with_insert (λ th, length (code th)) _ _ _ th1 Hth) as Hs.
      simpl in Hs. rewrite Pcode, Hcode in Hs. simpl in Hs. lia.
    + intros th0 k c0 [= <-] Hc0.
      rewrite Hcode in Hc0. injection Hc0 as -> ->.
      specialize (Pcount k). simpl in Pcount. rewrite decide_True in Pcount by done. lia.
    + done.
  - apply length_zero_iff_nil in Hd.
    destruct (exec_waiter me (sto st) m _ Hmtx th i c o n th1 σ1)
      as (Eobj & Emtx & Ets & Ecode & Eth & Eincs & Eout); [by eapply Hths|done..|].
    exists m, (recursive_mutex.Held o n). split_and!.
    + split; simpl; try done.
      * by rewrite Eobj.
      * by rewrite Emtx.
      * intros t th0. destruct (decide (t = me)) as [->|Hne'].
        -- rewrite list_lookup_insert_eq by (by eapply lookup_lt_Some). by intros [= <-].
        -- rewrite list_lookup_insert_ne by done. apply Hths.
      * intros t th0. destruct (decide (t = me)) as [->|Hne'].
        -- rewrite list_lookup_insert_eq by (by eapply lookup_lt_Some). intros [= <-].
           rewrite Ets. simpl. by rewrite decide_False.
        -- rewrite list_lookup_insert_ne by done. apply Hheld.
      * intros o' n' [= <- <-]. destruct (decide (o = me)); [done|].
        rewrite list_lookup_insert_ne by done. by eapply Hholder.
      * intros k. specialize (Hcount k). unfold incs_left in *.
        pose proof (sum_list_with_insert (λ th, incs k (code th)) _ _ _ th1 Hth) as Hs.
        simpl in Hs. rewrite Ecode, Hcode, <- (Eincs k) in Hs. lia.
    + unfold remaining. simpl.
      pose proof (sum_list_with_insert (λ th, length (code th)) _ _ _ th1 Hth) as Hs.
      simpl in Hs. rewrite Ecode, Hcode in Hs. simpl in Hs. lia.
    + intros th0 k c0 [= <-] Hc0.
      rewrite Hcode in Hc0. injection Hc0 as -> ->.
      specialize (Eincs k). simpl in Eincs. rewrite decide_True in Eincs by done. lia.
    + intros z Hz. by apply Eout in Hz.
Qed.

Lemma run_app s1 s2 st : run (s1 ++ s2) st = (st' ← run s1 st; run s2 st').
Proof.
  revert st. induction s1 as [|t s1 IH]; intros st; simpl; [done|].
  destruct (step t st); simpl; [apply IH|done..].
Qed.

Lemma run_inv total sched st m mu st' :
  inv total st m mu → run sched st = Ret st' →
  ∃ m' mu', inv total st' m' mu' ∧ remaining st = (length sched + remaining st')%nat.
Proof.
  revert st m mu. induction sched as [|t sched IH]; intros st m mu Hinv; simpl.
  - intros [= <-]. eauto.
  - destruct (step t st) as [st1| |] eqn:Hstep; [|done..]. simpl. intros Hrun.
    destruct (step_inv _ _ _ _ _ _ Hinv Hstep) as (m1 & mu1 & Hinv1 & Hrem & _ & _).
    destruct (IH _ _ _ Hinv1 Hrun) as (m' & mu' & Hinv' & Hrem').
    exists m', mu'. split; [done|lia].
Qed.

(** ** test_safe_ptr: the invariant holds when the threads start *)

Lemma firsts_apple : firsts !! "apple" = Some "fruit".
Proof. reflexivity. Qed.
Lemma firsts_potato : firsts !! "potato" = Some "vegetable".
Proof. reflexivity. Qed.

Lemma wf_loop ks ro n c :
  "apple" ∈ ks → "potato" ∈ ks →
  wf [] ks None ro c → wf [] ks None ro (mjoin (replicate n func_loop_body) ++ c).
Proof.
  intros Ha Hp Hc. induction n as [|n IH]; simpl; [done|].
  repeat (first [ exact IH | constructor; [done|] | apply (wf_Release KArrow) | constructor ]).
Qed.

Lemma wf_func n : wf [] [] None false (func n).
Proof.
  unfold func. simpl.
  constructor. constructor; [exact firsts_apple|]. apply (wf_Release KObj).
  constructor. constructor; [exact firsts_potato|]. apply (wf_Release KObj).
  apply wf_loop; [set_solver|set_solver|].
  repeat (first [ constructor; [set_solver|] | econstructor ]).
Qed.

Lemma incs_loop k n :
  incs k (mjoin (replicate n func_loop_body)) =
  (n * (if decide (k = "apple") then 1 else if decide (k = "potato") then 1 else 0))%nat.
Proof.
  induction n as [|n IH]; [done|].
  change (mjoin (replicate (S n) func_loop_body))
    with (func_loop_body ++ mjoin (replicate n func_loop_body)).
  rewrite incs_app, IH. simpl.
  repeat case_decide; simplify_eq; lia.
Qed.

Lemma incs_func k n :
  incs k (func n) =
  (if decide (k = "apple") then n else if decide (k = "potato") then n else 0)%nat.
Proof.
  unfold func. rewrite !incs_app, incs_loop. simpl.
  repeat case_decide; lia.
Qed.

Lemma incs_left_replicate k n th :
  incs_left k (replicate n th) = (n * incs k (code th))%nat.
Proof. unfold incs_left. induction n; simpl; lia. Qed.

Lemma inv_init nthreads iterations :
  Z.of_nat (nthreads * iterations) ≤ INT_MAX →
  inv (total nthreads iterations) (test_safe_ptr_with nthreads iterations) ∅ recursive_mutex.Free.
Proof.
  intros Hmax. unfold test_safe_ptr_with. split; cbn [sto threads].
  - done.
  - done.
  - intros k f z. by rewrite lookup_empty.
  - intros t th [-> _]%lookup_replicate. split_and!; cbn [spawn temps code]; [done|done|done|].
    exists [], None. split_and!; [apply wf_func|set_solver|done].
  - by intros t th [-> _]%lookup_replicate.
  - done.
  - intros k. unfold counter, total. rewrite lookup_empty, incs_left_replicate.
    cbn [spawn code]. lia.
  - intros k. unfold total. rewrite incs_func. repeat case_decide; unfold INT_MAX in *; lia.
Qed.

(** ** test_safe_ptr: no deadlock *)

Lemma unfinished_thread (ths : list thread) :
  ¬ Forall (λ th, code th = []) ths → ∃ t th, ths !! t = Some th ∧ code th ≠ [].
Proof.
  induction ths as [|th ths IH]; intros Hn.
  - by destruct Hn.
  - destruct (code th) as [|i c] eqn:E.
    + destruct IH as (t & th' & ? & ?); [by intros ?; apply Hn; constructor|].
      by exists (S t), th'.
    + exists 0%nat, th. split; [done|]. by rewrite E.
Qed.

Lemma step_progress total st m mu :
  inv total st m mu → ¬ finished st → ∃ me st', step me st = Ret st'.
Proof.
  intros [Hobj Hmtx Hmap Hths Hheld Hholder Hcount Hmax] Hnf.
  assert (∃ me th, threads st !! me = Some th ∧ code th ≠ [] ∧
                   mu = mutex_for me (length (temps th))) as (me & th & Hth & Hcode & Hown).
  { destruct mu as [|o n] eqn:Emu.
    - destruct (unfinished_thread _ Hnf) as (t & th & Hth & Hcode).
      exists t, th. split_and!; [done..|]. by rewrite (Hheld _ _ Hth).
    - destruct (Hholder o n eq_refl) as [th Hth]. exists o, th.
      pose proof (Hheld _ _ Hth) as Hd. simpl in Hd. rewrite decide_True in Hd by done.
      split_and!; [done| |by rewrite Hd].
      intros Hc. destruct (Hths _ _ Hth) as (_ & _ & _ & ks & pend & Hwf & _).
      apply wf_stack_code in Hwf as [Hs _]; [|done].
      apply fmap_nil_inv in Hs. by rewrite Hs in Hd. }
  destruct (code th) as [|i c] eqn:Ecode; [done|].
  destruct (exec_owner me (sto st) m mu Hobj Hmtx Hmap th i c) as (th' & σ' & m' & Hex & _);
    [by eapply Hths|done| |done|].
  { intros k. specialize (Hcount k). specialize (Hmax k).
    pose proof (sum_list_with_lookup_le (λ th, incs k (code th)) _ _ _ Hth) as Hle.
    unfold incs_left in Hcount. simpl in Hle. lia. }
  exists me. unfold step. rewrite Hth, Ecode, Hex. simpl. eauto.
Qed.

Lemma run_complete total st m mu :
  inv total st m mu →
  ∃ sched st', run sched st = Ret st' ∧ finished st' ∧ length sched = remaining st.
Proof.
  remember (remaining st) as n eqn:Hn. revert st m mu Hn.
  induction n as [|n IH]; intros st m mu Hn Hinv.
  - exists [], st. split_and!; [done| |done].
    unfold remaining in Hn. unfold finished.
    induction (threads st) as [|th ths IHt]; [done|]. simpl in Hn.
    constructor; [|apply IHt; lia]. apply length_zero_iff_nil. lia.
  - destruct (step_progress _ _ _ _ Hinv) as (me & st1 & Hstep).
    { unfold finished. intros Hf. unfold remaining in Hn.
      assert (sum_list_with (λ th, length (code th)) (threads st) = 0)%nat; [|lia].
      clear -Hf. induction Hf as [|th ths Hc]; simpl; [done|]. rewrite Hc. simpl. lia. }
    destruct (step_inv _ _ _ _ _ _ Hinv Hstep) as (m1 & mu1 & Hinv1 & Hrem & _ & _).
    destruct (IH st1 m1 mu1) as (sched & st' & Hrun & Hfin & Hlen); [lia|done|].
    exists (me :: sched), st'. simpl. rewrite Hstep. simpl. split_and!; [done|done|lia].
Qed.

(** ** test_safe_ptr: what the invariant gives *)

Lemma incs_none k c : StoreInc k ∉ c → incs k c = 0%nat.
Proof.
  induction c as [|i c IH]; [done|]. intros Hn.
  rewrite not_elem_of_cons in Hn. destruct Hn as [Hi Hc].
  destruct i; simpl; auto. rewrite decide_False by congruence. auto.
Qed.

Lemma incs_left_done k st : increments_done st → incs_left k (threads st) = 0%nat.
Proof.
  unfold increments_done, incs_left. induction 1 as [|th ths Hth _ IH]; [done|].
  simpl. rewrite incs_none by done. done.
Qed.

Lemma finished_increments_done st : finished st → increments_done st.
Proof.
  unfold finished, increments_done. apply Forall_impl. intros th -> k. apply not_elem_of_nil.
Qed.

Lemma firsts_keys k f : firsts !! k = Some f →
  (k = "apple" ∧ f = "fruit") ∨ (k = "potato" ∧ f = "vegetable").
Proof.
  unfold firsts.
  intros [[<- <-]|[_ [<- <-]%lookup_singleton_Some]]%lookup_insert_Some; auto.
Qed.

Lemma map_ok_counter (m : map_t) k f :
  map_ok m → firsts !! k = Some f → counter k m ≠ 0 → m !! k = Some (f, counter k m).
Proof.
  intros Hok Hf Hc. unfold counter in *. destruct (m !! k) as [[f' z]|] eqn:E; [|done].
  destruct (Hok _ _ _ E) as [Hf' _]. congruence.
Qed.

Lemma inv_mutual_exclusion total st m mu t1 t2 th1 th2 :
  inv total st m mu →
  threads st !! t1 = Some th1 → threads st !! t2 = Some th2 →
  temps th1 ≠ [] → temps th2 ≠ [] → t1 = t2.
Proof.
  intros Hinv H1 H2 Hn1 Hn2.
  pose proof (inv_held _ _ _ _ Hinv _ _ H1) as Hd1.
  pose proof (inv_held _ _ _ _ Hinv _ _ H2) as Hd2.
  unfold held_ok in *. destruct mu as [|o n].
  - by apply length_zero_iff_nil in Hd1.
  - destruct (decide (o = t1)) as [->|]; [|by apply length_zero_iff_nil in Hd1].
    destruct (decide (t1 = t2)) as [->|]; [done|by apply length_zero_iff_nil in Hd2].
Qed.

Lemma inv_finished_free total st m mu :
  inv total st m mu → finished st → mu = recursive_mutex.Free.
Proof.
  intros Hinv Hfin. destruct mu as [|o n]; [done|].
  destruct (inv_holder _ _ _ _ Hinv o n eq_refl) as [th Hth].
  pose proof (inv_held _ _ _ _ Hinv _ _ Hth) as Hd. simpl in Hd.
  rewrite decide_True in Hd by done.
  destruct (inv_threads _ _ _ _ Hinv _ _ Hth) as (_ & _ & _ & ks & pend & Hwf & _).
  unfold finished in Hfin. rewrite Forall_lookup in Hfin.
  apply wf_stack_code in Hwf as [Hs _]; [|by eapply Hfin].
  apply fmap_nil_inv in Hs. by rewrite Hs in Hd.
Qed.

Lemma read_const_free me w k (σ : store map_t) m :
  objs σ !! safe_ptr.ptr w = Some m →
  mtxs σ !! safe_ptr.mtx_ptr w = Some recursive_mutex.Free →
  read_const me w k σ = Ret (m !! k, σ).
Proof.
  intros Hm Hmu. unfold read_const, safe_ptr_call_const.
  rewrite (safe_ptr_arrow_const_eq _ _ _ _ Hmu).
  cbn [recursive_mutex.lock mbind outcome_bind].
  unfold call_const, safe_ptr.auto_lock_t.arrow_const.
  cbn [safe_ptr.auto_lock_t.ptr objs set_mtxs]. rewrite Hm. cbn [mbind outcome_bind].
  rewrite (auto_lock_t_dtor_eq me w _ (recursive_mutex.Held me 0))
    by (cbn [mtxs set_mtxs]; by rewrite lookup_insert_eq).
  cbn [recursive_mutex.unlock]. rewrite decide_True by done.
  cbn [mbind outcome_bind]. do 2 f_equal.
  destruct σ as [os ms co]. unfold set_mtxs. cbn [objs mtxs cout] in *. f_equal.
  rewrite insert_insert_eq. by apply insert_id.
Qed.

Lemma test_safe_ptr_run nthreads iterations sched st :
  Z.of_nat (nthreads * iterations) ≤ INT_MAX →
  run sched (test_safe_ptr_with nthreads iterations) = Ret st →
  ∃ m mu, inv (total nthreads iterations) st m mu ∧
    (length sched + remaining st = remaining (test_safe_ptr_with nthreads iterations))%nat.
Proof.
  intros Hmax Hrun.
  destruct (run_inv _ _ _ _ _ _ (inv_init _ _ Hmax) Hrun) as (m & mu & Hinv & Hrem).
  exists m, mu. split; [done|lia].
Qed.

Lemma inv_final_values nthreads iterations st m mu k f :
  inv (total nthreads iterations) st m mu → increments_done st →
  firsts !! k = Some f → (0 < nthreads * iterations)%nat →
  m !! k = Some (f, Z.of_nat (nthreads * iterations)).
Proof.
  intros Hinv Hdone Hf Hpos.
  pose proof (inv_count _ _ _ _ Hinv k) as Hc.
  rewrite incs_left_done in Hc by done. unfold total in Hc. rewrite incs_func in Hc.
  assert (counter k m = Z.of_nat (nthreads * iterations)) as Hk.
  { destruct (firsts_keys _ _ Hf) as [[-> _]|[-> _]]; simpl in Hc; lia. }
  rewrite <- Hk. eapply map_ok_counter; [by eapply inv_map|done|lia].
Qed.

Lemma test_safe_ptr_max : Z.of_nat (10 * Z.to_nat 10000) ≤ INT_MAX.
Proof. by vm_compute. Qed.

Lemma test_safe_ptr_pos : (0 < 10 * Z.to_nat 10000)%nat.
Proof. apply Nat2Z.inj_lt. by vm_compute. Qed.

Lemma step_adds_one total st m mu me th k c st' :
  inv total st m mu →
  threads st !! me = Some th → code th = StoreInc k :: c → step me st = Ret st' →
  ∃ f z, value_of k (sto st) = Some (f, z) ∧ value_of k (sto st') = Some (f, z + 1).
Proof.
  intros Hinv Hth Hcode Hstep.
  destruct (step_inv _ _ _ _ _ _ Hinv Hstep) as (m' & mu' & Hinv' & _ & Hadd & _).
  specialize (Hadd _ _ _ Hth Hcode).
  destruct (inv_threads _ _ _ _ Hinv _ _ Hth) as (_ & _ & _ & ks & pend & Hwf & Hks & _).
  rewrite Hcode in Hwf. inversion Hwf; subst.
  destruct (Hks k) as [[f z] Hk]; [done|].
  destruct (inv_map _ _ _ _ Hinv _ _ _ Hk) as [Hf Hz].
  exists f, z. unfold value_of. fold gptr.
  rewrite (inv_obj _ _ _ _ Hinv), (inv_obj _ _ _ _ Hinv'). simpl. split; [done|].
  assert (counter k m = z) as Hc by (unfold counter; by rewrite Hk).
  rewrite (map_ok_counter m' k f); [by rewrite Hadd, Hc|by eapply inv_map|done|lia].
Qed.

Lemma inv_final_map nthreads iterations st m mu :
  inv (total nthreads iterations) st m mu → increments_done st →
  (0 < nthreads * iterations)%nat →
  m = {[ "apple" := ("fruit", Z.of_nat (nthreads * iterations));
         "potato" := ("vegetable", Z.of_nat (nthreads * iterations)) ]}.
Proof.
  intros Hinv Hdone Hpos. apply map_eq. intros k.
  destruct (firsts !! k) as [f|] eqn:Hf.
  - rewrite (inv_final_values _ _ _ _ _ k f Hinv Hdone Hf Hpos).
    destruct (firsts_keys _ _ Hf) as [[-> ->]|[-> ->]]; [by rewrite lookup_insert_eq|].
    rewrite lookup_insert_ne by done. by rewrite lookup_singleton_eq.
  - destruct (m !! k) as [[f z]|] eqn:Hk.
    + destruct (inv_map _ _ _ _ Hinv _ _ _ Hk) as [Hf' _]. congruence.
    + symmetry. apply lookup_insert_None. split.
      * apply lookup_singleton_None. intros <-. discriminate Hf.
      * intros <-. discriminate Hf.
Qed.

(* the claim for any number of threads and of iterations *)
Lemma func_threads_no_lost_updates nthreads iterations sched st :
  Z.of_nat (nthreads * iterations) ≤ INT_MAX → (0 < nthreads * iterations)%nat →
  run sched (test_safe_ptr_with nthreads iterations) = Ret st → increments_done st →
  objs (sto st) !! safe_ptr.ptr safe_map_strings_global =
    Some {[ "apple" := ("fruit", Z.of_nat (nthreads * iterations));
            "potato" := ("vegetable", Z.of_nat (nthreads * iterations)) ]}.
Proof.
  intros Hmax Hpos Hrun Hdone.
  destruct (test_safe_ptr_run _ _ _ _ Hmax Hrun) as (m & mu & Hinv & _).
  fold gptr. rewrite (inv_obj _ _ _ _ Hinv). f_equal. by eapply inv_final_map.
Qed.

Lemma small_run :
  ∃ st, run small_schedule (test_safe_ptr_with 2 3) = Ret st ∧ finished st ∧
        value_of "apple" (sto st) = Some ("fruit", 6) ∧
        value_of "potato" (sto st) = Some ("vegetable", 6).
Proof.
  destruct (run small_schedule (test_safe_ptr_with 2 3)) as [st| |] eqn:Hrun;
    [|by vm_compute in Hrun..].
  assert (finished st) as Hfin.
  { vm_compute in Hrun. injection Hrun as <-. repeat constructor. }
  assert (Z.of_nat (2 * 3) ≤ INT_MAX) as Hmax by by vm_compute.
  assert (0 < 2 * 3)%nat as Hpos by lia.
  pose proof (func_threads_no_lost_updates 2 3 small_schedule st Hmax Hpos Hrun
                (finished_increments_done _ Hfin)) as Hmap.
  exists st. unfold value_of. rewrite Hmap. split_and!; [reflexivity|exact Hfin|..];
    by vm_compute.
Qed.

(* a thread prints when it has done its own increments: alone from start
   to end, thread 0 prints 3, the count reached so far, not 6 *)
Lemma early_print_is_partial :
  ∃ st, run (replicate (length (func 3)) 0%nat) (test_safe_ptr_with 2 3) = Ret st ∧
        cout (sto st) = [ OStr "potato is "; OStr "vegetable"; OStr " "; OInt 3;
                          OStr ", apple is "; OStr "fruit"; OStr " "; OInt 3; OEndl ].
Proof. eexists. split; by vm_compute. Qed.

Lemma step_prints_final total st m mu me st' z :
  inv total st m mu → step me st = Ret st' →
  OInt z ∈ drop (length (cout (sto st))) (cout (sto st')) →
  ∃ k f, firsts !! k = Some f ∧ m !! k = Some (f, z).
Proof.
  intros Hinv Hstep Hz.
  destruct (step_inv _ _ _ _ _ _ Hinv Hstep) as (_ & _ & _ & _ & _ & Hout).
  destruct (Hout z Hz) as (k & f & Hk). exists k, f. split; [|done].
  by destruct (inv_map _ _ _ _ Hinv _ _ _ Hk).
Qed.

Lemma test_safe_ptr_complete :
  ∃ sched st, run sched test_safe_ptr = Ret st ∧ finished st.
Proof.
  destruct (run_complete _ _ _ _ (inv_init _ _ test_safe_ptr_max))
    as (sched & st & Hrun & Hfin & _).
  by exists sched, st.
Qed.


(** * The properties *)

(** C1: test_safe_ptr, ten threads running func on copies of one handle,
    under every schedule. Some schedule runs all threads to their end.
    Whatever the schedule: at most one thread has accessors alive; the
    write of every [second++] stores the value that is there plus one; as
    long as a thread has code left some thread can move, and every step
    consumes one instruction, so every schedule ends; once no increment is
    left to do the map is exactly apple -> ("fruit", 100000) and potato ->
    ("vegetable", 100000) and every count printed from then on is 100000;
    and when all threads have returned, a read through a const handle
    returns these values. *)
Theorem test_safe_ptr_no_lost_updates :
  (∃ sched st, run sched test_safe_ptr = Ret st ∧ finished st) ∧
  ∀ (sched : list tid) (st : state),
    run sched test_safe_ptr = Ret st →
    (∀ t1 t2 th1 th2,
       threads st !! t1 = Some th1 → threads st !! t2 = Some th2 →
       temps th1 ≠ [] → temps th2 ≠ [] → t1 = t2) ∧
    (∀ me th k c st',
       threads st !! me = Some th → code th = StoreInc k :: c → step me st = Ret st' →
       ∃ f z, value_of k (sto st) = Some (f, z) ∧ value_of k (sto st') = Some (f, z + 1)) ∧
    (¬ finished st → ∃ me st', step me st = Ret st') ∧
    (length sched + remaining st = remaining test_safe_ptr)%nat ∧
    (increments_done st →
       objs (sto st) !! safe_ptr.ptr safe_map_strings_global =
         Some {[ "apple" := ("fruit", 100000); "potato" := ("vegetable", 100000) ]} ∧
       ∀ me st' z, step me st = Ret st' →
         OInt z ∈ drop (length (cout (sto st))) (cout (sto st')) → z = 100000) ∧
    (finished st →
       read_const 0 safe_map_strings_global "apple" (sto st)
         = Ret (Some ("fruit", 100000), sto st) ∧
       read_const 0 safe_map_strings_global "potato" (sto st)
         = Ret (Some ("vegetable", 100000), sto st)).
Proof.
  split; [exact test_safe_ptr_complete|]. intros sched st Hrun.
  destruct (test_safe_ptr_run _ _ _ _ test_safe_ptr_max Hrun) as (m & mu & Hinv & Hrem).
  assert (∀ k f, increments_done st → firsts !! k = Some f → m !! k = Some (f, 100000)) as Hfinal.
  { intros k f Hdone Hf.
    rewrite (inv_final_values _ _ _ _ _ k f Hinv Hdone Hf) by exact test_safe_ptr_pos.
    by vm_compute. }
  split_and!.
  - intros *. by eapply inv_mutual_exclusion.
  - intros *. by eapply step_adds_one.
  - by eapply step_progress.
  - done.
  - intros Hdone. split.
    + fold gptr. rewrite (inv_obj _ _ _ _ Hinv). f_equal.
      by rewrite (inv_final_map _ _ _ _ _ Hinv Hdone test_safe_ptr_pos).
    + intros me st' z Hstep Hz.
      destruct (step_prints_final _ _ _ _ _ _ _ Hinv Hstep Hz) as (k & f & Hf & Hk).
      rewrite (Hfinal k f Hdone Hf) in Hk. congruence.
  - intros Hfin.
    pose proof (finished_increments_done _ Hfin) as Hdone.
    pose proof (inv_finished_free _ _ _ _ Hinv Hfin) as ->.
    split.
    + rewrite (read_const_free 0 safe_map_strings_global "apple" (sto st) m);
        [|by eapply inv_obj|by eapply inv_mtx].
      by rewrite (Hfinal "apple" "fruit" Hdone firsts_apple).
    + rewrite (read_const_free 0 safe_map_strings_global "potato" (sto st) m);
        [|by eapply inv_obj|by eapply inv_mtx].
      by rewrite (Hfinal "potato" "vegetable" Hdone firsts_potato).
Qed.

Lemma test_safe_ptr_no_lost_updates_witness :
  (length (@nil nat) + remaining test_safe_ptr = remaining test_safe_ptr)%nat ∧
  (¬ finished test_safe_ptr → ∃ me st', step me test_safe_ptr = Ret st').
Proof.
  pose proof (proj2 test_safe_ptr_no_lost_updates [] test_safe_ptr eq_refl) as H.
  exact (conj (proj1 (proj2 (proj2 (proj2 H)))) (proj1 (proj2 (proj2 H)))).
Defined.

(** C2, as stated, fails: the proxy that [proxy(p, mtx)] builds on
    [vec_store] is locked; once another proxy is move-constructed from it
    it is unlocked although it has not been destroyed, while the mutex is
    still locked once; its destruction then releases nothing; and a proxy
    move-constructed from it after the first move is unlocked from the
    start. *)
Lemma accessor_unlocked_before_destruction :
  ∃ σ1,
    execute_around.proxy.ctor 0 1 1 vec_store = Ret (vec_proxy, σ1) ∧
    trace 0 1 [Used; MovedFrom; Used; Destroyed] (Some vec_proxy) σ1 =
      Ret [(locked, 1%nat); (unlocked, 1%nat); (unlocked, 1%nat); (unlocked, 1%nat)] ∧
    acc_state (acc_move (acc_move vec_proxy).2).1 = unlocked ∧
    ¬ locked_until_destroyed execute_around.proxy.t.
Proof.
  set (σ1 := print [OStr ("locked" +:+ nl)]
               (set_mtxs (insert 1%positive (recursive_mutex.Held 0 0)) vec_store)).
  exists σ1. split_and!; [reflexivity|done|done|].
  intros H.
  specialize (H vector_int 0%nat 1%positive vec_proxy σ1 [MovedFrom]
                [(unlocked, 1%nat)] eq_refl).
  assert (Destroyed ∉ [MovedFrom]) as Hn.
  { intros Hin. apply list_elem_of_singleton in Hin. discriminate Hin. }
  specialize (H Hn eq_refl). apply Forall_cons_1 in H as [H _]. discriminate H.
Qed.

(** C2, amended: for each accessor class, the locking constructor returns
    only once the calling thread holds the mutex, which is then locked
    once more, and the accessor is locked (the constructor blocks while
    another thread holds the mutex); a move-constructed accessor starts in
    the state of its source, and the source is left unlocked. In the life
    of an accessor built by the locking constructor: it is locked, and the
    mutex stays locked that once more, while it is only used; destroyed
    then, it is unlocked and its destructor has given back the mutex as
    it was before the constructor; moved from, it is unlocked from then
    on, whatever happens to it, while the mutex stays locked, and its
    destruction gives nothing back: it is the destructor of the accessor
    move-constructed from it that gives the mutex back. An unlocked
    accessor is never locked again and never changes how often the mutex
    is locked. *)
Theorem accessor_lock_states :
  locked_until_moved_or_destroyed execute_around.proxy.t ∧
  locked_until_moved_or_destroyed (safe_ptr.auto_lock_t.t unique_lock.t) ∧
  locked_until_moved_or_destroyed (safe_ptr.auto_lock_obj_t.t unique_lock.t).
Proof. split_and!; apply accessor_life. Qed.

Lemma accessor_lock_states_witness :
  trace 0 1 [Used; Used] (Some vec_proxy)
      (print [OStr ("locked" +:+ nl)]
         (set_mtxs (insert 1%positive (recursive_mutex.Held 0 0)) vec_store)) =
    Ret (replicate (length [Used; Used]) (locked, S (lock_count 1 vec_store))) ∧
  trace 0 1 ([Used; Used] ++ [Destroyed]) (Some vec_proxy)
      (print [OStr ("locked" +:+ nl)]
         (set_mtxs (insert 1%positive (recursive_mutex.Held 0 0)) vec_store)) =
    Ret (replicate (length [Used; Used]) (locked, S (lock_count 1 vec_store))
         ++ [(unlocked, lock_count 1 vec_store)]).
Proof.
  pose proof (proj1 (proj2 (proj2 (proj2 (proj1 accessor_lock_states)))) vector_int 0%nat
                1%positive 1%positive vec_store _ vec_proxy [Used; Used] eq_refl
                (ltac:(repeat constructor))) as H.
  exact (conj (proj1 H) (proj1 (proj2 H))).
Defined.

(** C3, as stated, fails: through a copy of safe_map_strings_global one
    reads nothing at "apple" before [( *w)["apple"].first = "fruit"] is
    executed through the original handle, and ("fruit", 0) after it. *)
Lemma copied_safe_ptr_sees_mutation :
  assign_first 0 safe_map_strings_global "apple" "fruit" globals.2 = Ret apple_store ∧
  read_const 0 (safe_ptr.copy safe_map_strings_global) "apple" globals.2
    = Ret (None, globals.2) ∧
  read_const 0 (safe_ptr.copy safe_map_strings_global) "apple" apple_store
    = Ret (Some ("fruit", 0), apple_store) ∧
  ¬ copies_are_independent.
Proof.
  assert (assign_first 0 safe_map_strings_global "apple" "fruit" globals.2 = Ret apple_store)
    as H1 by by vm_compute.
  assert (read_const 0 (safe_ptr.copy safe_map_strings_global) "apple" apple_store
          = Ret (Some ("fruit", 0), apple_store)) as H2 by by vm_compute.
  split_and!; [done|by vm_compute|done|].
  intros H. specialize (H _ _ _ _ _ _ H1 _ _ H2). vm_compute in H. discriminate H.
Qed.

(** C3, amended: a safe_ptr built from constructor arguments gets a value
    and a mutex that no handle existing before designates, two handles
    built one after the other share neither, and a call made through the
    first leaves the value of the second untouched; a copied handle
    designates the value and the mutex of its source, and after a call
    through the source a call through the copy sees the value the first
    call left. *)
Theorem safe_ptr_shared_ownership :
  (∀ w, safe_ptr.ptr (safe_ptr.copy w) = safe_ptr.ptr w ∧
        safe_ptr.mtx_ptr (safe_ptr.copy w) = safe_ptr.mtx_ptr w) ∧
  (∀ T R R' me w (f : T → T * R) (g : T → R') (σ σ' : store T) r,
     safe_ptr_call me w f σ = Ret (r, σ') →
     ∃ v σ'', objs σ !! safe_ptr.ptr w = Some v ∧
              safe_ptr_call_const me (safe_ptr.copy w) g σ' = Ret (g (f v).1, σ'')) ∧
  (∀ T Args exn (T_ctor : Args → exn + T) args (σ σ' : store T) w,
     safe_ptr.ctor T_ctor args σ = (inr w, σ') →
     objs σ !! safe_ptr.ptr w = None ∧ mtxs σ !! safe_ptr.mtx_ptr w = None) ∧
  (∀ T Args exn (T_ctor : Args → exn + T) args1 args2 (σ σ1 σ2 : store T) w1 w2,
     safe_ptr.ctor T_ctor args1 σ = (inr w1, σ1) →
     safe_ptr.ctor T_ctor args2 σ1 = (inr w2, σ2) →
     safe_ptr.ptr w1 ≠ safe_ptr.ptr w2 ∧ safe_ptr.mtx_ptr w1 ≠ safe_ptr.mtx_ptr w2 ∧
     ∀ R me (f : T → T * R) r σ3,
       safe_ptr_call me w1 f σ2 = Ret (r, σ3) →
       objs σ3 !! safe_ptr.ptr w2 = objs σ2 !! safe_ptr.ptr w2).
Proof.
  assert (∀ T Args exn (T_ctor : Args → exn + T) args (σ σ' : store T) w,
     safe_ptr.ctor T_ctor args σ = (inr w, σ') →
     objs σ !! safe_ptr.ptr w = None ∧ mtxs σ !! safe_ptr.mtx_ptr w = None ∧
     is_Some (objs σ' !! safe_ptr.ptr w) ∧ is_Some (mtxs σ' !! safe_ptr.mtx_ptr w)) as Hfresh.
  { intros T Args exn T_ctor args σ σ' w Hc.
    destruct (T_ctor args) as [e|v] eqn:Ht.
    - by rewrite (safe_ptr_ctor_throws _ _ _ _ Ht) in Hc.
    - destruct (safe_ptr_ctor_builds T_ctor args σ v Ht) as (w' & σ'' & Hc' & ? & ? & Ho & Hm & _).
      rewrite Hc in Hc'. injection Hc' as <- <-.
      rewrite Ho, Hm, !lookup_insert_eq. eauto. }
  split_and!.
  - done.
  - intros T R R' me w f g σ σ' r Hc. rewrite safe_ptr_call_acc in Hc.
    apply acc_call_inv in Hc as (v & mu & Hv & -> & Ho & Hm & Hmu & Hfree).
    destruct (acc_call_const_returns (A := safe_ptr.auto_lock_t.t unique_lock.t)
                me (safe_ptr.ptr w) (safe_ptr.mtx_ptr w) g σ' (f v).1 mu) as (σ'' & Hr);
      [by rewrite Ho, lookup_insert_eq|by rewrite Hm|done|].
    exists v, σ''. split; [done|]. by rewrite safe_ptr_call_const_acc.
  - intros * Hc. by apply Hfresh in Hc as (? & ? & _).
  - intros T Args exn T_ctor args1 args2 σ σ1 σ2 w1 w2 H1 H2.
    apply Hfresh in H1 as (_ & _ & [v1 Hv1] & [m1 Hm1]).
    apply Hfresh in H2 as (Hv2 & Hm2 & _).
    assert (safe_ptr.ptr w1 ≠ safe_ptr.ptr w2) as Hne by congruence.
    split_and!; [done|congruence|].
    intros R me f r σ3 Hc. rewrite safe_ptr_call_acc in Hc.
    apply acc_call_inv in Hc as (v & mu & _ & _ & -> & _). by rewrite lookup_insert_ne.
Qed.

Lemma safe_ptr_shared_ownership_witness :
  ∃ v σ'', objs globals.2 !! safe_ptr.ptr safe_map_strings_global = Some v ∧
    safe_ptr_call_const 0 (safe_ptr.copy safe_map_strings_global) (map_at_const "apple")
      (Store {[ 1%positive := {[ "apple" := (EmptyString, 0) ]} ]}
             {[ 1%positive := recursive_mutex.Free ]} [])
    = Ret (map_at_const "apple" ((λ m : map_t, (map_subscript "apple" m, ())) v).1, σ'').
Proof.
  exact (proj1 (proj2 safe_ptr_shared_ownership) map_t unit _ 0%nat safe_map_strings_global
           (λ m, (map_subscript "apple" m, ())) (map_at_const "apple") globals.2 _ () eq_refl).
Defined.

(** C4: a copy of an execute_around handle designates the value and the
    mutex of its source; a call made through the source changes that one
    value (copying allocates nothing) and a call made afterwards through
    the copy sees the changed value. *)
Theorem execute_around_copy_shares {T R R' : Type} (me : tid) (w : execute_around.t)
    (f : T → T * R) (g : T → R') (σ σ' : store T) (r : R) :
  execute_around_call me w f σ = Ret (r, σ') →
  execute_around.p (execute_around.copy w) = execute_around.p w ∧
  execute_around.mtx (execute_around.copy w) = execute_around.mtx w ∧
  ∃ v σ'', objs σ !! execute_around.p w = Some v ∧
    objs σ' = <[execute_around.p w := (f v).1]> (objs σ) ∧
    execute_around_call_const me (execute_around.copy w) g σ' = Ret (g (f v).1, σ'').
Proof.
  intros Hc. split_and!; [done..|]. rewrite execute_around_call_acc in Hc.
  apply acc_call_inv in Hc as (v & mu & Hv & -> & Ho & Hm & Hmu & Hfree).
  destruct (acc_call_const_returns (A := execute_around.proxy.t)
              me (execute_around.p w) (execute_around.mtx w) g σ' (f v).1 mu) as (σ'' & Hr);
    [by rewrite Ho, lookup_insert_eq|by rewrite Hm|done|].
  exists v, σ''. split_and!; [done..|]. by rewrite execute_around_call_const_acc.
Qed.

Lemma execute_around_copy_shares_witness :
  ∃ v σ'', objs vec_store !! 1%positive = Some v ∧
    objs (Store {[ 1%positive := [10; 10; 7] ]} {[ 1%positive := recursive_mutex.Free ]}
            [OStr ("locked" +:+ nl); OStr ("unlocked" +:+ nl)])
      = <[1%positive := (push_back 7 v).1]> (objs vec_store) ∧
    execute_around_call_const 0 (execute_around.copy (execute_around.mk 1 1))
      (λ v, accumulate v 0)
      (Store {[ 1%positive := [10; 10; 7] ]} {[ 1%positive := recursive_mutex.Free ]}
            [OStr ("locked" +:+ nl); OStr ("unlocked" +:+ nl)])
    = Ret (accumulate (push_back 7 v).1 0, σ'').
Proof.
  exact (proj2 (proj2 (execute_around_copy_shares 0%nat (execute_around.mk 1 1)
           (push_back 7) (λ v, accumulate v 0) vec_store _ () eq_refl))).
Defined.

(** C5: the accessor classes cannot be copied and can be moved; after
    [proxy b(std::move(a))] (and likewise for the other two classes) the
    new accessor is locked on the same mutex, the moved-from one is
    unlocked, destroying the moved-from one leaves every mutex as it is,
    and destroying the new one gives the mutex back as it was before the
    acquisition: one release for one acquisition. *)
Theorem accessor_move_semantics :
  (copy_constructible proxy_decl = false ∧ move_constructible proxy_decl = true) ∧
  (copy_constructible auto_lock_t_decl = false ∧ move_constructible auto_lock_t_decl = true) ∧
  (copy_constructible auto_lock_obj_t_decl = false ∧
   move_constructible auto_lock_obj_t_decl = true) ∧
  move_transfers_lock execute_around.proxy.t ∧
  move_transfers_lock (safe_ptr.auto_lock_t.t unique_lock.t) ∧
  move_transfers_lock (safe_ptr.auto_lock_obj_t.t unique_lock.t).
Proof. split_and!; first [done | apply accessor_move]. Qed.

Lemma accessor_move_semantics_witness :
  acc_state (acc_move vec_proxy).1 = locked ∧
  unique_lock.pm (acc_lock (acc_move vec_proxy).1) = Some 1%positive ∧
  acc_state (acc_move vec_proxy).2 = unlocked.
Proof.
  destruct (proj1 (proj2 (proj2 (proj2 accessor_move_semantics))) vector_int 0%nat
              1%positive 1%positive vec_store _ vec_proxy eq_refl) as (H1 & H2 & H3 & _).
  exact (conj H1 (conj H2 H3)).
Defined.

(** C6: with the default template arguments the const operator-> and
    operator* are the same functions as the non-const ones: they lock the
    same mutex with the same std::unique_lock; while a thread holds the
    accessor a const access returned, every access of every other thread,
    const or not, blocks. *)
Theorem const_access_locks_exclusively {T : Type} (me : tid) (w : safe_ptr.t) (σ : store T) :
  safe_ptr.arrow_const (s_lock_t := default_s_lock_t) me w σ
    = safe_ptr.arrow (x_lock_t := default_x_lock_t) me w σ ∧
  safe_ptr.deref_const (s_lock_t := default_s_lock_t) me w σ
    = safe_ptr.deref (x_lock_t := default_x_lock_t) me w σ ∧
  ∀ a σ' other,
    safe_ptr.arrow_const (s_lock_t := default_s_lock_t) me w σ = Ret (a, σ') → other ≠ me →
    holds me (safe_ptr.mtx_ptr w) σ' ∧
    safe_ptr.arrow (x_lock_t := default_x_lock_t) other w σ' = Blocks ∧
    safe_ptr.arrow_const (s_lock_t := default_s_lock_t) other w σ' = Blocks ∧
    safe_ptr.deref (x_lock_t := default_x_lock_t) other w σ' = Blocks ∧
    safe_ptr.deref_const (s_lock_t := default_s_lock_t) other w σ' = Blocks.
Proof.
  split_and!; [done..|]. intros a σ' other Hc Hne.
  change (acc_ctor (A := safe_ptr.auto_lock_t.t unique_lock.t) me
            (safe_ptr.ptr w) (safe_ptr.mtx_ptr w) σ = Ret (a, σ')) in Hc.
  apply acc_ctor_inv in Hc as (_ & _ & mu & mu' & Hmu & Hlock & Hm & _).
  destruct (lock_held _ _ _ Hlock) as [n ->].
  assert (mtxs σ' !! safe_ptr.mtx_ptr w = Some (recursive_mutex.Held me n)) as Hheld.
  { by rewrite Hm, lookup_insert_eq. }
  split_and!.
  - exists (recursive_mutex.Held me n). split; [done|]. simpl. by apply bool_decide_eq_true_2.
  - exact (acc_ctor_blocks (A := safe_ptr.auto_lock_t.t unique_lock.t) other (safe_ptr.ptr w)
             (safe_ptr.mtx_ptr w) σ' me n Hheld (λ E, Hne (eq_sym E))).
  - exact (acc_ctor_blocks (A := safe_ptr.auto_lock_t.t unique_lock.t) other (safe_ptr.ptr w)
             (safe_ptr.mtx_ptr w) σ' me n Hheld (λ E, Hne (eq_sym E))).
  - exact (acc_ctor_blocks (A := safe_ptr.auto_lock_obj_t.t unique_lock.t) other (safe_ptr.ptr w)
             (safe_ptr.mtx_ptr w) σ' me n Hheld (λ E, Hne (eq_sym E))).
  - exact (acc_ctor_blocks (A := safe_ptr.auto_lock_obj_t.t unique_lock.t) other (safe_ptr.ptr w)
             (safe_ptr.mtx_ptr w) σ' me n Hheld (λ E, Hne (eq_sym E))).
Qed.

Lemma const_access_locks_exclusively_witness :
  safe_ptr.arrow (x_lock_t := unique_lock.t) 1 safe_map_strings_global
    (set_mtxs (insert 1%positive (recursive_mutex.Held 0 0)) globals.2) = Blocks.
Proof.
  exact (proj1 (proj2 (proj2 (proj2 (const_access_locks_exclusively 0%nat
           safe_map_strings_global globals.2)) _ _ 1%nat eq_refl (ltac:(done))))).
Defined.

(** C7: a thread that finds the mutex free, or already holds it, can build
    any number of accessors on it one after the other: every construction
    returns a locked accessor, the mutex is locked once more each time, and
    destroying the accessors newest first gives the mutex back as it was.
    The statements of test_execute_around (lines 125 to 157), which hold
    two proxies at once four times, all return: each of the four sums is
    100, and once the two explicit destructor calls have ended the
    lifetime of tmp2 and of tmp1 the mutex is free. *)
Theorem nested_accessors_do_not_deadlock :
  reentrant execute_around.proxy.t ∧
  reentrant (safe_ptr.auto_lock_t.t unique_lock.t) ∧
  reentrant (safe_ptr.auto_lock_obj_t.t unique_lock.t) ∧
  ∃ vecc σ,
    test_execute_around_statements 0 empty_store =
      Ret ([100; 100; 100; 100], (vecc, Ended, Ended), σ) ∧
    mtxs σ = {[ 1%positive := recursive_mutex.Free ]}.
Proof.
  split_and!; [apply accessor_reentrant..|]. do 2 eexists. split; [by vm_compute|done].
Qed.

Lemma nested_accessors_do_not_deadlock_witness :
  ∃ (l : list execute_around.proxy.t) σn σ',
    acquire_nested 3 0 1 1 vec_store = Ret (l, σn) ∧ length l = 3%nat ∧
    Forall (λ a, acc_state a = locked) l ∧
    lock_count 1 σn = (lock_count 1 vec_store + 3)%nat ∧ objs σn = objs vec_store ∧
    release_all 0 l σn = Ret σ' ∧ mtxs σ' = mtxs vec_store ∧ objs σ' = objs vec_store.
Proof.
  exact (proj1 nested_accessors_do_not_deadlock vector_int 3%nat 0%nat 1%positive 1%positive
           vec_store recursive_mutex.Free eq_refl (or_introl eq_refl)).
Defined.

(** C8: operator * returns an accessor once the calling thread holds the
    mutex; the accessor's operator[] is the container's own operator[]
    applied to the wrapped container, it hands out a reference to the
    element of that key (never the container), through which one reads
    what the container's operator[] designates; the mutex stays held by
    the thread after the indexing and is given back, as it was before
    operator *, when the accessor is destroyed. *)
Theorem indexed_access_forwards {T K V : Type} `{!Indexable T K V}
    (me : tid) (w : safe_ptr.t) (σ σ1 : store T)
    (a : safe_ptr.auto_lock_obj_t.t unique_lock.t) (k : K) :
  safe_ptr.deref me w σ = Ret (a, σ1) →
  holds me (safe_ptr.mtx_ptr w) σ1 ∧
  safe_ptr.auto_lock_obj_t.index a k σ1 =
    match own_subscript (safe_ptr.ptr w) k σ with
    | Some c' => Ret (ElemRef (safe_ptr.ptr w) k, set_objs (insert (safe_ptr.ptr w) c') σ1)
    | None => Fault
    end ∧
  ∀ r σ2,
    safe_ptr.auto_lock_obj_t.index a k σ1 = Ret (r, σ2) →
    r = ElemRef (safe_ptr.ptr w) k ∧
    elem_read r σ2 =
      match own_element (safe_ptr.ptr w) k σ with
      | Some v => Ret v
      | None => Fault
      end ∧
    holds me (safe_ptr.mtx_ptr w) σ2 ∧
    ∃ σ3, safe_ptr.auto_lock_obj_t.dtor me a σ2 = Ret σ3 ∧ mtxs σ3 = mtxs σ.
Proof.
  intros Hc.
  change (acc_ctor (A := safe_ptr.auto_lock_obj_t.t unique_lock.t) me
            (safe_ptr.ptr w) (safe_ptr.mtx_ptr w) σ = Ret (a, σ1)) in Hc.
  apply acc_ctor_inv in Hc as (Hl & Hp & mu & mu' & Hmu & Hlock & Hm & Ho).
  simpl in Hp.
  assert (holds me (safe_ptr.mtx_ptr w) σ1) as Hholds.
  { exists mu'. rewrite Hm, lookup_insert_eq. split; [done|]. by apply lock_owned in Hlock as [? _]. }
  assert (safe_ptr.auto_lock_obj_t.index a k σ1 =
    match own_subscript (safe_ptr.ptr w) k σ with
    | Some c' => Ret (ElemRef (safe_ptr.ptr w) k, set_objs (insert (safe_ptr.ptr w) c') σ1)
    | None => Fault
    end) as Hindex.
  { unfold safe_ptr.auto_lock_obj_t.index, own_subscript. rewrite Hp, Ho.
    destruct (objs σ !! safe_ptr.ptr w) as [c|]; [|done].
    by destruct (subscript k c). }
  split_and!; [done..|]. intros r σ2. rewrite Hindex.
  unfold own_element.
  destruct (own_subscript (safe_ptr.ptr w) k σ) as [c'|] eqn:Hc'; [|done].
  intros [= <- <-]. split_and!.
  - done.
  - simpl. rewrite lookup_insert_eq. by destruct (elem_get k c').
  - done.
  - destruct (acc_dtor_owning (A := safe_ptr.auto_lock_obj_t.t unique_lock.t) me a
                (safe_ptr.mtx_ptr w) (set_objs (insert (safe_ptr.ptr w) c') σ1) mu' mu Hl)
      as (σ3 & Hd & Hm3 & _).
    { simpl. by rewrite Hm, lookup_insert_eq. }
    { by eapply lock_unlock. }
    exists σ3. split; [done|]. rewrite Hm3. simpl. rewrite Hm, insert_insert_eq.
    by apply insert_id.
Qed.

Lemma indexed_access_forwards_witness :
  safe_ptr.auto_lock_obj_t.index
    (safe_ptr.auto_lock_obj_t.mk 1%positive (unique_lock.mk (Some 1%positive) true)) "apple"
    (set_mtxs (insert 1%positive (recursive_mutex.Held 0 0)) globals.2) =
  match own_subscript (safe_ptr.ptr safe_map_strings_global) "apple" globals.2 with
  | Some c' =>
      Ret (ElemRef (safe_ptr.ptr safe_map_strings_global) "apple",
           set_objs (insert (safe_ptr.ptr safe_map_strings_global) c')
             (set_mtxs (insert 1%positive (recursive_mutex.Held 0 0)) globals.2))
  | None => Fault
  end.
Proof.
  exact (proj1 (proj2 (indexed_access_forwards 0%nat safe_map_strings_global globals.2 _ _
           "apple" eq_refl))).
Defined.

(** C9: the constructors of both wrappers fail exactly when the
    constructor of T fails, with what it threw and with the store as it
    was; otherwise they return a handle to a newly allocated value, the one
    T's constructor built, and a newly allocated, free mutex. *)
Theorem wrapper_construction {T Args exn : Type} (T_ctor : Args → exn + T)
    (args : Args) (σ : store T) :
  match T_ctor args with
  | inl e =>
      safe_ptr.ctor T_ctor args σ = (inl e, σ) ∧
      execute_around.ctor T_ctor args σ = (inl e, σ)
  | inr v =>
      (∃ w σ', safe_ptr.ctor T_ctor args σ = (inr w, σ') ∧
         objs σ !! safe_ptr.ptr w = None ∧ mtxs σ !! safe_ptr.mtx_ptr w = None ∧
         objs σ' = <[safe_ptr.ptr w := v]> (objs σ) ∧
         mtxs σ' = <[safe_ptr.mtx_ptr w := recursive_mutex.Free]> (mtxs σ) ∧
         cout σ' = cout σ) ∧
      (∃ w σ', execute_around.ctor T_ctor args σ = (inr w, σ') ∧
         objs σ !! execute_around.p w = None ∧ mtxs σ !! execute_around.mtx w = None ∧
         objs σ' = <[execute_around.p w := v]> (objs σ) ∧
         mtxs σ' = <[execute_around.mtx w := recursive_mutex.Free]> (mtxs σ) ∧
         cout σ' = cout σ)
  end.
Proof.
  destruct (T_ctor args) as [e|v] eqn:Ht.
  - split; [by apply safe_ptr_ctor_throws|by apply execute_around_ctor_throws].
  - split; [by apply safe_ptr_ctor_builds|by apply execute_around_ctor_builds].
Qed.

Lemma wrapper_construction_witness :
  safe_ptr.ctor checked_vector_ctor (-1, 0) empty_store = (inl "length_error", empty_store) ∧
  execute_around.ctor checked_vector_ctor (-1, 0) empty_store
    = (inl "length_error", empty_store).
Proof. exact (wrapper_construction checked_vector_ctor (-1, 0) empty_store). Defined.





(** * Further properties *)

(** ** A call through a wrapper is the call itself, under the mutex *)

Lemma available_lock me mu :
  available me mu = true →
  ∃ mu', recursive_mutex.lock me mu = Ret mu' ∧ recursive_mutex.unlock me mu' = Ret mu ∧
         available me mu' = true.
Proof.
  destruct mu as [|o n]; simpl.
  - intros _. eexists. split; [done|]. simpl. rewrite decide_True by done.
    split; [done|]. by apply bool_decide_eq_true_2.
  - intros ->%bool_decide_eq_true_1. rewrite decide_True by done.
    eexists. split; [done|]. simpl. rewrite decide_True by done.
    split; [done|]. by apply bool_decide_eq_true_2.
Qed.

Lemma unavailable_lock me mu :
  available me mu = false → recursive_mutex.lock me mu = Blocks.
Proof.
  destruct mu as [|o n]; simpl; [done|].
  intros H%bool_decide_eq_false_1. by rewrite decide_False.
Qed.

Lemma mtxs_restore {T} (σ : store T) m mu mu' :
  mtxs σ !! m = Some mu → <[m := mu]> (<[m := mu']> (mtxs σ)) = mtxs σ.
Proof. intros H. rewrite insert_insert_eq. by apply insert_id. Qed.

Lemma safe_ptr_call_eq {T R R' : Type} (me : tid) (w : safe_ptr.t)
    (f : T → T * R) (g : T → R') (σ : store T) :
  safe_ptr_call me w f σ
    = guarded me (safe_ptr.mtx_ptr w) σ (call f (Ptr (safe_ptr.ptr w)) σ) ∧
  safe_ptr_call_const me w g σ
    = guarded me (safe_ptr.mtx_ptr w) σ
        (r ← call_const g (ConstPtr (safe_ptr.ptr w)) σ; Ret (r, σ)).
Proof.
  unfold safe_ptr_call, safe_ptr_call_const, guarded.
  destruct (mtxs σ !! safe_ptr.mtx_ptr w) as [mu|] eqn:Hmu.
  2:{ unfold safe_ptr.arrow, safe_ptr.arrow_const, safe_ptr.auto_lock_t.ctor.
      cbn [lk_ctor unique_lock_lockable]. unfold unique_lock.ctor. by rewrite Hmu. }
  rewrite (safe_ptr_arrow_eq _ _ _ _ Hmu), (safe_ptr_arrow_const_eq _ _ _ _ Hmu).
  destruct (available me mu) eqn:Ha; [|by rewrite unavailable_lock].
  destruct (available_lock _ _ Ha) as (mu' & -> & Hunlock & _).
  cbn [mbind outcome_bind]. unfold safe_ptr.auto_lock_t.arrow, safe_ptr.auto_lock_t.arrow_const.
  cbn [safe_ptr.auto_lock_t.ptr]. unfold call, call_const. cbn [objs set_mtxs].
  destruct (objs σ !! safe_ptr.ptr w) as [v|]; [|done].
  destruct (f v) as [v' r]. cbn [mbind outcome_bind].
  rewrite !(auto_lock_t_dtor_eq me w _ mu')
    by (cbn [mtxs set_mtxs set_objs]; by rewrite lookup_insert_eq).
  rewrite Hunlock. cbn [mbind outcome_bind].
  destruct σ as [os ms co]. unfold set_mtxs, set_objs. cbn [objs mtxs cout] in *.
  by rewrite !(mtxs_restore (Store os ms co) _ _ _ Hmu).
Qed.

(** X1: [w->f(...)] on a safe_ptr is [f] called on the wrapped value once
    the calling thread has the mutex: it is undefined without a mutex, it
    blocks while another thread holds the mutex, and otherwise it returns
    what the call on the raw pointer returns, with the mutex and the output
    as they were before; on a const safe_ptr the store is left as it was. *)
Theorem safe_ptr_call_atomic {T R R' : Type} (me : tid) (w : safe_ptr.t)
    (f : T → T * R) (g : T → R') (σ : store T) :
  safe_ptr_call me w f σ
    = guarded me (safe_ptr.mtx_ptr w) σ (call f (Ptr (safe_ptr.ptr w)) σ) ∧
  safe_ptr_call_const me w g σ
    = guarded me (safe_ptr.mtx_ptr w) σ
        (r ← call_const g (ConstPtr (safe_ptr.ptr w)) σ; Ret (r, σ)).
Proof. apply safe_ptr_call_eq. Qed.

Lemma proxy_ctor_eq {T} me (w : execute_around.t) (σ : store T) mu :
  mtxs σ !! execute_around.mtx w = Some mu →
  execute_around.proxy.ctor me (execute_around.p w) (execute_around.mtx w) σ =
  mu' ← recursive_mutex.lock me mu;
  Ret (execute_around.proxy.mk (unique_lock.mk (Some (execute_around.mtx w)) true)
         (execute_around.p w),
       print [locked_line] (set_mtxs (insert (execute_around.mtx w) mu') σ)).
Proof.
  intros Hmu. unfold execute_around.proxy.ctor, unique_lock.ctor. rewrite Hmu.
  by destruct (recursive_mutex.lock me mu).
Qed.

Lemma proxy_dtor_eq {T} me m p (σ : store T) mu :
  mtxs σ !! m = Some mu →
  execute_around.proxy.dtor me (execute_around.proxy.mk (unique_lock.mk (Some m) true) p) σ =
  mu' ← recursive_mutex.unlock me mu;
  Ret (print [unlocked_line] (set_mtxs (insert m mu') σ)).
Proof.
  intros Hmu. unfold execute_around.proxy.dtor, unique_lock.dtor.
  cbn [execute_around.proxy.lock unique_lock.owns unique_lock.pm mtxs print]. rewrite Hmu.
  by destruct (recursive_mutex.unlock me mu).
Qed.

Lemma proxy_ctor_no_mutex {T} me p m (σ : store T) :
  mtxs σ !! m = None → execute_around.proxy.ctor me p m σ = Fault.
Proof. intros Hmu. unfold execute_around.proxy.ctor, unique_lock.ctor. by rewrite Hmu. Qed.

Lemma execute_around_call_eq {T R R' : Type} (me : tid) (w : execute_around.t)
    (f : T → T * R) (g : T → R') (σ : store T) :
  execute_around_call me w f σ
    = guarded me (execute_around.mtx w) σ
        ('(r, σ1) ← call f (Ptr (execute_around.p w)) (print [locked_line] σ);
         Ret (r, print [unlocked_line] σ1)) ∧
  execute_around_call_const me w g σ
    = guarded me (execute_around.mtx w) σ
        (r ← call_const g (ConstPtr (execute_around.p w)) σ;
         Ret (r, print [locked_line; unlocked_line] σ)).
Proof.
  unfold execute_around_call, execute_around_call_const, guarded,
    execute_around.arrow, execute_around.arrow_const.
  destruct (mtxs σ !! execute_around.mtx w) as [mu|] eqn:Hmu;
    [|by rewrite proxy_ctor_no_mutex].
  rewrite (proxy_ctor_eq _ _ _ _ Hmu).
  destruct (available me mu) eqn:Ha; [|by rewrite unavailable_lock].
  destruct (available_lock _ _ Ha) as (mu' & -> & Hunlock & _).
  cbn [mbind outcome_bind]. unfold execute_around.proxy.arrow, execute_around.proxy.arrow_const.
  cbn [execute_around.proxy.p]. unfold call, call_const. cbn [objs set_mtxs print].
  destruct (objs σ !! execute_around.p w) as [v|]; [|done].
  destruct (f v) as [v' r]. cbn [mbind outcome_bind].
  rewrite !(proxy_dtor_eq me _ _ _ mu')
    by (cbn [mtxs set_mtxs set_objs print]; by rewrite lookup_insert_eq).
  rewrite Hunlock. cbn [mbind outcome_bind].
  destruct σ as [os ms co]. unfold set_mtxs, set_objs, print. cbn [objs mtxs cout] in *.
  rewrite !(mtxs_restore (Store os ms co) _ _ _ Hmu). by rewrite <- !app_assoc.
Qed.

(** X2: [w->f(...)] on an execute_around is [f] called on the wrapped
    value once the calling thread has the mutex, between the two lines the
    proxy writes: "locked" before the call, "unlocked" after it. When it
    returns the mutex is as before. Without a mutex the call is undefined,
    and while another thread holds the mutex it blocks. *)
Theorem execute_around_call_atomic {T R R' : Type} (me : tid) (w : execute_around.t)
    (f : T → T * R) (g : T → R') (σ : store T) :
  execute_around_call me w f σ
    = guarded me (execute_around.mtx w) σ
        ('(r, σ1) ← call f (Ptr (execute_around.p w)) (print [locked_line] σ);
         Ret (r, print [unlocked_line] σ1)) ∧
  execute_around_call_const me w g σ
    = guarded me (execute_around.mtx w) σ
        (r ← call_const g (ConstPtr (execute_around.p w)) σ;
         Ret (r, print [locked_line; unlocked_line] σ)).
Proof. apply execute_around_call_eq. Qed.

(** ** What a proxy writes *)

Lemma proxy_ctor_inv {T} me p m (σ σ1 : store T) a :
  execute_around.proxy.ctor me p m σ = Ret (a, σ1) →
  ∃ mu mu', mtxs σ !! m = Some mu ∧ recursive_mutex.lock me mu = Ret mu' ∧
    a = execute_around.proxy.mk (unique_lock.mk (Some m) true) p ∧
    σ1 = print [locked_line] (set_mtxs (insert m mu') σ).
Proof.
  unfold execute_around.proxy.ctor.
  destruct (unique_lock.ctor me m σ) as [[l σ0]| |] eqn:Hc; [|done..].
  apply unique_lock_ctor_inv in Hc as (-> & mu & mu' & Hmu & Hlock & ->).
  cbn [mbind outcome_bind]. intros [= <- <-]. by exists mu, mu'.
Qed.

(** X3: the locking constructor of a proxy writes "locked", its move
    constructor writes nothing, and its destructor writes "unlocked"
    whether or not the proxy still owns the lock. A proxy that is built,
    moved from and destroyed together with the proxy built from it, in
    either order, leaves one "locked" followed by two "unlocked" in the
    output; the mutex is released once, by the proxy that was moved to. *)
Theorem moved_proxy_writes_unlocked_twice {T : Type} (me : tid) (p m : loc)
    (σ σ1 : store T) (a : execute_around.proxy.t) :
  execute_around.proxy.ctor me p m σ = Ret (a, σ1) →
  let new := (execute_around.proxy.move a).1 in
  let old := (execute_around.proxy.move a).2 in
  cout σ1 = cout σ ++ [locked_line] ∧
  execute_around.proxy.dtor me old σ1 = Ret (print [unlocked_line] σ1) ∧
  execute_around.proxy.dtor me new (print [unlocked_line] σ1)
    = Ret (print [locked_line; unlocked_line; unlocked_line] σ) ∧
  ∃ σ2, execute_around.proxy.dtor me new σ1 = Ret σ2 ∧
        mtxs σ2 = mtxs σ ∧ cout σ2 = cout σ ++ [locked_line; unlocked_line] ∧
        execute_around.proxy.dtor me old σ2
          = Ret (print [locked_line; unlocked_line; unlocked_line] σ).
Proof.
  intros (mu & mu' & Hmu & Hlock & -> & ->)%proxy_ctor_inv new old.
  pose proof (lock_unlock _ _ _ Hlock) as Hunlock.
  subst new old. cbn [execute_around.proxy.move unique_lock.move fst snd
    execute_around.proxy.lock execute_around.proxy.p unique_lock.pm unique_lock.owns].
  split_and!.
  - done.
  - done.
  - rewrite (proxy_dtor_eq me _ _ _ mu')
      by (cbn [mtxs set_mtxs print]; by rewrite lookup_insert_eq).
    rewrite Hunlock. cbn [mbind outcome_bind]. f_equal.
    destruct σ as [os ms co]. unfold set_mtxs, print. cbn [objs mtxs cout] in *.
    rewrite (mtxs_restore (Store os ms co) _ _ _ Hmu). by rewrite <- !app_assoc.
  - eexists. split.
    { rewrite (proxy_dtor_eq me _ _ _ mu')
        by (cbn [mtxs set_mtxs print]; by rewrite lookup_insert_eq).
      rewrite Hunlock. cbn [mbind outcome_bind]. done. }
    cbn [mtxs cout set_mtxs print]. split_and!.
    + by apply mtxs_restore.
    + by rewrite <- app_assoc.
    + unfold execute_around.proxy.dtor, unique_lock.dtor.
      cbn [execute_around.proxy.lock unique_lock.owns]. f_equal.
      destruct σ as [os ms co]. unfold set_mtxs, print. cbn [objs mtxs cout] in *.
      rewrite (mtxs_restore (Store os ms co) _ _ _ Hmu). by rewrite <- !app_assoc.
Qed.

Lemma moved_proxy_writes_unlocked_twice_witness :
  execute_around.proxy.dtor 0 (execute_around.proxy.move vec_proxy).1
    (print [unlocked_line]
       (print [locked_line] (set_mtxs (insert 1%positive (recursive_mutex.Held 0 0)) vec_store)))
  = Ret (print [locked_line; unlocked_line; unlocked_line] vec_store).
Proof.
  exact (proj1 (proj2 (proj2 (moved_proxy_writes_unlocked_twice 0%nat 1%positive 1%positive
           vec_store _ vec_proxy eq_refl)))).
Defined.

(** ** The statements of func, one thread at a time *)

Lemma index_set_first_eq p l k s (σ : store map_t) m :
  objs σ !! p = Some m →
  index_set_first (safe_ptr.auto_lock_obj_t.mk p l) k s σ =
  Ret (set_objs (insert p (<[k := (s, counter k m)]> m)) σ).
Proof.
  intros Hm. unfold index_set_first, safe_ptr.auto_lock_obj_t.index, elem_read, elem_write.
  cbn [safe_ptr.auto_lock_obj_t.ptr]. rewrite Hm.
  cbn [subscript elem_get elem_set map_indexable mbind outcome_bind objs set_objs].
  rewrite lookup_insert_eq, map_subscript_lookup.
  assert (default (EmptyString, 0) (m !! k) = ((default (EmptyString, 0) (m !! k)).1, counter k m))
    as ->.
  { unfold counter. by destruct (m !! k) as [[]|]. }
  cbn [mbind outcome_bind objs set_objs].
  f_equal. unfold set_objs. cbn [objs mtxs cout]. f_equal.
  by rewrite insert_insert_eq, insert_map_subscript.
Qed.

Lemma assign_first_eq me w k s (σ : store map_t) :
  assign_first me w k s σ =
  guarded me (safe_ptr.mtx_ptr w) σ
    (match objs σ !! safe_ptr.ptr w with
     | None => Fault
     | Some m =>
         Ret (set_objs (insert (safe_ptr.ptr w) (<[k := (s, counter k m)]> m)) σ)
     end).
Proof.
  unfold assign_first, guarded.
  destruct (mtxs σ !! safe_ptr.mtx_ptr w) as [mu|] eqn:Hmu.
  2:{ unfold safe_ptr.deref, safe_ptr.auto_lock_obj_t.ctor.
      cbn [lk_ctor unique_lock_lockable]. unfold unique_lock.ctor. by rewrite Hmu. }
  rewrite (safe_ptr_deref_eq _ _ _ _ Hmu).
  destruct (available me mu) eqn:Ha; [|by rewrite unavailable_lock].
  destruct (available_lock _ _ Ha) as (mu' & -> & Hunlock & _).
  cbn [mbind outcome_bind].
  destruct (objs σ !! safe_ptr.ptr w) as [m|] eqn:Hm.
  2:{ unfold index_set_first, safe_ptr.auto_lock_obj_t.index.
      cbn [safe_ptr.auto_lock_obj_t.ptr objs set_mtxs]. by rewrite Hm. }
  rewrite (index_set_first_eq _ _ _ _ _ m) by done. cbn [mbind outcome_bind].
  rewrite (auto_lock_obj_t_dtor_eq me w _ mu')
    by (cbn [mtxs set_mtxs set_objs]; by rewrite lookup_insert_eq).
  rewrite Hunlock. cbn [mbind outcome_bind].
  destruct σ as [os ms co]. unfold set_mtxs, set_objs. cbn [objs mtxs cout] in *.
  by rewrite !(mtxs_restore (Store os ms co) _ _ _ Hmu).
Qed.

(** X4: [( *w)[k].first = s], for a thread that can take the mutex,
    replaces the first component of the element of key [k] and keeps its
    count; when the key is absent the element is created with count 0. The
    other elements, the mutex and the output are as before, and the same
    assignment made once more changes nothing. Without a mutex or a value
    the statement is undefined; while another thread holds the mutex it
    blocks. *)
Theorem assign_first_keeps_count (me : tid) (w : safe_ptr.t) (k s : string)
    (σ : store map_t) :
  assign_first me w k s σ =
    guarded me (safe_ptr.mtx_ptr w) σ
      (match objs σ !! safe_ptr.ptr w with
       | None => Fault
       | Some m =>
           Ret (set_objs (insert (safe_ptr.ptr w) (<[k := (s, counter k m)]> m)) σ)
       end) ∧
  (∀ m, objs σ !! safe_ptr.ptr w = Some m → m !! k = None → counter k m = 0) ∧
  (∀ m f z, objs σ !! safe_ptr.ptr w = Some m → m !! k = Some (f, z) → counter k m = z) ∧
  (∀ σ1, assign_first me w k s σ = Ret σ1 → assign_first me w k s σ1 = Ret σ1).
Proof.
  split_and!.
  - apply assign_first_eq.
  - intros m _ Hk. unfold counter. by rewrite Hk.
  - intros m f z _ Hk. unfold counter. by rewrite Hk.
  - intros σ1. rewrite !assign_first_eq. unfold guarded.
    destruct (mtxs σ !! safe_ptr.mtx_ptr w) as [mu|] eqn:Hmu; [|done].
    destruct (available me mu) eqn:Ha; [|done].
    destruct (objs σ !! safe_ptr.ptr w) as [m|] eqn:Hm; [|done].
    intros [= <-]. cbn [mtxs objs set_objs]. rewrite Hmu, Ha, lookup_insert_eq.
    f_equal. unfold set_objs. cbn [objs mtxs cout]. f_equal.
    rewrite insert_insert_eq. f_equal.
    rewrite counter_insert, decide_True by done. by rewrite insert_insert_eq.
Qed.

Section exec_equations.
Context (me : tid) (w : safe_ptr.t) (σ : store map_t).
Context (c : list instr) (ts : list temp) (r : Z) (ro : option safe_ptr.t).

Lemma exec_Deref mu mu' :
  mtxs σ !! safe_ptr.mtx_ptr w = Some mu → recursive_mutex.lock me mu = Ret mu' →
  exec me Deref (Thread c ts r w ro) σ =
  Ret (Thread c (TObj (safe_ptr.auto_lock_obj_t.mk (safe_ptr.ptr w) (owning_lock w)) :: ts)
         r w ro,
       set_mtxs (insert (safe_ptr.mtx_ptr w) mu') σ).
Proof.
  intros Hmu Hlock. cbn [exec safe_map_strings].
  by rewrite (safe_ptr_deref_eq _ _ _ _ Hmu), Hlock.
Qed.

Lemma exec_Arrow mu mu' :
  mtxs σ !! safe_ptr.mtx_ptr w = Some mu → recursive_mutex.lock me mu = Ret mu' →
  exec me Arrow (Thread c ts r w ro) σ =
  Ret (Thread c (TArrow (safe_ptr.auto_lock_t.mk (safe_ptr.ptr w) (owning_lock w)) :: ts)
         r w ro,
       set_mtxs (insert (safe_ptr.mtx_ptr w) mu') σ).
Proof.
  intros Hmu Hlock. cbn [exec safe_map_strings].
  by rewrite (safe_ptr_arrow_eq _ _ _ _ Hmu), Hlock.
Qed.

Lemma exec_ArrowConst mu mu' :
  mtxs σ !! safe_ptr.mtx_ptr w = Some mu → recursive_mutex.lock me mu = Ret mu' →
  exec me ArrowConst (Thread c ts r w (Some w)) σ =
  Ret (Thread c (TConst (safe_ptr.auto_lock_t.mk (safe_ptr.ptr w) (owning_lock w)) :: ts)
         r w (Some w),
       set_mtxs (insert (safe_ptr.mtx_ptr w) mu') σ).
Proof.
  intros Hmu Hlock. cbn [exec readonly_safe_map_string].
  by rewrite (safe_ptr_arrow_const_eq _ _ _ _ Hmu), Hlock.
Qed.

Lemma exec_IndexSetFirst p l k s m :
  objs σ !! p = Some m →
  exec me (IndexSetFirst k s) (Thread c (TObj (safe_ptr.auto_lock_obj_t.mk p l) :: ts) r w ro) σ =
  Ret (Thread c (TObj (safe_ptr.auto_lock_obj_t.mk p l) :: ts) r w ro,
       set_objs (insert p (<[k := (s, counter k m)]> m)) σ).
Proof.
  intros Hm. cbn [exec top_obj temps mbind outcome_bind].
  by rewrite (index_set_first_eq _ _ _ _ _ m).
Qed.

Lemma exec_AtLoad p l k m f z :
  objs σ !! p = Some m → m !! k = Some (f, z) →
  exec me (AtLoad k) (Thread c (TArrow (safe_ptr.auto_lock_t.mk p l) :: ts) r w ro) σ =
  Ret (Thread c (TArrow (safe_ptr.auto_lock_t.mk p l) :: ts) z w ro, σ).
Proof.
  intros Hm Hk. cbn [exec top_arrow temps mbind outcome_bind safe_ptr.auto_lock_t.arrow
    safe_ptr.auto_lock_t.ptr].
  unfold map_at, elem_read. cbn [mbind outcome_bind safe_ptr.auto_lock_t.arrow safe_ptr.auto_lock_t.arrow_const safe_ptr.auto_lock_t.ptr].
  rewrite Hm, decide_True by (by rewrite Hk).
  cbn [mbind outcome_bind elem_get map_indexable]. by rewrite ?Hm, Hk.
Qed.

Lemma exec_FindLoad p l k m f z :
  objs σ !! p = Some m → m !! k = Some (f, z) →
  exec me (FindLoad k) (Thread c (TArrow (safe_ptr.auto_lock_t.mk p l) :: ts) r w ro) σ =
  Ret (Thread c (TArrow (safe_ptr.auto_lock_t.mk p l) :: ts) z w ro, σ).
Proof.
  intros Hm Hk. cbn [exec top_arrow temps mbind outcome_bind safe_ptr.auto_lock_t.arrow
    safe_ptr.auto_lock_t.ptr].
  unfold map_find, elem_read. cbn [mbind outcome_bind safe_ptr.auto_lock_t.arrow safe_ptr.auto_lock_t.arrow_const safe_ptr.auto_lock_t.ptr].
  rewrite Hm, decide_True by (by rewrite Hk).
  cbn [mbind outcome_bind elem_get map_indexable]. by rewrite ?Hm, Hk.
Qed.

Lemma exec_StoreInc p l k m f z :
  objs σ !! p = Some m → m !! k = Some (f, z) →
  exec me (StoreInc k) (Thread c (TArrow (safe_ptr.auto_lock_t.mk p l) :: ts) r w ro) σ =
  Ret (Thread c (TArrow (safe_ptr.auto_lock_t.mk p l) :: ts) r w ro,
       set_objs (insert p (<[k := (f, int_wrap (r + 1))]> m)) σ).
Proof.
  intros Hm Hk. cbn [exec top_arrow temps mbind outcome_bind safe_ptr.auto_lock_t.arrow
    safe_ptr.auto_lock_t.ptr reg].
  unfold elem_read, elem_write. cbn [mbind outcome_bind safe_ptr.auto_lock_t.arrow safe_ptr.auto_lock_t.arrow_const safe_ptr.auto_lock_t.ptr].
  rewrite Hm.
  cbn [mbind outcome_bind elem_get elem_set map_indexable]. by rewrite Hk.
Qed.

Lemma exec_OutFirst p l k m f z :
  objs σ !! p = Some m → m !! k = Some (f, z) →
  exec me (OutFirst k) (Thread c (TConst (safe_ptr.auto_lock_t.mk p l) :: ts) r w ro) σ =
  Ret (Thread c (TConst (safe_ptr.auto_lock_t.mk p l) :: ts) r w ro, print [OStr f] σ).
Proof.
  intros Hm Hk. cbn [exec top_const temps mbind outcome_bind safe_ptr.auto_lock_t.arrow_const
    safe_ptr.auto_lock_t.ptr].
  unfold call_const, map_at_const. cbn [mbind outcome_bind safe_ptr.auto_lock_t.arrow safe_ptr.auto_lock_t.arrow_const safe_ptr.auto_lock_t.ptr].
  rewrite Hm. cbn [mbind outcome_bind]. by rewrite Hk.
Qed.

Lemma exec_OutSecond p l k m f z :
  objs σ !! p = Some m → m !! k = Some (f, z) →
  exec me (OutSecond k) (Thread c (TConst (safe_ptr.auto_lock_t.mk p l) :: ts) r w ro) σ =
  Ret (Thread c (TConst (safe_ptr.auto_lock_t.mk p l) :: ts) r w ro, print [OInt z] σ).
Proof.
  intros Hm Hk. cbn [exec top_const temps mbind outcome_bind safe_ptr.auto_lock_t.arrow_const
    safe_ptr.auto_lock_t.ptr].
  unfold call_const, map_at_const. cbn [mbind outcome_bind safe_ptr.auto_lock_t.arrow safe_ptr.auto_lock_t.arrow_const safe_ptr.auto_lock_t.ptr].
  rewrite Hm. cbn [mbind outcome_bind]. by rewrite Hk.
Qed.

Lemma exec_Release x mu mu' :
  lock_of x = owning_lock w →
  mtxs σ !! safe_ptr.mtx_ptr w = Some mu → recursive_mutex.unlock me mu = Ret mu' →
  exec me Release (Thread c (x :: ts) r w ro) σ =
  Ret (Thread c ts r w ro, set_mtxs (insert (safe_ptr.mtx_ptr w) mu') σ).
Proof.
  intros Hx Hmu Hunlock. cbn [exec temps].
  assert (destroy me x σ = unique_lock.dtor me (owning_lock w) σ) as ->.
  { destruct x as [[p l]|[p l]|[p l]]; simpl in Hx; by subst l. }
  by rewrite (unique_lock_dtor_eq _ _ _ _ Hmu), Hunlock.
Qed.
End exec_equations.

Lemma run_alone i c ts r w ro σ th' σ' s :
  exec 0 i (Thread c ts r w ro) σ = Ret (th', σ') →
  run (0%nat :: s) (State σ [Thread (i :: c) ts r w ro]) = run s (State σ' [th']).
Proof.
  intros H. unfold run at 1. fold run. unfold step. simpl. unfold set_code. simpl. rewrite H. reflexivity.
Qed.

Section alone.
Context (w : safe_ptr.t) (os : gmap loc map_t) (ms : gmap loc recursive_mutex.t).
Context (Hfree : ms !! safe_ptr.mtx_ptr w = Some recursive_mutex.Free).

Ltac alone lem := erewrite run_alone; [|lem].
Ltac acquire lem :=
  alone ltac:(eapply lem; [cbn [mtxs set_mtxs set_objs print]; first [exact Hfree|apply lookup_insert_eq]
                          |cbn [recursive_mutex.lock]; rewrite ?decide_True by done; reflexivity]).
Ltac release :=
  alone ltac:(eapply exec_Release;
                [reflexivity
                |cbn [mtxs set_mtxs set_objs print]; apply lookup_insert_eq
                |cbn [recursive_mutex.unlock]; rewrite decide_True by done; reflexivity]).
Ltac access lem Hm Hk :=
  alone ltac:(eapply lem; [cbn [objs set_mtxs set_objs print]; first [exact Hm|apply lookup_insert_eq]
                          |first [exact Hk|apply lookup_insert_eq]]).
Ltac same_state :=
  do 2 f_equal; unfold set_objs, set_mtxs, print; cbn [objs mtxs cout]; f_equal;
  rewrite ?insert_insert_eq; rewrite ?(insert_id ms _ _ Hfree); try done.

Lemma run_assign_first k s m c r ro co sch :
  os !! safe_ptr.ptr w = Some m →
  run (0 :: 0 :: 0 :: sch)%nat
      (State (Store os ms co) [Thread (Deref :: IndexSetFirst k s :: Release :: c) [] r w ro]) =
  run sch (State (Store (<[safe_ptr.ptr w := <[k := (s, counter k m)]> m]> os) ms co)
             [Thread c [] r w ro]).
Proof.
  intros Hm.
  acquire exec_Deref.
  alone ltac:(eapply exec_IndexSetFirst; exact Hm).
  release.
  same_state.
Qed.

Lemma run_increment_at k f z m c r ro co sch :
  os !! safe_ptr.ptr w = Some m → m !! k = Some (f, z) → - 2 ^ 31 ≤ z + 1 ≤ INT_MAX →
  run (0 :: 0 :: 0 :: 0 :: sch)%nat
      (State (Store os ms co) [Thread (Arrow :: AtLoad k :: StoreInc k :: Release :: c) [] r w ro]) =
  run sch (State (Store (<[safe_ptr.ptr w := <[k := (f, z + 1)]> m]> os) ms co)
             [Thread c [] z w ro]).
Proof.
  intros Hm Hk Hz.
  acquire exec_Arrow.
  access exec_AtLoad Hm Hk.
  access exec_StoreInc Hm Hk.
  release.
  rewrite int_wrap_small by done.
  same_state.
Qed.

Lemma run_increment_find k f z m c r ro co sch :
  os !! safe_ptr.ptr w = Some m → m !! k = Some (f, z) → - 2 ^ 31 ≤ z + 1 ≤ INT_MAX →
  run (0 :: 0 :: 0 :: 0 :: sch)%nat
      (State (Store os ms co) [Thread (Arrow :: FindLoad k :: StoreInc k :: Release :: c) [] r w ro]) =
  run sch (State (Store (<[safe_ptr.ptr w := <[k := (f, z + 1)]> m]> os) ms co)
             [Thread c [] z w ro]).
Proof.
  intros Hm Hk Hz.
  acquire exec_Arrow.
  access exec_FindLoad Hm Hk.
  access exec_StoreInc Hm Hk.
  release.
  rewrite int_wrap_small by done.
  same_state.
Qed.
End alone.

Lemma bump_more (m : map_t) (fa fp : string) (za zp : Z) (n : nat) :
  <["potato" := (fp, zp + 1 + Z.of_nat n)]>
    (<["apple" := (fa, za + 1 + Z.of_nat n)]>
       (<["potato" := (fp, zp + 1)]> (<["apple" := (fa, za + 1)]> m))) =
  <["potato" := (fp, zp + Z.of_nat (S n))]> (<["apple" := (fa, za + Z.of_nat (S n))]> m).
Proof.
  apply map_eq. intros k. rewrite !lookup_insert.
  replace (zp + Z.of_nat (S n)) with (zp + 1 + Z.of_nat n) by lia. replace (za + Z.of_nat (S n)) with (za + 1 + Z.of_nat n) by lia.
  by repeat case_decide.
Qed.

Lemma run_loop w ms n :
  ms !! safe_ptr.mtx_ptr w = Some recursive_mutex.Free →
  ∀ os m fa za fp zp c r ro co sch,
    os !! safe_ptr.ptr w = Some m →
    m !! "apple" = Some (fa, za) → m !! "potato" = Some (fp, zp) →
    - 2 ^ 31 ≤ za → za + Z.of_nat n ≤ INT_MAX → - 2 ^ 31 ≤ zp → zp + Z.of_nat n ≤ INT_MAX →
    ∃ r',
      run (replicate (length (mjoin (replicate n func_loop_body))) 0%nat ++ sch)
          (State (Store os ms co) [Thread (mjoin (replicate n func_loop_body) ++ c) [] r w ro]) =
      run sch
          (State (Store (<[safe_ptr.ptr w :=
                            <["potato" := (fp, zp + Z.of_nat n)]> (<["apple" := (fa, za + Z.of_nat n)]> m)]> os)
                        ms co)
             [Thread c [] r' w ro]).
Proof.
  intros Hfree. induction n as [|n IH]; intros os m fa za fp zp c r ro co sch Hm Ha Hp Hza Hza' Hzp Hzp'.
  - exists r. cbn [replicate mjoin length app list_join]. cbn [Z.of_nat]. rewrite !Z.add_0_r.
    by rewrite (insert_id m "apple"), (insert_id m "potato"), (insert_id os).
  - change (mjoin (replicate (S n) func_loop_body))
      with (func_loop_body ++ mjoin (replicate n func_loop_body)).
    rewrite length_app, replicate_add, <- !app_assoc.
    unfold func_loop_body at 1 3. cbn [length replicate app].
    rewrite (run_increment_at w os ms Hfree "apple" fa za m) by (done || lia).
    rewrite (run_increment_find w _ ms Hfree "potato" fp zp (<["apple" := (fa, za + 1)]> m));
      [|apply lookup_insert_eq|by rewrite lookup_insert_ne|lia].
    edestruct (IH (<[safe_ptr.ptr w := <["potato" := (fp, zp + 1)]> (<["apple" := (fa, za + 1)]> m)]>
                     (<[safe_ptr.ptr w := <["apple" := (fa, za + 1)]> m]> os))
                  (<["potato" := (fp, zp + 1)]> (<["apple" := (fa, za + 1)]> m))
                  fa (za + 1) fp (zp + 1) c zp ro co sch) as [r' Hr'];
      [apply lookup_insert_eq|by rewrite lookup_insert_ne, lookup_insert_eq
      |apply lookup_insert_eq|lia..|].
    exists r'. rewrite Hr'. do 3 f_equal.
    by rewrite !insert_insert_eq, bump_more.
Qed.

Section alone_print.
Context (p mm : loc) (os : gmap loc map_t) (ms : gmap loc recursive_mutex.t).
Context (Hfree : ms !! mm = Some recursive_mutex.Free).
Let w := safe_ptr.mk p mm.

Ltac alone lem :=
  erewrite run_alone; [|lem]; unfold set_mtxs, set_objs, print; cbn [objs mtxs cout].
Ltac acquire :=
  alone ltac:(eapply (exec_ArrowConst 0 w);
                [cbn [mtxs set_mtxs set_objs print]; first [exact Hfree|apply lookup_insert_eq]
                |cbn [recursive_mutex.lock]; rewrite ?decide_True by done; reflexivity]).
Ltac release :=
  alone ltac:(eapply (exec_Release 0 w);
                [reflexivity
                |cbn [mtxs set_mtxs set_objs print]; apply lookup_insert_eq
                |cbn [recursive_mutex.unlock]; rewrite decide_True by done; reflexivity]).
Ltac access lem Hm Hk :=
  alone ltac:(eapply lem; [cbn [objs set_mtxs set_objs print]; exact Hm|exact Hk]).
Ltac output := alone ltac:(reflexivity).

Lemma run_print m fa za fp zp r ro co :
  os !! p = Some m → m !! "apple" = Some (fa, za) → m !! "potato" = Some (fp, zp) →
  run (replicate 18 0%nat)
      (State (Store os ms co)
         [Thread [ CopyConst;
                   OutStr "potato is "; ArrowConst; OutFirst "potato";
                   OutStr " "; ArrowConst; OutSecond "potato";
                   OutStr ", apple is "; ArrowConst; OutFirst "apple";
                   OutStr " "; ArrowConst; OutSecond "apple";
                   OutEndl;
                   Release; Release; Release; Release ] [] r w ro]) =
  Ret (State (Store os ms (co ++ [ OStr "potato is "; OStr fp; OStr " "; OInt zp;
                                  OStr ", apple is "; OStr fa; OStr " "; OInt za; OEndl ]))
         [Thread [] [] r w (Some w)]).
Proof.
  intros Hm Ha Hp. cbn [replicate].
  output. unfold set_readonly, safe_ptr.copy, w.
  cbn [code temps reg safe_map_strings safe_ptr.ptr safe_ptr.mtx_ptr]. fold w.
  output. acquire. access exec_OutFirst Hm Hp.
  output. acquire. access exec_OutSecond Hm Hp.
  output. acquire. access exec_OutFirst Hm Ha.
  output. acquire. access exec_OutSecond Hm Ha.
  output.
  release. release. release. release.
  cbn [run]. do 3 f_equal.
  - rewrite !insert_insert_eq. by apply insert_id.
  - by rewrite <- !app_assoc.
Qed.
End alone_print.

(** X5: func called by one thread, alone, on a handle whose mutex is free
    and whose map holds counts that leave room for [iterations] more (the
    source iterates 10000 times): the thread runs to its end; apple gets
    the first component "fruit" and potato "vegetable", whatever they had;
    both counts grow by [iterations], from 0 when the key was absent; the
    other elements of the map, every other object and the mutex are as
    before; and the thread has written the one line that shows the two new
    counts. *)
Theorem func_alone (iterations : nat) (w : safe_ptr.t) (σ : store map_t) (m : map_t) :
  objs σ !! safe_ptr.ptr w = Some m →
  mtxs σ !! safe_ptr.mtx_ptr w = Some recursive_mutex.Free →
  (∀ k, k = "apple" ∨ k = "potato" →
        - 2 ^ 31 ≤ counter k m ∧ counter k m + Z.of_nat iterations ≤ INT_MAX) →
  let a := counter "apple" m + Z.of_nat iterations in
  let p := counter "potato" m + Z.of_nat iterations in
  ∃ r,
    call_func iterations w σ =
    Ret (State
           (Store (<[safe_ptr.ptr w :=
                      <["potato" := ("vegetable", p)]> (<["apple" := ("fruit", a)]> m)]> (objs σ))
                  (mtxs σ) (cout σ ++ func_line p a))
           [Thread [] [] r w (Some w)]).
Proof.
  destruct w as [p mm], σ as [os ms co]. cbn [objs mtxs cout safe_ptr.ptr safe_ptr.mtx_ptr].
  intros Hm Hfree Hroom.
  destruct (Hroom "apple") as [Ha1 Ha2]; [by left|].
  destruct (Hroom "potato") as [Hp1 Hp2]; [by right|].
  set (w := safe_ptr.mk p mm).
  unfold call_func, spawn, func. unfold safe_ptr.copy. cbn [safe_ptr.ptr safe_ptr.mtx_ptr]. fold w.
  rewrite !length_app, !replicate_add. cbn [length replicate app].
  rewrite (run_assign_first w os ms Hfree "apple" "fruit" m) by done.
  rewrite (run_assign_first w _ ms Hfree "potato" "vegetable" (<["apple" := ("fruit", counter "apple" m)]> m))
    by apply lookup_insert_eq.
  rewrite counter_insert, decide_False by done.
  edestruct (run_loop w ms iterations Hfree
               (<[p := <["potato" := ("vegetable", counter "potato" m)]>
                         (<["apple" := ("fruit", counter "apple" m)]> m)]>
                  (<[p := <["apple" := ("fruit", counter "apple" m)]> m]> os))
               (<["potato" := ("vegetable", counter "potato" m)]>
                  (<["apple" := ("fruit", counter "apple" m)]> m))
               "fruit" (counter "apple" m) "vegetable" (counter "potato" m))
    as [r Hr]; [apply lookup_insert_eq|by rewrite lookup_insert_ne, lookup_insert_eq
               |apply lookup_insert_eq|done..|].
  rewrite Hr. clear Hr.
  erewrite (run_print p mm _ ms Hfree);
    [|apply lookup_insert_eq|by rewrite lookup_insert_ne, lookup_insert_eq|apply lookup_insert_eq].
  exists r. do 3 f_equal. rewrite !insert_insert_eq. f_equal.
  apply map_eq. intros k. rewrite !lookup_insert. by repeat case_decide.
Qed.

Lemma func_alone_witness :
  ∃ r,
    call_func 2 (safe_ptr.mk 1 1) apple_store =
    Ret (State
           (Store {[ 1%positive := <["potato" := ("vegetable", 2)]>
                                     (<["apple" := ("fruit", 2)]> {[ "apple" := ("fruit", 0) ]}) ]}
                  {[ 1%positive := recursive_mutex.Free ]}
                  (func_line 2 2))
           [Thread [] [] r (safe_ptr.mk 1 1) (Some (safe_ptr.mk 1 1))]).
Proof.
  refine (func_alone 2 (safe_ptr.mk 1 1) apple_store {[ "apple" := ("fruit", 0) ]}
            eq_refl eq_refl _).
  intros k [->| ->]; split; by vm_compute.
Defined.

(** ** test_safe_ptr: who can move *)

Section waiting.
Context (me : tid) (σ : store map_t) (m : map_t) (o : tid) (n : nat).
Context (Hmu : mtxs σ !! gmtx = Some (recursive_mutex.Held o n)) (Hne : o ≠ me).

Lemma exec_waiter_outcome th i c :
  thread_ok m th → code th = i :: c → temps th = [] →
  if acquires i then exec me i (set_code c th) σ = Blocks
  else ∃ th' σ', exec me i (set_code c th) σ = Ret (th', σ').
Proof.
  intros (Hw & Hro & Htemps & ks & pend & Hwf & Hks & Hpend) Hcode Hts.
  destruct th as [code0 ts r w ro]; simpl in Hw, Hro, Htemps, Hwf, Hpend, Hcode, Hts.
  subst code0 w ts.
  destruct i; inversion Hwf; subst;
    cbn [acquires exec set_code temps code reg safe_map_strings readonly_safe_map_string].
  - by rewrite (deref_global _ _ _ Hmu), lock_other.
  - by rewrite (arrow_global _ _ _ Hmu), lock_other.
  - eauto.
  - destruct ro as [w|]; [|by inversion Hwf].
    pose proof (Hro w eq_refl) as ->.
    by rewrite (arrow_const_global _ _ _ Hmu), lock_other.
  - eauto.
  - eauto.
Qed.
End waiting.

Lemma inv_others_idle total st m mu me th :
  inv total st m mu → threads st !! me = Some th →
  mu = mutex_for me (length (temps th)) →
  ∀ other th', other ≠ me → threads st !! other = Some th' → temps th' = [].
Proof.
  intros Hinv Hth Hown other th' Hne Hth'.
  apply length_zero_iff_nil.
  eapply (held_ok_other other me); [done|by eapply inv_held|done].
Qed.

Lemma inv_step_outcome total st m mu me th i c :
  inv total st m mu → threads st !! me = Some th → code th = i :: c →
  (step me st = Blocks ∧ acquires i = true ∧
   ∃ other th', other ≠ me ∧ threads st !! other = Some th' ∧ temps th' ≠ []) ∨
  (∃ st', step me st = Ret st' ∧
     (acquires i = true →
      ∀ other th', other ≠ me → threads st !! other = Some th' → temps th' = [])).
Proof.
  intros Hinv Hth Hcode.
  pose proof Hinv as [Hobj Hmtx Hmap Hths Hheld Hholder Hcount Hmax].
  destruct (held_ok_owner _ _ _ (Hheld _ _ Hth)) as [Hown|(Hd & o & n & -> & Hne)].
  - right.
    destruct (exec_owner me (sto st) m mu Hobj Hmtx Hmap th i c) as (th' & σ' & m' & Hex & _);
      [by eapply Hths|done| |done|].
    { intros k. specialize (Hcount k). specialize (Hmax k).
      pose proof (sum_list_with_lookup_le (λ th, incs k (code th)) _ _ _ Hth) as Hle.
      unfold incs_left in Hcount. simpl in Hle. lia. }
    eexists. split.
    + unfold step. rewrite Hth, Hcode, Hex. reflexivity.
    + intros _. by eapply inv_others_idle.
  - apply length_zero_iff_nil in Hd.
    pose proof (exec_waiter_outcome me (sto st) m o n Hmtx Hne th i c (Hths _ _ Hth) Hcode Hd)
      as Hout.
    destruct (acquires i) eqn:Hacq.
    + left. split_and!; [|done|].
      * unfold step. by rewrite Hth, Hcode, Hout.
      * destruct (Hholder o n eq_refl) as [tho Hto]. exists o, tho. split_and!; [done..|].
        pose proof (Hheld _ _ Hto) as Hd'. simpl in Hd'. rewrite decide_True in Hd' by done.
        intros Hnil. by rewrite Hnil in Hd'.
    + right. destruct Hout as (th' & σ' & Hex). eexists. split; [|done].
      unfold step. rewrite Hth, Hcode, Hex. reflexivity.
Qed.

(** X6: in every state that test_safe_ptr reaches, under any schedule, a
    thread that has an instruction left either executes it or waits, and
    it waits exactly when the instruction takes the mutex (operator * or
    operator->) while another thread has an accessor alive. So no
    execution runs into an at() that throws, a find() that returns end(),
    an unlock of a mutex that is not held, or a missing object. *)
Theorem test_safe_ptr_never_faults (sched : list tid) (st : state) (me : tid)
    (th : thread) (i : instr) (c : list instr) :
  run sched test_safe_ptr = Ret st → threads st !! me = Some th → code th = i :: c →
  (step me st = Blocks ∧ acquires i = true ∧
   ∃ other th', other ≠ me ∧ threads st !! other = Some th' ∧ temps th' ≠ []) ∨
  (∃ st', step me st = Ret st' ∧
     (acquires i = true →
      ∀ other th', other ≠ me → threads st !! other = Some th' → temps th' = [])).
Proof.
  intros Hrun Hth Hcode.
  destruct (test_safe_ptr_run _ _ _ _ test_safe_ptr_max Hrun) as (m & mu & Hinv & _).
  by eapply inv_step_outcome.
Qed.

Lemma test_safe_ptr_never_faults_witness :
  (step 0 test_safe_ptr = Blocks ∧ acquires Deref = true ∧
   ∃ other th', other ≠ 0%nat ∧ threads test_safe_ptr !! other = Some th' ∧ temps th' ≠ []) ∨
  (∃ st', step 0 test_safe_ptr = Ret st' ∧
     (acquires Deref = true →
      ∀ other th', other ≠ 0%nat → threads test_safe_ptr !! other = Some th' → temps th' = [])).
Proof.
  exact (test_safe_ptr_never_faults [] test_safe_ptr 0%nat _ Deref _ eq_refl eq_refl eq_refl).
Defined.

(** ** test_safe_ptr: what a step leaves alone *)

Lemma same_shape_refl {T} (σ : store T) : same_shape σ σ.
Proof. by split. Qed.

Lemma same_shape_trans {T} (σ1 σ2 σ3 : store T) :
  same_shape σ1 σ2 → same_shape σ2 σ3 → same_shape σ1 σ3.
Proof. intros [? ?] [? ?]. split; congruence. Qed.

Lemma dom_insert_present {V} (k : loc) (v v' : V) (g : gmap loc V) :
  g !! k = Some v → dom (<[k := v']> g) = dom g.
Proof.
  intros Hk. rewrite dom_insert_L. apply elem_of_dom_2 in Hk.
  apply subseteq_union_1_L. by apply singleton_subseteq_l.
Qed.

Lemma unique_lock_ctor_frame {T} me m (σ σ' : store T) l :
  unique_lock.ctor me m σ = Ret (l, σ') →
  cout σ' = cout σ ∧ objs σ' = objs σ ∧ same_shape σ σ'.
Proof.
  intros (-> & mu & mu' & Hmu & _ & ->)%unique_lock_ctor_inv.
  split_and!; [done..|]. split; [done|]. cbn [mtxs set_mtxs]. by eapply dom_insert_present.
Qed.

Lemma unique_lock_dtor_frame {T} me l (σ σ' : store T) :
  unique_lock.dtor me l σ = Ret σ' →
  cout σ' = cout σ ∧ objs σ' = objs σ ∧ same_shape σ σ'.
Proof.
  unfold unique_lock.dtor. destruct (unique_lock.owns l).
  - destruct (unique_lock.pm l) as [m|]; [|done].
    destruct (mtxs σ !! m) as [mu|] eqn:Hmu; [|done].
    destruct (recursive_mutex.unlock me mu) as [mu'| |]; [|done..].
    cbn [mbind outcome_bind]. intros [= <-]. split_and!; [done..|].
    split; [done|]. cbn [mtxs set_mtxs]. by eapply dom_insert_present.
  - intros [= <-]. split_and!; [done..|]. apply same_shape_refl.
Qed.

Lemma destroy_frame me x (σ σ' : store map_t) :
  destroy me x σ = Ret σ' → cout σ' = cout σ ∧ objs σ' = objs σ ∧ same_shape σ σ'.
Proof. destruct x; apply unique_lock_dtor_frame. Qed.

Lemma elem_write_frame l k v (σ σ' : store map_t) :
  elem_write (ElemRef l k) v σ = Ret σ' →
  cout σ' = cout σ ∧ mtxs σ' = mtxs σ ∧ same_shape σ σ'.
Proof.
  unfold elem_write. destruct (objs σ !! l) as [c|] eqn:Hl; [|done].
  destruct (elem_get k c); [|done]. intros [= <-]. split_and!; [done..|].
  split; [|done]. cbn [objs set_objs]. by eapply dom_insert_present.
Qed.

Lemma index_set_first_frame a k s (σ σ' : store map_t) :
  index_set_first a k s σ = Ret σ' →
  cout σ' = cout σ ∧ mtxs σ' = mtxs σ ∧ same_shape σ σ'.
Proof.
  destruct a as [p l]. destruct (objs σ !! p) as [m|] eqn:Hm.
  - rewrite (index_set_first_eq _ _ _ _ _ m Hm). intros [= <-]. split_and!; [done..|].
    split; [|done]. cbn [objs set_objs]. by eapply dom_insert_present.
  - unfold index_set_first, safe_ptr.auto_lock_obj_t.index.
    cbn [safe_ptr.auto_lock_obj_t.ptr]. by rewrite Hm.
Qed.

Lemma accessor_ctor_frame me w (σ σ' : store map_t) :
  (∀ a, safe_ptr.deref (x_lock_t := unique_lock.t) me w σ = Ret (a, σ') →
        cout σ' = cout σ ∧ objs σ' = objs σ ∧ same_shape σ σ') ∧
  (∀ a, safe_ptr.arrow (x_lock_t := unique_lock.t) me w σ = Ret (a, σ') →
        cout σ' = cout σ ∧ objs σ' = objs σ ∧ same_shape σ σ') ∧
  (∀ a, safe_ptr.arrow_const (s_lock_t := unique_lock.t) me w σ = Ret (a, σ') →
        cout σ' = cout σ ∧ objs σ' = objs σ ∧ same_shape σ σ').
Proof.
  unfold safe_ptr.deref, safe_ptr.arrow, safe_ptr.arrow_const,
    safe_ptr.auto_lock_obj_t.ctor, safe_ptr.auto_lock_t.ctor.
  cbn [lk_ctor unique_lock_lockable].
  destruct (unique_lock.ctor me (safe_ptr.mtx_ptr w) σ) as [[l σ1]| |] eqn:Hc;
    cbn [mbind outcome_bind]; [|done..].
  apply unique_lock_ctor_frame in Hc.
  split_and!; by intros a [= <- <-].
Qed.

Ltac xcbn :=
  cbn [exec code temps reg safe_map_strings readonly_safe_map_string
       top_obj top_arrow top_const mbind outcome_bind].

Lemma exec_frame me i th σ th' σ' :
  exec me i th σ = Ret (th', σ') →
  code th' = code th ∧ same_shape σ σ' ∧
  ∃ l, cout σ' = cout σ ++ l ∧ ∀ z, OInt z ∈ l → ∃ k, i = OutSecond k.
Proof.
  assert (∀ (σ0 : store map_t) (x : out_item),
            (∀ z, x ≠ OInt z) →
            same_shape σ0 (print [x] σ0) ∧
            ∃ l, cout (print [x] σ0) = cout σ0 ++ l ∧ ∀ z, OInt z ∈ l → ∃ k, i = OutSecond k)
    as Hprint.
  { intros σ0 x Hx. split; [by split|]. exists [x]. split; [done|].
    intros z [= <-]%list_elem_of_singleton. by destruct (Hx z). }
  assert (∀ σ0 : store map_t, cout σ0 = cout σ → same_shape σ σ0 →
            same_shape σ σ0 ∧
            ∃ l, cout σ0 = cout σ ++ l ∧ ∀ z, OInt z ∈ l → ∃ k, i = OutSecond k)
    as Hsilent.
  { intros σ0 Hc Hs. split; [done|]. exists []. rewrite app_nil_r. split; [done|].
    intros z Hz. by apply elem_of_nil in Hz. }
  destruct th as [c ts r w ro]. destruct i; xcbn.
  - (* Deref *)
    destruct (safe_ptr.deref me w σ) as [[a σ1]| |] eqn:Hd; xcbn; [|done..].
    apply (proj1 (accessor_ctor_frame me w σ σ1)) in Hd as (? & ? & ?).
    intros [= <- <-]. split; [done|]. by apply Hsilent.
  - (* IndexSetFirst *)
    destruct ts as [|[a|a|a] ts]; xcbn; try done.
    destruct (index_set_first a k s σ) as [σ1| |] eqn:Hi; xcbn; [|done..].
    apply index_set_first_frame in Hi as (? & ? & ?).
    intros [= <- <-]. split; [done|]. by apply Hsilent.
  - (* Arrow *)
    destruct (safe_ptr.arrow me w σ) as [[a σ1]| |] eqn:Hd; xcbn; [|done..].
    apply (proj1 (proj2 (accessor_ctor_frame me w σ σ1))) in Hd as (? & ? & ?).
    intros [= <- <-]. split; [done|]. by apply Hsilent.
  - (* AtLoad *)
    destruct ts as [|[a|a|a] ts]; xcbn; try done.
    destruct (map_at k _ σ) as [e| |]; xcbn; [|done..].
    destruct (elem_read e σ) as [[f z]| |]; xcbn; [|done..].
    intros [= <- <-]. split; [done|]. apply Hsilent; [done|apply same_shape_refl].
  - (* FindLoad *)
    destruct ts as [|[a|a|a] ts]; xcbn; try done.
    destruct (map_find k _ σ) as [e| |]; xcbn; [|done..].
    destruct (elem_read e σ) as [[f z]| |]; xcbn; [|done..].
    intros [= <- <-]. split; [done|]. apply Hsilent; [done|apply same_shape_refl].
  - (* StoreInc *)
    destruct ts as [|[a|a|a] ts]; xcbn; try done.
    unfold safe_ptr.auto_lock_t.arrow.
    destruct (elem_read _ σ) as [[f z]| |]; xcbn; [|done..].
    destruct (elem_write _ _ σ) as [σ1| |] eqn:Hw; xcbn; [|done..].
    apply elem_write_frame in Hw as (? & ? & ?).
    intros [= <- <-]. split; [done|]. by apply Hsilent.
  - (* CopyConst *)
    intros [= <- <-]. split; [done|]. apply Hsilent; [done|apply same_shape_refl].
  - (* ArrowConst *)
    destruct ro as [w'|]; [|done].
    destruct (safe_ptr.arrow_const me w' σ) as [[a σ1]| |] eqn:Hd; xcbn; [|done..].
    apply (proj2 (proj2 (accessor_ctor_frame me w' σ σ1))) in Hd as (? & ? & ?).
    intros [= <- <-]. split; [done|]. by apply Hsilent.
  - (* OutStr *)
    intros [= <- <-]. split; [done|]. by apply Hprint.
  - (* OutFirst *)
    destruct ts as [|[a|a|a] ts]; xcbn; try done.
    destruct (call_const _ _ σ) as [[[f z]|]| |]; xcbn; [|done..].
    intros [= <- <-]. split; [done|]. by apply Hprint.
  - (* OutSecond *)
    destruct ts as [|[a|a|a] ts]; xcbn; try done.
    destruct (call_const _ _ σ) as [[[f z]|]| |]; xcbn; [|done..].
    intros [= <- <-]. split; [done|]. split; [by split|].
    exists [OInt z]. split; [done|]. eauto.
  - (* OutEndl *)
    intros [= <- <-]. split; [done|]. by apply Hprint.
  - (* Release *)
    destruct ts as [|x ts]; [done|].
    destruct (destroy me x σ) as [σ1| |] eqn:Hd; xcbn; [|done..].
    apply destroy_frame in Hd as (? & ? & ?).
    intros [= <- <-]. split; [done|]. by apply Hsilent.
Qed.

Lemma step_frame me st st' :
  step me st = Ret st' →
  ∃ th i th',
    threads st !! me = Some th ∧ code th = i :: code th' ∧
    threads st' = <[me := th']> (threads st) ∧
    same_shape (sto st) (sto st') ∧
    ∃ l, cout (sto st') = cout (sto st) ++ l ∧ ∀ z, OInt z ∈ l → ∃ k, i = OutSecond k.
Proof.
  unfold step. destruct (threads st !! me) as [th|] eqn:Hth; [|done].
  destruct (code th) as [|i c] eqn:Hcode; [done|].
  destruct (exec me i (set_code c th) (sto st)) as [[th' σ']| |] eqn:Hex; [|done..].
  cbn [mbind outcome_bind]. intros [= <-].
  apply exec_frame in Hex as (Hc & Hs & l & Hl & Hint).
  exists th, i, th'. cbn [sto threads]. split_and!; [done|by rewrite Hc|done|done|eauto].
Qed.

Lemma run_frame sched st st' :
  run sched st = Ret st' →
  length (threads st') = length (threads st) ∧
  (∀ t th', threads st' !! t = Some th' →
     ∃ th, threads st !! t = Some th ∧ code th' `suffix_of` code th) ∧
  same_shape (sto st) (sto st') ∧
  cout (sto st) `prefix_of` cout (sto st').
Proof.
  revert st. induction sched as [|me sched IH]; intros st; cbn [run].
  - intros [= <-]. split_and!; [done| |apply same_shape_refl|done].
    intros t th' ?. by exists th'.
  - destruct (step me st) as [st1| |] eqn:Hstep; [|done..]. cbn [mbind outcome_bind].
    intros (Hlen & Hsuf & Hshape & Hpre)%IH.
    apply step_frame in Hstep as (th & i & th1 & Hth & Hcode & Hths & Hs & l & Hl & _).
    split_and!.
    + by rewrite Hlen, Hths, length_insert.
    + intros t th' (th0 & Ht0 & Hsuf0)%Hsuf. rewrite Hths in Ht0.
      destruct (decide (t = me)) as [->|Hne].
      * rewrite list_lookup_insert_eq in Ht0 by (by eapply lookup_lt_Some).
        injection Ht0 as <-. exists th. split; [done|].
        etrans; [done|]. rewrite Hcode. by apply suffix_cons_r.
      * rewrite list_lookup_insert_ne in Ht0 by done. eauto.
    + by eapply same_shape_trans.
    + etrans; [|done]. rewrite Hl. by apply prefix_app_r.
Qed.

(** ** test_safe_ptr: what the threads write *)

Lemma incs_suffix k c1 c2 : c1 `suffix_of` c2 → (incs k c1 ≤ incs k c2)%nat.
Proof. intros [pre ->]. rewrite incs_app. lia. Qed.

Lemma loop_instr n i :
  i ∈ mjoin (replicate n func_loop_body) → i ∈ func_loop_body.
Proof.
  intros (l & Hi & Hl)%list_elem_of_join. by apply elem_of_replicate_inv in Hl as ->.
Qed.

Lemma func_before_print n i :
  i ∈ [ Deref; IndexSetFirst "apple" "fruit"; Release;
        Deref; IndexSetFirst "potato" "vegetable"; Release ]
      ++ mjoin (replicate n func_loop_body) →
  ∀ k, i ≠ OutSecond k.
Proof.
  intros [Hi|Hi%loop_instr]%elem_of_app k ->; unfold func_loop_body in *;
    repeat (apply elem_of_cons in Hi as [Hi|Hi]; [discriminate Hi|]);
    by apply elem_of_nil in Hi.
Qed.

Lemma func_suffix_out_second n k c :
  (OutSecond k :: c) `suffix_of` func n → ∀ k', incs k' (OutSecond k :: c) = 0%nat.
Proof.
  intros [pre Hpre] k'. unfold func in Hpre. rewrite app_assoc in Hpre.
  apply app_eq_inv in Hpre as [(j & H1 & H2)|(j & H1 & H2)].
  - destruct j as [|x j]; [discriminate H2|]. injection H2 as <- _.
    destruct (func_before_print n (OutSecond k)) with k; [|done].
    rewrite H1. apply elem_of_app. right. by left.
  - pose proof (f_equal (incs k') H2) as Hi. rewrite incs_app in Hi.
    cbn in Hi. cbn. lia.
Qed.

Lemma sum_list_with_bound {A} (f : A → nat) (l : list A) (b : nat) :
  (∀ x, x ∈ l → (f x ≤ b)%nat) → (sum_list_with f l ≤ length l * b)%nat.
Proof.
  induction l as [|x l IH]; intros Hb; [done|]. cbn [sum_list_with length].
  pose proof (Hb x ltac:(by left)). pose proof (IH (λ y Hy, Hb y ltac:(by right))). lia.
Qed.

Lemma incs_left_bound k ths t th b :
  ths !! t = Some th → incs k (code th) = 0%nat →
  (∀ th', th' ∈ ths → (incs k (code th') ≤ b)%nat) →
  (incs_left k ths + b ≤ length ths * b)%nat.
Proof.
  intros Ht H0 Hb. unfold incs_left.
  rewrite <- (take_drop_middle _ _ _ Ht) at 1 2.
  rewrite sum_list_with_app, length_app. cbn [sum_list_with length]. rewrite H0.
  pose proof (sum_list_with_bound (λ th, incs k (code th)) (take t ths) b) as H1.
  pose proof (sum_list_with_bound (λ th, incs k (code th)) (drop (S t) ths) b) as H2.
  assert (∀ x, x ∈ take t ths → x ∈ ths) as Hin1.
  { intros x Hx. rewrite <- (take_drop t ths). apply elem_of_app. by left. }
  assert (∀ x, x ∈ drop (S t) ths → x ∈ ths) as Hin2.
  { intros x Hx. rewrite <- (take_drop (S t) ths). apply elem_of_app. by right. }
  specialize (H1 (λ x Hx, Hb x (Hin1 x Hx))). specialize (H2 (λ x Hx, Hb x (Hin2 x Hx))).
  lia.
Qed.

Lemma test_safe_ptr_with_cout nthreads iterations :
  cout (sto (test_safe_ptr_with nthreads iterations)) = [].
Proof. reflexivity. Qed.

Lemma test_safe_ptr_with_threads nthreads iterations sched st t th :
  run sched (test_safe_ptr_with nthreads iterations) = Ret st →
  threads st !! t = Some th →
  length (threads st) = nthreads ∧ code th `suffix_of` func iterations.
Proof.
  intros (Hlen & Hsuf & _)%run_frame Ht. split.
  - rewrite Hlen. cbn [test_safe_ptr_with threads]. apply length_replicate.
  - destruct (Hsuf _ _ Ht) as (th0 & Ht0 & Hs).
    cbn [test_safe_ptr_with threads] in Ht0. by apply lookup_replicate in Ht0 as [-> _].
Qed.

Lemma total_firsts nthreads iterations k f :
  firsts !! k = Some f → total nthreads iterations k = (nthreads * iterations)%nat.
Proof.
  intros Hf. unfold total. rewrite incs_func.
  by destruct (firsts_keys _ _ Hf) as [[-> _]|[-> _]].
Qed.

Lemma printed_counts_bounded nthreads iterations sched st :
  Z.of_nat (nthreads * iterations) ≤ INT_MAX →
  run sched (test_safe_ptr_with nthreads iterations) = Ret st →
  ∀ z, OInt z ∈ cout (sto st) →
       Z.of_nat iterations ≤ z ≤ Z.of_nat (nthreads * iterations).
Proof.
  intros Hmax. revert st. induction sched as [|t sched IH] using rev_ind; intros st Hrun z Hz.
  - injection Hrun as <-. rewrite test_safe_ptr_with_cout in Hz. by apply elem_of_nil in Hz.
  - rewrite run_app in Hrun.
    destruct (run sched (test_safe_ptr_with nthreads iterations)) as [st0| |] eqn:Hrun0;
      [|done..].
    cbn [mbind outcome_bind run] in Hrun.
    destruct (step t st0) as [st1| |] eqn:Hstep; [|done..].
    cbn [mbind outcome_bind] in Hrun. injection Hrun as ->.
    pose proof Hstep as (th & i & th1 & Hth & Hcode & _ & _ & l & Hl & Hint)%step_frame.
    rewrite Hl in Hz. apply elem_of_app in Hz as [Hz|Hz]; [by eapply IH|].
    destruct (Hint z Hz) as [k ->].
    destruct (test_safe_ptr_run _ _ _ _ Hmax Hrun0) as (m & mu & Hinv & _).
    destruct (step_prints_final _ _ _ _ _ _ z Hinv Hstep) as (k' & f & Hf & Hk').
    { by rewrite Hl, drop_app_length. }
    pose proof (inv_count _ _ _ _ Hinv k') as Hc.
    rewrite (total_firsts _ _ _ _ Hf) in Hc.
    assert (counter k' m = z) as Hz' by (unfold counter; by rewrite Hk').
    destruct (test_safe_ptr_with_threads _ _ _ _ _ _ Hrun0 Hth) as [Hlen Hsuf].
    pose proof (incs_left_bound k' (threads st0) t th iterations Hth) as Hb.
    rewrite Hlen in Hb. split; [|lia].
    enough (incs_left k' (threads st0) + iterations ≤ nthreads * iterations)%nat by lia.
    apply Hb.
    + rewrite Hcode in Hsuf |- *. by eapply func_suffix_out_second.
    + intros th' (t' & Ht')%list_elem_of_lookup_1.
      destruct (test_safe_ptr_with_threads _ _ _ _ _ _ Hrun0 Ht') as [_ Hsuf'].
      etrans; [by apply incs_suffix|]. rewrite incs_func. repeat case_decide; lia.
Qed.

(** ** test_safe_ptr: apple is counted before potato *)

Lemma suffix_cons_cases {A} (s l : list A) (y : A) :
  s `suffix_of` y :: l → s = y :: l ∨ s `suffix_of` l.
Proof.
  destruct s as [|x s]; [right; apply suffix_nil|]. apply suffix_cons_inv.
Qed.

Lemma incs_print_suffix k c :
  c `suffix_of` [ CopyConst;
                  OutStr "potato is "; ArrowConst; OutFirst "potato";
                  OutStr " "; ArrowConst; OutSecond "potato";
                  OutStr ", apple is "; ArrowConst; OutFirst "apple";
                  OutStr " "; ArrowConst; OutSecond "apple";
                  OutEndl;
                  Release; Release; Release; Release ] →
  incs k c = 0%nat.
Proof. intros H%(incs_suffix k). cbn in H. lia. Qed.

Lemma incs_loop_print k n c :
  (∀ k, incs k c = 0%nat) →
  incs k (mjoin (replicate n func_loop_body) ++ c) =
  (if decide (k = "apple") then n else if decide (k = "potato") then n else 0)%nat.
Proof. intros Hc. rewrite incs_app, incs_loop, Hc. repeat case_decide; lia. Qed.

Lemma loop_suffix_order n c s :
  (∀ k, incs k c = 0%nat) →
  (∀ s', s' `suffix_of` c → ∀ k, incs k s' = 0%nat) →
  s `suffix_of` mjoin (replicate n func_loop_body) ++ c →
  (incs "apple" s ≤ incs "potato" s ≤ incs "apple" s + 1)%nat.
Proof.
  intros Hc Hsuf. induction n as [|n IH]; intros Hs.
  - cbn in Hs. rewrite !(Hsuf s Hs). lia.
  - change (mjoin (replicate (S n) func_loop_body))
      with (func_loop_body ++ mjoin (replicate n func_loop_body)) in Hs.
    rewrite <- app_assoc in Hs. unfold func_loop_body at 1 in Hs. cbn [app] in Hs.
    pose proof (incs_loop_print "apple" n c Hc) as Ha.
    pose proof (incs_loop_print "potato" n c Hc) as Hp.
    rewrite decide_True in Ha by done.
    rewrite decide_False, decide_True in Hp by done.
    repeat (apply suffix_cons_cases in Hs as [->|Hs];
            [cbn [incs]; rewrite Ha, Hp; repeat case_decide; try done; lia|]).
    by apply IH.
Qed.

Lemma func_suffix_order n s :
  s `suffix_of` func n →
  (incs "apple" s ≤ incs "potato" s ≤ incs "apple" s + 1)%nat.
Proof.
  unfold func. cbn [app]. intros Hs.
  assert (∀ c, c `suffix_of` mjoin (replicate n func_loop_body) ++
                 [ CopyConst;
                   OutStr "potato is "; ArrowConst; OutFirst "potato";
                   OutStr " "; ArrowConst; OutSecond "potato";
                   OutStr ", apple is "; ArrowConst; OutFirst "apple";
                   OutStr " "; ArrowConst; OutSecond "apple";
                   OutEndl;
                   Release; Release; Release; Release ] →
               (incs "apple" c ≤ incs "potato" c ≤ incs "apple" c + 1)%nat) as Hrest.
  { intros c. apply loop_suffix_order; [done|].
    intros s' Hs' k. by apply incs_print_suffix. }
  repeat (apply suffix_cons_cases in Hs as [->|Hs]; [cbn [incs]; by apply Hrest|]).
  by apply Hrest.
Qed.

Lemma sum_list_with_between {A} (f g : A → nat) (l : list A) :
  (∀ x, x ∈ l → (f x ≤ g x ≤ f x + 1)%nat) →
  (sum_list_with f l ≤ sum_list_with g l ≤ sum_list_with f l + length l)%nat.
Proof.
  induction l as [|x l IH]; intros Hb; [cbn; lia|]. cbn [sum_list_with length].
  pose proof (Hb x ltac:(by left)). pose proof (IH (λ y Hy, Hb y ltac:(by right))). lia.
Qed.

Lemma singleton_shape {V} (g : gmap loc V) (l : loc) (v : V) :
  dom g = {[ l ]} → g !! l = Some v → g = {[ l := v ]}.
Proof.
  intros Hd Hl. apply map_eq. intros l'. destruct (decide (l' = l)) as [->|Hne].
  - by rewrite lookup_singleton_eq.
  - rewrite lookup_singleton_ne by done. apply not_elem_of_dom. rewrite Hd.
    by apply not_elem_of_singleton.
Qed.

Lemma test_safe_ptr_with_shape nthreads iterations sched st m mu :
  run sched (test_safe_ptr_with nthreads iterations) = Ret st →
  inv (total nthreads iterations) st m mu →
  objs (sto st) = {[ gptr := m ]} ∧ mtxs (sto st) = {[ gmtx := mu ]}.
Proof.
  intros (_ & _ & [Ho Hm] & _)%run_frame Hinv. split.
  - apply singleton_shape; [|by eapply inv_obj]. rewrite Ho. reflexivity.
  - apply singleton_shape; [|by eapply inv_mtx]. rewrite Hm. reflexivity.
Qed.

Lemma reachable_map nthreads iterations sched st :
  Z.of_nat (nthreads * iterations) ≤ INT_MAX →
  run sched (test_safe_ptr_with nthreads iterations) = Ret st →
  ∃ m mu,
    objs (sto st) = {[ gptr := m ]} ∧ mtxs (sto st) = {[ gmtx := mu ]} ∧
    (∀ k f z, m !! k = Some (f, z) →
       ((k = "apple" ∧ f = "fruit") ∨ (k = "potato" ∧ f = "vegetable")) ∧
       0 ≤ z ≤ Z.of_nat (nthreads * iterations)) ∧
    counter "potato" m ≤ counter "apple" m ≤ counter "potato" m + Z.of_nat nthreads.
Proof.
  intros Hmax Hrun.
  destruct (test_safe_ptr_run _ _ _ _ Hmax Hrun) as (m & mu & Hinv & _).
  destruct (test_safe_ptr_with_shape _ _ _ _ _ _ Hrun Hinv) as [Ho Hm].
  exists m, mu. split; [done|]. split; [done|]. split.
  - intros k f z Hk. destruct (inv_map _ _ _ _ Hinv _ _ _ Hk) as [Hf Hz].
    split; [by apply firsts_keys|]. split; [done|].
    pose proof (inv_count _ _ _ _ Hinv k) as Hc. rewrite (total_firsts _ _ _ _ Hf) in Hc.
    unfold counter in Hc. rewrite Hk in Hc. lia.
  - pose proof (inv_count _ _ _ _ Hinv "apple") as Ha.
    pose proof (inv_count _ _ _ _ Hinv "potato") as Hp.
    rewrite (total_firsts _ _ _ _ firsts_apple) in Ha.
    rewrite (total_firsts _ _ _ _ firsts_potato) in Hp.
    pose proof (sum_list_with_between (λ th, incs "apple" (code th))
                  (λ th, incs "potato" (code th)) (threads st)) as Hb.
    assert (length (threads st) = nthreads) as Hlen.
    { apply run_frame in Hrun as (-> & _). cbn [test_safe_ptr_with threads].
      apply length_replicate. }
    rewrite Hlen in Hb. unfold incs_left in Ha, Hp.
    enough (sum_list_with (λ th, incs "apple" (code th)) (threads st)
            ≤ sum_list_with (λ th, incs "potato" (code th)) (threads st)
            ≤ sum_list_with (λ th, incs "apple" (code th)) (threads st) + nthreads)%nat by lia.
    apply Hb. intros th (t & Ht)%list_elem_of_lookup_1.
    apply func_suffix_order with iterations.
    by destruct (test_safe_ptr_with_threads _ _ _ _ _ _ Hrun Ht).
Qed.

Lemma finished_store nthreads iterations sched st :
  Z.of_nat (nthreads * iterations) ≤ INT_MAX → (0 < nthreads * iterations)%nat →
  run sched (test_safe_ptr_with nthreads iterations) = Ret st → finished st →
  objs (sto st) =
    {[ gptr := {[ "apple" := ("fruit", Z.of_nat (nthreads * iterations));
                  "potato" := ("vegetable", Z.of_nat (nthreads * iterations)) ]} ]} ∧
  mtxs (sto st) = {[ gmtx := recursive_mutex.Free ]} ∧
  Forall (λ th, temps th = []) (threads st).
Proof.
  intros Hmax Hpos Hrun Hfin.
  destruct (test_safe_ptr_run _ _ _ _ Hmax Hrun) as (m & mu & Hinv & _).
  destruct (test_safe_ptr_with_shape _ _ _ _ _ _ Hrun Hinv) as [Ho Hm].
  pose proof (inv_finished_free _ _ _ _ Hinv Hfin) as ->.
  rewrite (inv_final_map _ _ _ _ _ Hinv (finished_increments_done _ Hfin) Hpos) in Ho.
  split_and!; [done..|].
  apply Forall_lookup. intros t th Ht. apply length_zero_iff_nil.
  by pose proof (inv_held _ _ _ _ Hinv _ _ Ht) as Hd.
Qed.

Lemma test_safe_ptr_total : Z.of_nat (10 * Z.to_nat 10000) = 100000.
Proof. by vm_compute. Qed.

Lemma test_safe_ptr_iterations : Z.of_nat (Z.to_nat 10000) = 10000.
Proof. by vm_compute. Qed.

(** X7: in every state that the threads of test_safe_ptr reach, under any
    schedule, the store holds the one map of safe_map_strings_global and
    its one mutex and nothing else; the map has no keys but apple and
    potato, with first components "fruit" and "vegetable" (an element is
    never seen with its first component still empty) and counts from 0 to
    the number of threads times the number of iterations; and apple's
    count is at least potato's and exceeds it by at most the number of
    threads, each thread incrementing apple before potato. For the
    source's ten threads and 10000 iterations: counts up to 100000, apple
    ahead of potato by at most 10. *)
Theorem test_safe_ptr_map_invariant :
  (∀ (nthreads iterations : nat) (sched : list tid) (st : state),
     Z.of_nat (nthreads * iterations) ≤ INT_MAX →
     run sched (test_safe_ptr_with nthreads iterations) = Ret st →
     ∃ m mu,
       objs (sto st) = {[ gptr := m ]} ∧ mtxs (sto st) = {[ gmtx := mu ]} ∧
       (∀ k f z, m !! k = Some (f, z) →
          ((k = "apple" ∧ f = "fruit") ∨ (k = "potato" ∧ f = "vegetable")) ∧
          0 ≤ z ≤ Z.of_nat (nthreads * iterations)) ∧
       counter "potato" m ≤ counter "apple" m ≤ counter "potato" m + Z.of_nat nthreads) ∧
  (∀ (sched : list tid) (st : state),
     run sched test_safe_ptr = Ret st →
     ∃ m mu,
       objs (sto st) = {[ gptr := m ]} ∧ mtxs (sto st) = {[ gmtx := mu ]} ∧
       (∀ k f z, m !! k = Some (f, z) →
          ((k = "apple" ∧ f = "fruit") ∨ (k = "potato" ∧ f = "vegetable")) ∧
          0 ≤ z ≤ 100000) ∧
       counter "potato" m ≤ counter "apple" m ≤ counter "potato" m + 10).
Proof.
  split; [exact reachable_map|]. intros sched st Hrun.
  destruct (reachable_map _ _ _ _ test_safe_ptr_max Hrun) as (m & mu & Ho & Hm & Hk & Hc).
  rewrite test_safe_ptr_total in Hk. by exists m, mu.
Qed.

Lemma test_safe_ptr_map_invariant_witness :
  ∃ m mu,
    objs (sto small_final) = {[ gptr := m ]} ∧ mtxs (sto small_final) = {[ gmtx := mu ]} ∧
    (∀ k f z, m !! k = Some (f, z) →
       ((k = "apple" ∧ f = "fruit") ∨ (k = "potato" ∧ f = "vegetable")) ∧
       0 ≤ z ≤ Z.of_nat (2 * 3)) ∧
    counter "potato" m ≤ counter "apple" m ≤ counter "potato" m + Z.of_nat 2.
Proof.
  refine (proj1 test_safe_ptr_map_invariant 2%nat 3%nat small_schedule small_final _ _);
    by vm_compute.
Defined.

(** X8: every count that a thread of test_safe_ptr writes, under any
    schedule, lies between the number of iterations (the thread writes
    after its own increments) and the number of threads times the number
    of iterations. For the source's ten threads and 10000 iterations:
    between 10000 and 100000. *)
Theorem test_safe_ptr_prints_between :
  (∀ (nthreads iterations : nat) (sched : list tid) (st : state) (z : Z),
     Z.of_nat (nthreads * iterations) ≤ INT_MAX →
     run sched (test_safe_ptr_with nthreads iterations) = Ret st →
     OInt z ∈ cout (sto st) →
     Z.of_nat iterations ≤ z ≤ Z.of_nat (nthreads * iterations)) ∧
  (∀ (sched : list tid) (st : state) (z : Z),
     run sched test_safe_ptr = Ret st → OInt z ∈ cout (sto st) → 10000 ≤ z ≤ 100000).
Proof.
  split.
  - intros nthreads iterations sched st z Hmax Hrun Hz. by eapply printed_counts_bounded.
  - intros sched st z Hrun Hz.
    pose proof (printed_counts_bounded _ _ _ _ test_safe_ptr_max Hrun z Hz) as H.
    by rewrite test_safe_ptr_total, test_safe_ptr_iterations in H.
Qed.

Lemma test_safe_ptr_prints_between_witness :
  OInt 4 ∈ cout (sto small_final) ∧ Z.of_nat 3 ≤ 4 ≤ Z.of_nat (2 * 3).
Proof.
  assert (OInt 4 ∈ cout (sto small_final)) as Hin.
  { vm_compute. repeat constructor. }
  split; [exact Hin|].
  refine (proj1 test_safe_ptr_prints_between 2%nat 3%nat small_schedule small_final 4 _ _ Hin);
    by vm_compute.
Defined.

(** X9: every schedule that runs the threads of test_safe_ptr to their end
    leaves the same heap: the map is apple -> ("fruit", n) and potato ->
    ("vegetable", n), n the number of threads times the number of
    iterations (100000 in the source), the mutex is free, nothing else has
    been allocated and no accessor is left alive. Such schedules exist. *)
Theorem test_safe_ptr_final_store :
  (∀ (nthreads iterations : nat) (sched : list tid) (st : state),
     Z.of_nat (nthreads * iterations) ≤ INT_MAX → (0 < nthreads * iterations)%nat →
     run sched (test_safe_ptr_with nthreads iterations) = Ret st → finished st →
     objs (sto st) =
       {[ gptr := {[ "apple" := ("fruit", Z.of_nat (nthreads * iterations));
                     "potato" := ("vegetable", Z.of_nat (nthreads * iterations)) ]} ]} ∧
     mtxs (sto st) = {[ gmtx := recursive_mutex.Free ]} ∧
     Forall (λ th, temps th = []) (threads st)) ∧
  (∃ sched st, run sched test_safe_ptr = Ret st ∧ finished st) ∧
  (∀ (sched : list tid) (st : state),
     run sched test_safe_ptr = Ret st → finished st →
     objs (sto st) =
       {[ gptr := {[ "apple" := ("fruit", 100000); "potato" := ("vegetable", 100000) ]} ]} ∧
     mtxs (sto st) = {[ gmtx := recursive_mutex.Free ]} ∧
     Forall (λ th, temps th = []) (threads st)).
Proof.
  split_and!; [exact finished_store|exact test_safe_ptr_complete|].
  intros sched st Hrun Hfin.
  pose proof (finished_store _ _ _ _ test_safe_ptr_max test_safe_ptr_pos Hrun Hfin) as H.
  by rewrite test_safe_ptr_total in H.
Qed.

Lemma test_safe_ptr_final_store_witness :
  objs (sto small_final) =
    {[ gptr := {[ "apple" := ("fruit", Z.of_nat (2 * 3));
                  "potato" := ("vegetable", Z.of_nat (2 * 3)) ]} ]} ∧
  mtxs (sto small_final) = {[ gmtx := recursive_mutex.Free ]} ∧
  Forall (λ th, temps th = []) (threads small_final).
Proof.
  refine (proj1 test_safe_ptr_final_store 2%nat 3%nat small_schedule small_final _ _ _ _).
  - by vm_compute.
  - apply Nat.lt_0_succ.
  - by vm_compute.
  - repeat constructor.
Defined.

(** ** test_safe_ptr: the last line of the output *)

Lemma wf_balance s ks pend ro c :
  wf s ks pend ro c → (length s + built c = destroyed c)%nat.
Proof. induction 1; cbn [length built destroyed acquires] in *; lia. Qed.

Lemma func_print_section n :
  func n =
  ([ Deref; IndexSetFirst "apple" "fruit"; Release;
     Deref; IndexSetFirst "potato" "vegetable"; Release ]
   ++ mjoin (replicate n func_loop_body) ++ [CopyConst; OutStr "potato is "])
  ++ print_section.
Proof. unfold func. by rewrite <- !app_assoc. Qed.

Lemma func_long n : (16 < length (func n))%nat.
Proof. rewrite func_print_section, !length_app. cbn [length print_section]. lia. Qed.

Lemma suffix_short n c :
  c `suffix_of` func n → (length c ≤ 16)%nat → c = drop (16 - length c) print_section.
Proof.
  intros [k Hk] Hlen. rewrite func_print_section in Hk.
  apply app_eq_inv in Hk as [(j & H1 & H2)|(j & H1 & H2)].
  - subst c. rewrite length_app in Hlen. cbn [length print_section] in Hlen.
    destruct j; [|cbn in Hlen; lia]. reflexivity.
  - pose proof (f_equal length H2) as Hl.
    rewrite length_app in Hl. cbn [length print_section] in Hl.
    replace (16 - length c)%nat with (length j) by lia.
    rewrite H2. by rewrite drop_app_length.
Qed.

Lemma print_section_holds j :
  (1 ≤ j ≤ 15)%nat →
  (built (drop (16 - j) print_section) < destroyed (drop (16 - j) print_section))%nat.
Proof.
  intros Hj. do 16 (destruct j as [|j]; [cbn; lia|]). lia.
Qed.

Lemma inv_holds_accessor total st m mu t th :
  inv total st m mu → threads st !! t = Some th →
  (built (code th) < destroyed (code th))%nat → temps th ≠ [].
Proof.
  intros Hinv Ht Hlt Hnil.
  destruct (inv_threads _ _ _ _ Hinv _ _ Ht) as (_ & _ & _ & ks & pend & Hwf & _).
  apply wf_balance in Hwf. rewrite Hnil in Hwf. cbn in Hwf. lia.
Qed.

Lemma last_running_back n total st' m' mu' u st t j :
  inv total st' m' mu' →
  (∀ v th, threads st' !! v = Some th → code th `suffix_of` func n) →
  step u st' = Ret st → last_running t j st → (1 ≤ j ≤ 15)%nat →
  u = t ∧ last_running t (S j) st'.
Proof.
  intros Hinv Hsuf Hstep [(th_t & Ht & Hcode) Hothers] Hj.
  pose proof Hstep as (th_u & i & th_u' & Hu & Hcu & Hths & _)%step_frame.
  assert (u < length (threads st'))%nat as Hlt by (by eapply lookup_lt_Some).
  destruct (decide (u = t)) as [->|Hne].
  - split; [done|]. rewrite Hths, list_lookup_insert_eq in Ht by done. injection Ht as ->.
    split.
    + exists th_u. split; [done|].
      pose proof (Hsuf _ _ Hu) as Hs. apply suffix_short in Hs.
      * rewrite Hs. f_equal. rewrite Hcu. cbn [length]. rewrite Hcode, length_drop.
        cbn [length print_section]. lia.
      * rewrite Hcu. cbn [length]. rewrite Hcode, length_drop. cbn [length print_section]. lia.
    + intros v th Hv Hth. apply (Hothers v th Hv). rewrite Hths.
      by rewrite list_lookup_insert_ne.
  - exfalso. apply Hne.
    assert (threads st !! u = Some th_u') as Hu'.
    { rewrite Hths. by apply list_lookup_insert_eq. }
    pose proof (Hothers _ _ Hne Hu') as Hnil. rewrite Hnil in Hcu.
    pose proof (Hsuf _ _ Hu) as Hs. apply suffix_short in Hs; [|rewrite Hcu; cbn; lia].
    rewrite Hths, list_lookup_insert_ne in Ht by done.
    apply (inv_mutual_exclusion _ _ _ _ u t th_u th_t Hinv Hu Ht).
    + eapply inv_holds_accessor; [done..|]. rewrite Hs, Hcu. cbn. lia.
    + eapply inv_holds_accessor; [done..|]. rewrite Hcode. by apply print_section_holds.
Qed.

Lemma last_running_first n nthreads s t st0 st :
  run s (test_safe_ptr_with nthreads n) = Ret st0 → step t st0 = Ret st → finished st →
  last_running t 1 st0.
Proof.
  intros Hrun Hstep Hfin. unfold finished in Hfin. rewrite Forall_lookup in Hfin.
  pose proof Hstep as (th & i & th' & Ht & Hcode & Hths & _)%step_frame.
  assert (t < length (threads st0))%nat as Hlt by (by eapply lookup_lt_Some).
  split.
  - exists th. split; [done|].
    assert (code th' = []) as Hnil.
    { apply (Hfin t). rewrite Hths. by apply list_lookup_insert_eq. }
    rewrite Hnil in Hcode.
    destruct (test_safe_ptr_with_threads _ _ _ _ _ _ Hrun Ht) as [_ Hs].
    apply suffix_short in Hs; [|rewrite Hcode; cbn; lia].
    rewrite Hs, Hcode. reflexivity.
  - intros u thu Hne Hu. apply (Hfin u). rewrite Hths. by rewrite list_lookup_insert_ne.
Qed.

Lemma last_running_started n nthreads t j :
  (j ≤ 16)%nat → ¬ last_running t j (test_safe_ptr_with nthreads n).
Proof.
  intros Hj [(th & Ht & Hcode) _]. cbn [test_safe_ptr_with threads] in Ht.
  apply lookup_replicate in Ht as [-> _]. cbn [spawn code] in Hcode.
  pose proof (func_long n) as Hl. rewrite Hcode, length_drop in Hl.
  cbn [length print_section] in Hl. lia.
Qed.

Lemma last_steps n nthreads sched st j :
  Z.of_nat (nthreads * n) ≤ INT_MAX → (0 < nthreads)%nat →
  run sched (test_safe_ptr_with nthreads n) = Ret st → finished st →
  (j < 16)%nat →
  ∃ s t st0, sched = s ++ replicate (S j) t ∧
    run s (test_safe_ptr_with nthreads n) = Ret st0 ∧ last_running t (S j) st0.
Proof.
  intros Hmax Hpos Hrun Hfin. induction j as [|j IH]; intros Hj.
  - destruct sched as [|t s _] using rev_ind.
    + cbn [run] in Hrun. injection Hrun as <-. exfalso.
      unfold finished in Hfin. cbn [test_safe_ptr_with threads] in Hfin.
      destruct nthreads as [|k]; [lia|]. cbn [replicate] in Hfin.
      apply Forall_inv in Hfin as Hnil. cbn [spawn code] in Hnil.
      pose proof (func_long n) as Hl. rewrite Hnil in Hl. cbn in Hl. lia.
    + rewrite run_app in Hrun.
      destruct (run s (test_safe_ptr_with nthreads n)) as [st0| |] eqn:Hs; [|done..].
      cbn [mbind outcome_bind run] in Hrun.
      destruct (step t st0) as [st1| |] eqn:Hstep; [|done..].
      cbn [mbind outcome_bind] in Hrun. injection Hrun as ->.
      exists s, t, st0. split_and!; [done..|]. by eapply last_running_first.
  - destruct IH as (s & t & st0 & -> & Hs & Hlast); [lia|].
    destruct s as [|u s _] using rev_ind.
    + cbn [run] in Hs. injection Hs as <-. exfalso.
      by eapply (last_running_started n nthreads t (S j)); [lia|].
    + rewrite run_app in Hs.
      destruct (run s (test_safe_ptr_with nthreads n)) as [st'| |] eqn:Hs'; [|done..].
      cbn [mbind outcome_bind run] in Hs.
      destruct (step u st') as [st1| |] eqn:Hstep; [|done..].
      cbn [mbind outcome_bind] in Hs. injection Hs as ->.
      destruct (test_safe_ptr_run _ _ _ _ Hmax Hs') as (m' & mu' & Hinv & _).
      destruct (last_running_back n _ st' m' mu' u st0 t (S j) Hinv) as [-> Hlast'];
        [|done..|lia|].
      { intros v th Hv. by destruct (test_safe_ptr_with_threads _ _ _ _ _ _ Hs' Hv). }
      exists s, t, st'. split_and!; [|done..]. by rewrite <- app_assoc.
Qed.

Lemma run_thread t ths i c ts r w ro σ th' σ' s :
  (t < length ths)%nat →
  exec t i (Thread c ts r w ro) σ = Ret (th', σ') →
  run (t :: s) (State σ (<[t := Thread (i :: c) ts r w ro]> ths)) =
  run s (State σ' (<[t := th']> ths)).
Proof.
  intros Hlt H. cbn [run]. unfold step. cbn [threads sto].
  rewrite list_lookup_insert_eq by done. cbn [code]. unfold set_code. cbn [temps reg
    safe_map_strings readonly_safe_map_string]. rewrite H. cbn [mbind outcome_bind].
  by rewrite list_insert_insert_eq.
Qed.

Section last_line_run.
Context (t : tid) (ths : list thread) (Hlt : (t < length ths)%nat).
Context (p mm : loc) (os : gmap loc map_t) (ms : gmap loc recursive_mutex.t).
Context (Hfree : ms !! mm = Some recursive_mutex.Free).
Let w := safe_ptr.mk p mm.

Ltac thread lem :=
  erewrite run_thread; [|exact Hlt|lem]; unfold set_mtxs, set_objs, print; cbn [objs mtxs cout].
Ltac acquire :=
  thread ltac:(eapply (exec_ArrowConst t w);
                [cbn [mtxs set_mtxs set_objs print]; first [exact Hfree|apply lookup_insert_eq]
                |cbn [recursive_mutex.lock]; rewrite ?decide_True by done; reflexivity]).
Ltac release :=
  thread ltac:(eapply (exec_Release t w);
                [reflexivity
                |cbn [mtxs set_mtxs set_objs print]; apply lookup_insert_eq
                |cbn [recursive_mutex.unlock]; rewrite decide_True by done; reflexivity]).
Ltac access lem Hm Hk :=
  thread ltac:(eapply lem; [cbn [objs set_mtxs set_objs print]; exact Hm|exact Hk]).
Ltac output := thread ltac:(reflexivity).

Lemma run_print_section m fa za fp zp r co :
  os !! p = Some m → m !! "apple" = Some (fa, za) → m !! "potato" = Some (fp, zp) →
  run (replicate 16 t)
      (State (Store os ms co) (<[t := Thread print_section [] r w (Some w)]> ths)) =
  Ret (State (Store os ms (co ++ [ OStr fp; OStr " "; OInt zp;
                                  OStr ", apple is "; OStr fa; OStr " "; OInt za; OEndl ]))
         (<[t := Thread [] [] r w (Some w)]> ths)).
Proof.
  intros Hm Ha Hp. cbn [replicate]. unfold print_section.
  acquire. access exec_OutFirst Hm Hp.
  output. acquire. access exec_OutSecond Hm Hp.
  output. acquire. access exec_OutFirst Hm Ha.
  output. acquire. access exec_OutSecond Hm Ha.
  output.
  release. release. release. release.
  cbn [run]. do 3 f_equal.
  - rewrite !insert_insert_eq. by apply insert_id.
  - by rewrite <- !app_assoc.
Qed.
End last_line_run.

Lemma last_running_shape nthreads n st m mu t :
  inv (total nthreads n) st m mu → (0 < nthreads * n)%nat → last_running t 16 st →
  mu = recursive_mutex.Free ∧
  m = {[ "apple" := ("fruit", Z.of_nat (nthreads * n));
         "potato" := ("vegetable", Z.of_nat (nthreads * n)) ]} ∧
  ∃ r, threads st !! t =
       Some (Thread print_section [] r safe_map_strings_global (Some safe_map_strings_global)).
Proof.
  intros Hinv Hpos [(th & Ht & Hcode) Hothers]. cbn [Nat.sub drop] in Hcode.
  split_and!.
  - destruct mu as [|o k]; [done|]. exfalso.
    destruct (inv_holder _ _ _ _ Hinv o k eq_refl) as [tho Ho].
    pose proof (inv_held _ _ _ _ Hinv _ _ Ho) as Hd. cbn [held_ok] in Hd.
    rewrite decide_True in Hd by done.
    destruct (inv_threads _ _ _ _ Hinv _ _ Ho) as (_ & _ & _ & ks & pend & Hwf & _).
    apply wf_balance in Hwf. rewrite length_fmap, Hd in Hwf.
    destruct (decide (o = t)) as [->|Hne].
    + rewrite Ht in Ho. injection Ho as <-. rewrite Hcode in Hwf. cbn in Hwf. lia.
    + rewrite (Hothers _ _ Hne Ho) in Hwf. cbn in Hwf. lia.
  - eapply inv_final_map; [done| |done].
    unfold increments_done. apply Forall_lookup. intros u thu Hu k Hin.
    destruct (decide (u = t)) as [->|Hne].
    + rewrite Ht in Hu. injection Hu as <-. rewrite Hcode in Hin.
      unfold print_section in Hin.
      repeat (apply elem_of_cons in Hin as [Hin|Hin]; [discriminate Hin|]).
      by apply elem_of_nil in Hin.
    + rewrite (Hothers _ _ Hne Hu) in Hin. by apply elem_of_nil in Hin.
  - destruct (inv_threads _ _ _ _ Hinv _ _ Ht) as (Hw & Hro & _ & ks & pend & Hwf & _).
    pose proof (wf_balance _ _ _ _ _ Hwf) as Hb. rewrite length_fmap, Hcode in Hb.
    destruct th as [c ts r w ro]. cbn [code temps safe_map_strings readonly_safe_map_string] in *.
    subst c w. exists r. destruct ts; [|cbn in Hb; lia].
    destruct ro as [w'|].
    + by rewrite Ht, (Hro w' eq_refl).
    + inversion Hwf.
Qed.

Lemma last_line_written nthreads n sched st :
  Z.of_nat (nthreads * n) ≤ INT_MAX → (0 < nthreads * n)%nat →
  run sched (test_safe_ptr_with nthreads n) = Ret st → finished st →
  ∃ s t st0, sched = s ++ replicate 16 t ∧
    run s (test_safe_ptr_with nthreads n) = Ret st0 ∧
    cout (sto st) = cout (sto st0) ++ last_line (Z.of_nat (nthreads * n)).
Proof.
  intros Hmax Hpos Hrun Hfin.
  destruct (last_steps n nthreads sched st 15 Hmax) as (s & t & st0 & -> & Hs & Hlast);
    [lia|done..|lia|].
  exists s, t, st0. split_and!; [done..|].
  destruct (test_safe_ptr_run _ _ _ _ Hmax Hs) as (m & mu & Hinv & _).
  destruct (test_safe_ptr_with_shape _ _ _ _ _ _ Hs Hinv) as [Ho Hm].
  destruct (last_running_shape _ _ _ _ _ _ Hinv Hpos Hlast) as (-> & -> & r & Ht).
  rewrite run_app, Hs in Hrun. cbn [mbind outcome_bind] in Hrun.
  destruct st0 as [[os ms co] ths]. cbn [sto threads objs mtxs cout] in *. subst os ms.
  rewrite <- (list_insert_id ths t _ Ht) in Hrun.
  assert (t < length ths)%nat as Hlt by (by eapply lookup_lt_Some).
  erewrite (run_print_section t ths Hlt gptr gmtx) in Hrun;
    [|by apply lookup_singleton_eq|by apply lookup_singleton_eq|done|done].
  by injection Hrun as <-.
Qed.

(** X17: whatever the schedule, a complete run of test_safe_ptr ends with
    sixteen steps of one and the same thread: from the first
    readonly_safe_map_string-> of its output statement, which locks the
    mutex, to the destruction of the four accessors at the end of that
    statement. Those steps write the first component and the count of
    potato, ", apple is ", the first component and the count of apple and
    the end of line, and the counts are the final ones: the number of
    threads times the number of iterations (100000 in the source). The
    words "potato is " before them are written without the lock and are
    not among these steps. *)
Theorem test_safe_ptr_last_line :
  (∀ (nthreads iterations : nat) (sched : list tid) (st : state),
     Z.of_nat (nthreads * iterations) ≤ INT_MAX → (0 < nthreads * iterations)%nat →
     run sched (test_safe_ptr_with nthreads iterations) = Ret st → finished st →
     ∃ s t st0, sched = s ++ replicate 16 t ∧
       run s (test_safe_ptr_with nthreads iterations) = Ret st0 ∧
       cout (sto st) = cout (sto st0) ++ last_line (Z.of_nat (nthreads * iterations))) ∧
  (∀ (sched : list tid) (st : state),
     run sched test_safe_ptr = Ret st → finished st →
     ∃ s t st0, sched = s ++ replicate 16 t ∧ run s test_safe_ptr = Ret st0 ∧
       cout (sto st) = cout (sto st0) ++ last_line 100000).
Proof.
  split; [exact last_line_written|].
  intros sched st Hrun Hfin.
  pose proof (last_line_written _ _ _ _ test_safe_ptr_max test_safe_ptr_pos Hrun Hfin) as H.
  by rewrite test_safe_ptr_total in H.
Qed.

Lemma test_safe_ptr_last_line_witness :
  ∃ s t st0, small_schedule = s ++ replicate 16 t ∧
    run s (test_safe_ptr_with 2 3) = Ret st0 ∧
    cout (sto small_final) = cout (sto st0) ++ last_line (Z.of_nat (2 * 3)).
Proof.
  refine (proj1 test_safe_ptr_last_line 2%nat 3%nat small_schedule small_final _ _ _ _).
  - by vm_compute.
  - apply Nat.lt_0_succ.
  - by vm_compute.
  - repeat constructor.
Defined.

(** ** test_execute_around *)

Lemma accumulate_temporaries_eq me (w : execute_around.t) (σ : store vector_int) :
  accumulate_temporaries me (execute_around.arrow me w) σ =
  guarded me (execute_around.mtx w) σ
    (match objs σ !! execute_around.p w with
     | None => Fault
     | Some v =>
         Ret (accumulate v 0,
              print [locked_line; locked_line; unlocked_line; unlocked_line] σ)
     end).
Proof.
  unfold accumulate_temporaries, guarded, execute_around.arrow.
  destruct (mtxs σ !! execute_around.mtx w) as [mu|] eqn:Hmu;
    [|by rewrite proxy_ctor_no_mutex].
  rewrite (proxy_ctor_eq _ _ _ _ Hmu).
  destruct (available me mu) eqn:Ha; [|by rewrite unavailable_lock].
  destruct (available_lock _ _ Ha) as (mu1 & -> & Hunlock1 & Ha1).
  destruct (available_lock _ _ Ha1) as (mu2 & Hlock2 & Hunlock2 & _).
  cbn [mbind outcome_bind].
  rewrite (proxy_ctor_eq _ _ _ mu1) by (cbn [mtxs set_mtxs print]; apply lookup_insert_eq).
  rewrite Hlock2. cbn [mbind outcome_bind].
  unfold accumulate_through, execute_around.proxy.arrow. cbn [execute_around.proxy.p].
  rewrite decide_True by done. cbn [objs set_mtxs print].
  destruct (objs σ !! execute_around.p w) as [v|]; [|done]. cbn [mbind outcome_bind].
  rewrite (proxy_dtor_eq me _ _ _ mu2) by (cbn [mtxs set_mtxs print]; apply lookup_insert_eq).
  rewrite Hunlock2. cbn [mbind outcome_bind].
  rewrite (proxy_dtor_eq me _ _ _ mu1) by (cbn [mtxs set_mtxs print]; apply lookup_insert_eq).
  rewrite Hunlock1. cbn [mbind outcome_bind].
  destruct σ as [os ms co]. unfold set_mtxs, print. cbn [objs mtxs cout] in *.
  do 3 f_equal.
  - rewrite !insert_insert_eq. by apply insert_id.
  - by rewrite <- !app_assoc.
Qed.

(** X10: [std::accumulate(w->begin(), w->end(), 0)] on an execute_around,
    as the first three statements of test_execute_around have it, builds
    two proxies and keeps both until the sum is known: for a thread that
    can take the mutex it returns the sum of the wrapped vector and writes
    "locked" twice and then "unlocked" twice, the vector and the mutex
    being as before; otherwise it is undefined (no mutex, no vector) or it
    blocks (the mutex is held by another thread). Proxies built by hand
    from get_p() and get_mtx() do the same. *)
Theorem accumulate_temporaries_atomic (me : tid) (w : execute_around.t)
    (σ : store vector_int) :
  accumulate_temporaries me (execute_around.arrow me w) σ =
    guarded me (execute_around.mtx w) σ
      (match objs σ !! execute_around.p w with
       | None => Fault
       | Some v =>
           Ret (accumulate v 0,
                print [locked_line; locked_line; unlocked_line; unlocked_line] σ)
       end) ∧
  accumulate_temporaries me
    (execute_around.proxy.ctor me (execute_around.get_p w) (execute_around.get_mtx w)) σ =
    accumulate_temporaries me (execute_around.arrow me w) σ.
Proof. split; [apply accumulate_temporaries_eq|reflexivity]. Qed.

Lemma accumulate_ten : accumulate (replicate 10 10) 0 = 100.
Proof. reflexivity. Qed.

Lemma test_execute_around_statements_eq (me : tid) (σ : store vector_int) :
  test_execute_around_statements me σ =
  Ret ([100; 100; 100; 100],
       (execute_around.mk (fresh (dom (mtxs σ))) (fresh (dom (objs σ))), Ended, Ended),
       Store (<[fresh (dom (objs σ)) := replicate 10 10]> (objs σ))
             (<[fresh (dom (mtxs σ)) := recursive_mutex.Free]> (mtxs σ))
             (cout σ ++ test_execute_around_cout)).
Proof.
  destruct σ as [os ms co]. cbn [objs mtxs cout].
  unfold test_execute_around_statements, execute_around.ctor, make_shared_mutex, make_shared,
    vector_ctor.
  cbn [fst snd]. change (int_wrap 10) with 10. unfold set_mtxs, set_objs. cbn [objs mtxs cout].
  set (p := fresh (dom os)). set (m := fresh (dom ms)).
  set (w := execute_around.mk m p).
  assert (∀ co', accumulate_temporaries me (execute_around.arrow me w)
                   (Store (<[p := replicate 10 10]> os) (<[m := recursive_mutex.Free]> ms) co') =
                 Ret (100, Store (<[p := replicate 10 10]> os) (<[m := recursive_mutex.Free]> ms)
                             (co' ++ [locked_line; locked_line; unlocked_line; unlocked_line])))
    as Hacc.
  { intros co'. rewrite accumulate_temporaries_eq. unfold guarded.
    cbn [mtxs objs execute_around.mtx execute_around.p w].
    by rewrite !lookup_insert_eq. }
  rewrite Hacc. cbn [mbind outcome_bind]. unfold report, print. cbn [objs mtxs cout].
  rewrite Hacc. cbn [mbind outcome_bind]. unfold report, print. cbn [objs mtxs cout].
  change (execute_around.proxy.ctor me (execute_around.get_p w) (execute_around.get_mtx w))
    with (execute_around.arrow (T := vector_int) me w).
  rewrite Hacc. cbn [mbind outcome_bind]. unfold report, print. cbn [objs mtxs cout].
  unfold execute_around.arrow, execute_around.get_p, execute_around.get_mtx.
  rewrite (proxy_ctor_eq me w _ recursive_mutex.Free)
    by (cbn [mtxs w execute_around.mtx]; apply lookup_insert_eq).
  cbn [recursive_mutex.lock mbind outcome_bind]. unfold set_mtxs, print. cbn [objs mtxs cout].
  rewrite (proxy_ctor_eq me w _ (recursive_mutex.Held me 0))
    by (cbn [mtxs w execute_around.mtx]; apply lookup_insert_eq).
  cbn [recursive_mutex.lock]. rewrite decide_True by done.
  cbn [mbind outcome_bind]. unfold set_mtxs, print. cbn [objs mtxs cout].
  unfold accumulate_through, execute_around.proxy.arrow. cbn [execute_around.proxy.p].
  rewrite decide_True by done. cbn [objs w execute_around.p].
  rewrite lookup_insert_eq, accumulate_ten. cbn [mbind outcome_bind].
  unfold report, print. cbn [objs mtxs cout invoke_destructor].
  rewrite (proxy_dtor_eq me _ _ _ (recursive_mutex.Held me 1))
    by (cbn [mtxs w execute_around.mtx]; apply lookup_insert_eq).
  cbn [recursive_mutex.unlock]. rewrite decide_True by done.
  cbn [mbind outcome_bind]. unfold set_mtxs, print. cbn [objs mtxs cout].
  rewrite (proxy_dtor_eq me _ _ _ (recursive_mutex.Held me 0))
    by (cbn [mtxs w execute_around.mtx]; apply lookup_insert_eq).
  cbn [recursive_mutex.unlock]. rewrite decide_True by done.
  cbn [mbind outcome_bind]. unfold set_mtxs, print. cbn [objs mtxs cout].
  do 3 f_equal.
  - cbn [w execute_around.mtx]. by rewrite !insert_insert_eq.
  - unfold test_execute_around_cout, accumulate_lines. by rewrite <- !app_assoc.
Qed.

Lemma test_execute_around_undefined (me : tid) (σ : store vector_int) :
  test_execute_around me σ = Fault.
Proof.
  unfold test_execute_around. by rewrite test_execute_around_statements_eq.
Qed.

(** X11: test_execute_around, run by any thread on any store. Its
    statements (lines 125 to 157) all return: they build the vector and
    the mutex at fresh locations, compute 100 four times, and write
    exactly [test_execute_around_cout]: for each of the first three
    statements "locked", "locked", "unlocked", "unlocked" and then the
    result line, and for the fourth "locked", "locked", the result line,
    and "unlocked" twice from the two explicit destructor calls; after
    these calls the vector is ten times 10 as built, the mutex is free,
    everything that was in the store before is untouched, and the
    lifetime of tmp1 and of tmp2 has ended. The function then leaves its
    block, where the destructor of tmp2 is invoked a second time: the
    behaviour of test_execute_around is undefined. *)
Theorem test_execute_around_output (me : tid) (σ : store vector_int) :
  test_execute_around_statements me σ =
    Ret ([100; 100; 100; 100],
         (execute_around.mk (fresh (dom (mtxs σ))) (fresh (dom (objs σ))), Ended, Ended),
         Store (<[fresh (dom (objs σ)) := replicate 10 10]> (objs σ))
               (<[fresh (dom (mtxs σ)) := recursive_mutex.Free]> (mtxs σ))
               (cout σ ++ test_execute_around_cout)) ∧
  test_execute_around me σ = Fault.
Proof. split; [apply test_execute_around_statements_eq|apply test_execute_around_undefined]. Qed.

(** ** The private lock() and unlock() of the wrappers *)

Lemma holds_available me mu :
  recursive_mutex.owned_by me mu = true → available me mu = true.
Proof. by destruct mu. Qed.

Lemma held_unavailable me other mu :
  recursive_mutex.owned_by me mu = true → other ≠ me → available other mu = false.
Proof.
  destruct mu as [|o n]; [done|]. cbn. intros ->%bool_decide_eq_true_1 Hne.
  by apply bool_decide_eq_false_2.
Qed.

Lemma held_unlock_other me other mu :
  recursive_mutex.owned_by me mu = true → other ≠ me →
  recursive_mutex.unlock other mu = Fault.
Proof.
  destruct mu as [|o n]; [done|]. cbn. intros ->%bool_decide_eq_true_1 Hne.
  by rewrite decide_False.
Qed.

Section lock_unlock.
Context {T : Type} (me other : tid) (m : loc) (σ : store T) (mu mu' : recursive_mutex.t).
Context (Hmu : mtxs σ !! m = Some mu) (Hlock : recursive_mutex.lock me mu = Ret mu').
Context (Hne : other ≠ me).

Lemma locked_store_holds : holds me m (set_mtxs (insert m mu') σ).
Proof.
  exists mu'. cbn [mtxs set_mtxs]. rewrite lookup_insert_eq. split; [done|].
  by apply lock_owned in Hlock as [? _].
Qed.

Lemma locked_store_count :
  lock_count m (set_mtxs (insert m mu') σ) = S (lock_count m σ).
Proof.
  unfold lock_count. cbn [mtxs set_mtxs]. rewrite lookup_insert_eq, Hmu. cbn.
  by apply lock_owned in Hlock as [_ ?].
Qed.

Lemma locked_store_restore :
  set_mtxs (insert m mu) (set_mtxs (insert m mu') σ) = σ.
Proof.
  destruct σ as [os ms co]. unfold set_mtxs. cbn [objs mtxs cout] in *.
  by rewrite insert_insert_eq, insert_id.
Qed.
End lock_unlock.

(** X12: the private members lock() and unlock() of both wrappers lock
    and unlock the wrapper's mutex directly. When lock() returns, the
    caller holds the mutex once more than before and nothing else has
    changed; until the matching unlock() every lock() and every member
    call of another thread blocks, while the caller's own calls through
    the wrapper go through without waiting; unlock() by the caller gives
    the store back as it was before lock(); unlock() by a thread that
    does not hold the mutex is undefined. *)
Theorem wrapper_lock_unlock {T R : Type} (me other : tid) (f : T → T * R) :
  (∀ (w : safe_ptr.t) (σ σ1 : store T),
     safe_ptr.lock me w σ = Ret σ1 → other ≠ me →
     holds me (safe_ptr.mtx_ptr w) σ1 ∧
     lock_count (safe_ptr.mtx_ptr w) σ1 = S (lock_count (safe_ptr.mtx_ptr w) σ) ∧
     objs σ1 = objs σ ∧ cout σ1 = cout σ ∧
     safe_ptr.lock other w σ1 = Blocks ∧
     safe_ptr_call other w f σ1 = Blocks ∧
     safe_ptr_call me w f σ1 = call f (Ptr (safe_ptr.ptr w)) σ1 ∧
     safe_ptr.unlock me w σ1 = Ret σ ∧
     safe_ptr.unlock other w σ1 = Fault) ∧
  (∀ (w : execute_around.t) (σ σ1 : store T),
     execute_around.lock me w σ = Ret σ1 → other ≠ me →
     holds me (execute_around.mtx w) σ1 ∧
     lock_count (execute_around.mtx w) σ1 = S (lock_count (execute_around.mtx w) σ) ∧
     objs σ1 = objs σ ∧ cout σ1 = cout σ ∧
     execute_around.lock other w σ1 = Blocks ∧
     execute_around_call other w f σ1 = Blocks ∧
     execute_around_call me w f σ1 =
       ('(r, σ2) ← call f (Ptr (execute_around.p w)) (print [locked_line] σ1);
        Ret (r, print [unlocked_line] σ2)) ∧
     execute_around.unlock me w σ1 = Ret σ ∧
     execute_around.unlock other w σ1 = Fault).
Proof.
  split.
  - intros w σ σ1. unfold safe_ptr.lock.
    destruct (mtxs σ !! safe_ptr.mtx_ptr w) as [mu|] eqn:Hmu; [|done].
    destruct (recursive_mutex.lock me mu) as [mu'| |] eqn:Hlock; [|done..].
    cbn [mbind outcome_bind]. intros [= <-] Hne.
    pose proof (lock_owned _ _ _ Hlock) as [Hown _].
    pose proof (lock_unlock _ _ _ Hlock) as Hunlock.
    split_and!.
    + by eapply locked_store_holds.
    + by eapply locked_store_count.
    + done.
    + done.
    + cbn [mtxs set_mtxs]. rewrite lookup_insert_eq.
      by rewrite unavailable_lock by (by eapply held_unavailable).
    + rewrite (proj1 (safe_ptr_call_eq other w f (λ _, ()) _)). unfold guarded.
      cbn [mtxs set_mtxs]. rewrite lookup_insert_eq.
      by rewrite (held_unavailable me other mu').
    + rewrite (proj1 (safe_ptr_call_eq me w f (λ _, ()) _)). unfold guarded.
      cbn [mtxs set_mtxs]. rewrite lookup_insert_eq.
      by rewrite (holds_available me mu').
    + unfold safe_ptr.unlock. cbn [mtxs set_mtxs]. rewrite lookup_insert_eq, Hunlock.
      cbn [mbind outcome_bind]. f_equal. by eapply locked_store_restore.
    + unfold safe_ptr.unlock. cbn [mtxs set_mtxs]. rewrite lookup_insert_eq.
      by rewrite (held_unlock_other me other mu').
  - intros w σ σ1. unfold execute_around.lock.
    destruct (mtxs σ !! execute_around.mtx w) as [mu|] eqn:Hmu; [|done].
    destruct (recursive_mutex.lock me mu) as [mu'| |] eqn:Hlock; [|done..].
    cbn [mbind outcome_bind]. intros [= <-] Hne.
    pose proof (lock_owned _ _ _ Hlock) as [Hown _].
    pose proof (lock_unlock _ _ _ Hlock) as Hunlock.
    split_and!.
    + by eapply locked_store_holds.
    + by eapply locked_store_count.
    + done.
    + done.
    + cbn [mtxs set_mtxs]. rewrite lookup_insert_eq.
      by rewrite unavailable_lock by (by eapply held_unavailable).
    + rewrite (proj1 (execute_around_call_eq other w f (λ _, ()) _)). unfold guarded.
      cbn [mtxs set_mtxs]. rewrite lookup_insert_eq.
      by rewrite (held_unavailable me other mu').
    + rewrite (proj1 (execute_around_call_eq me w f (λ _, ()) _)). unfold guarded.
      cbn [mtxs set_mtxs]. rewrite lookup_insert_eq.
      by rewrite (holds_available me mu').
    + unfold execute_around.unlock. cbn [mtxs set_mtxs]. rewrite lookup_insert_eq, Hunlock.
      cbn [mbind outcome_bind]. f_equal. by eapply locked_store_restore.
    + unfold execute_around.unlock. cbn [mtxs set_mtxs]. rewrite lookup_insert_eq.
      by rewrite (held_unlock_other me other mu').
Qed.

Lemma wrapper_lock_unlock_witness :
  safe_ptr.unlock 0 (safe_ptr.mk 1 1)
    (set_mtxs (insert 1%positive (recursive_mutex.Held 0 0)) apple_store) = Ret apple_store ∧
  safe_ptr.lock 1 (safe_ptr.mk 1 1)
    (set_mtxs (insert 1%positive (recursive_mutex.Held 0 0)) apple_store) = Blocks.
Proof.
  destruct (proj1 (wrapper_lock_unlock (R := unit) 0%nat 1%nat (λ v, (v, ())))
              (safe_ptr.mk 1 1) apple_store _ eq_refl ltac:(done))
    as (_ & _ & _ & _ & Hb & _ & _ & Hu & _).
  exact (conj Hu Hb).
Defined.

(** ** test_safe_ptr: who writes *)

Lemma exec_reads me i th σ th' σ' :
  exec me i th σ = Ret (th', σ') → writes i = false → objs σ' = objs σ.
Proof.
  destruct th as [c ts r w ro]. destruct i; xcbn; intros Hex Hw; try done; clear Hw; revert Hex.
  - destruct (safe_ptr.deref me w σ) as [[a σ1]| |] eqn:Hd; xcbn; [|done..].
    apply (proj1 (accessor_ctor_frame me w σ σ1)) in Hd as (? & ? & ?). by intros; simplify_eq.
  - destruct (safe_ptr.arrow me w σ) as [[a σ1]| |] eqn:Hd; xcbn; [|done..].
    apply (proj1 (proj2 (accessor_ctor_frame me w σ σ1))) in Hd as (? & ? & ?). by intros; simplify_eq.
  - destruct ts as [|[a|a|a] ts]; xcbn; try done.
    destruct (map_at k _ σ) as [e| |]; xcbn; [|done..].
    destruct (elem_read e σ) as [[f z]| |]; xcbn; [|done..]. by intros; simplify_eq.
  - destruct ts as [|[a|a|a] ts]; xcbn; try done.
    destruct (map_find k _ σ) as [e| |]; xcbn; [|done..].
    destruct (elem_read e σ) as [[f z]| |]; xcbn; [|done..]. by intros; simplify_eq.
  - by intros; simplify_eq.
  - destruct ro as [w'|]; [|done].
    destruct (safe_ptr.arrow_const me w' σ) as [[a σ1]| |] eqn:Hd; xcbn; [|done..].
    apply (proj2 (proj2 (accessor_ctor_frame me w' σ σ1))) in Hd as (? & ? & ?). by intros; simplify_eq.
  - by intros; simplify_eq.
  - destruct ts as [|[a|a|a] ts]; xcbn; try done.
    destruct (call_const _ _ σ) as [[[f z]|]| |]; xcbn; [|done..]. by intros; simplify_eq.
  - destruct ts as [|[a|a|a] ts]; xcbn; try done.
    destruct (call_const _ _ σ) as [[[f z]|]| |]; xcbn; [|done..]. by intros; simplify_eq.
  - by intros; simplify_eq.
  - destruct ts as [|x ts]; [done|].
    destruct (destroy me x σ) as [σ1| |] eqn:Hd; xcbn; [|done..].
    apply destroy_frame in Hd as (? & ? & ?). by intros; simplify_eq.
Qed.

Lemma inv_write_under_lock total st m mu me th i c :
  inv total st m mu → threads st !! me = Some th → code th = i :: c → writes i = true →
  temps th ≠ [] ∧ holds me gmtx (sto st).
Proof.
  intros Hinv Hth Hcode Hw.
  destruct (inv_threads _ _ _ _ Hinv _ _ Hth) as (_ & _ & _ & ks & pend & Hwf & _).
  pose proof (inv_held _ _ _ _ Hinv _ _ Hth) as Hd.
  rewrite Hcode in Hwf.
  assert (temps th ≠ []) as Hts.
  { intros Hnil. rewrite Hnil in Hwf. destruct i; try discriminate Hw; inversion Hwf. }
  split; [done|]. exists mu. split; [by eapply inv_mtx|].
  destruct (temps th) as [|x ts]; [done|]. cbn [length] in Hd.
  destruct mu as [|o n]; [done|]. cbn in Hd |- *.
  case_decide; [by apply bool_decide_eq_true_2|done].
Qed.

Lemma step_writes_under_lock total st m mu me st' :
  inv total st m mu → step me st = Ret st' →
  objs (sto st') = objs (sto st) ∨
  ∃ th i c,
    threads st !! me = Some th ∧ code th = i :: c ∧ writes i = true ∧
    temps th ≠ [] ∧ holds me gmtx (sto st) ∧
    ∀ other th', other ≠ me → threads st !! other = Some th' → temps th' = [].
Proof.
  intros Hinv Hstep. pose proof Hstep as Hstep'. unfold step in Hstep.
  destruct (threads st !! me) as [th|] eqn:Hth; [|done].
  destruct (code th) as [|i c] eqn:Hcode; [done|].
  destruct (exec me i (set_code c th) (sto st)) as [[th' σ']| |] eqn:Hex; [|done..].
  cbn [mbind outcome_bind] in Hstep. injection Hstep as <-. cbn [sto].
  destruct (writes i) eqn:Hw; [right|left; by eapply exec_reads].
  destruct (inv_write_under_lock _ _ _ _ _ _ _ _ Hinv Hth Hcode Hw) as [Hts Hholds].
  exists th, i, c. split_and!; [done..|].
  intros other th0 Hne Hth0.
  destruct (decide (temps th0 = [])) as [|Hts0]; [done|].
  by destruct Hne; eapply inv_mutual_exclusion.
Qed.

(** X13: in every execution of test_safe_ptr the wrapped map is changed
    only by the thread that holds the mutex: a step leaves all objects as
    they are unless it is the assignment of a first component or the
    write of an increment, made by a thread that has an accessor alive and
    holds the mutex while every other thread has none. *)
Theorem test_safe_ptr_writes_under_lock :
  (∀ (nthreads iterations : nat) (sched : list tid) (st : state) (me : tid) (st' : state),
     Z.of_nat (nthreads * iterations) ≤ INT_MAX →
     run sched (test_safe_ptr_with nthreads iterations) = Ret st → step me st = Ret st' →
     objs (sto st') = objs (sto st) ∨
     ∃ th i c,
       threads st !! me = Some th ∧ code th = i :: c ∧ writes i = true ∧
       temps th ≠ [] ∧ holds me gmtx (sto st) ∧
       ∀ other th', other ≠ me → threads st !! other = Some th' → temps th' = []) ∧
  (∀ (sched : list tid) (st : state) (me : tid) (st' : state),
     run sched test_safe_ptr = Ret st → step me st = Ret st' →
     objs (sto st') = objs (sto st) ∨
     ∃ th i c,
       threads st !! me = Some th ∧ code th = i :: c ∧ writes i = true ∧
       temps th ≠ [] ∧ holds me gmtx (sto st) ∧
       ∀ other th', other ≠ me → threads st !! other = Some th' → temps th' = []).
Proof.
  split.
  - intros nthreads iterations sched st me st' Hmax Hrun Hstep.
    destruct (test_safe_ptr_run _ _ _ _ Hmax Hrun) as (m & mu & Hinv & _).
    by eapply step_writes_under_lock.
  - intros sched st me st' Hrun Hstep.
    destruct (test_safe_ptr_run _ _ _ _ test_safe_ptr_max Hrun) as (m & mu & Hinv & _).
    by eapply step_writes_under_lock.
Qed.

Lemma test_safe_ptr_writes_under_lock_witness :
  ∃ st st',
    run [0%nat] (test_safe_ptr_with 2 3) = Ret st ∧ step 0 st = Ret st' ∧
    (objs (sto st') = objs (sto st) ∨
     ∃ th i c,
       threads st !! 0%nat = Some th ∧ code th = i :: c ∧ writes i = true ∧
       temps th ≠ [] ∧ holds 0 gmtx (sto st) ∧
       ∀ other th', other ≠ 0%nat → threads st !! other = Some th' → temps th' = []).
Proof.
  eexists _, _. split; [by vm_compute|]. split; [by vm_compute|].
  eapply (proj1 test_safe_ptr_writes_under_lock 2%nat 3%nat [0%nat]); by vm_compute.
Defined.

(** ** Access that no lock guards *)

(** X14: two ways around the lock of an execute_around. While another
    thread holds a proxy, a member called through operator-> blocks, but
    the same member called through get_p().get() takes no lock: it runs
    and changes the wrapped value. And a proxy that has been moved from
    owns no lock but still points to the wrapped value, so a member
    called through it runs unlocked as well. *)
Theorem unguarded_access {T R : Type} (me other : tid) (w : execute_around.t)
    (f : T → T * R) (σ σ1 : store T) (a : execute_around.proxy.t) (v : T) :
  other ≠ me → execute_around.arrow other w σ = Ret (a, σ1) →
  objs σ !! execute_around.p w = Some v →
  execute_around_call me w f σ1 = Blocks ∧
  call f (Ptr (execute_around.get_p w)) σ1
    = Ret ((f v).2, set_objs (insert (execute_around.p w) (f v).1) σ1) ∧
  acc_state (execute_around.proxy.move a).2 = unlocked ∧
  call f (execute_around.proxy.arrow (execute_around.proxy.move a).2) σ1
    = Ret ((f v).2, set_objs (insert (execute_around.p w) (f v).1) σ1).
Proof.
  intros Hne (mu & mu' & Hmu & Hlock & -> & ->)%proxy_ctor_inv Hv.
  pose proof (lock_owned _ _ _ Hlock) as [Hown _].
  assert (call f (Ptr (execute_around.p w))
            (print [locked_line] (set_mtxs (insert (execute_around.mtx w) mu') σ))
          = Ret ((f v).2,
                 set_objs (insert (execute_around.p w) (f v).1)
                   (print [locked_line] (set_mtxs (insert (execute_around.mtx w) mu') σ))))
    as Hcall.
  { unfold call. cbn [objs print set_mtxs]. rewrite Hv. by destruct (f v). }
  split_and!.
  - rewrite (proj1 (execute_around_call_eq me w f (λ _, ()) _)). unfold guarded.
    cbn [mtxs set_mtxs print]. rewrite lookup_insert_eq.
    by rewrite (held_unavailable other me mu').
  - exact Hcall.
  - done.
  - exact Hcall.
Qed.

Lemma unguarded_access_witness :
  execute_around_call 1 (execute_around.mk 1 1) (push_back 7)
    (print [locked_line] (set_mtxs (insert 1%positive (recursive_mutex.Held 0 0)) vec_store))
  = Blocks ∧
  call (push_back 7) (Ptr (execute_around.get_p (execute_around.mk 1 1)))
    (print [locked_line] (set_mtxs (insert 1%positive (recursive_mutex.Held 0 0)) vec_store))
  = Ret (((push_back 7) [10; 10]).2,
         set_objs (insert 1%positive ((push_back 7) [10; 10]).1)
           (print [locked_line]
              (set_mtxs (insert 1%positive (recursive_mutex.Held 0 0)) vec_store))).
Proof.
  destruct (unguarded_access 1%nat 0%nat (execute_around.mk 1 1) (push_back 7)
              vec_store _ vec_proxy [10; 10] ltac:(done) eq_refl eq_refl)
    as (H1 & H2 & _).
  exact (conj H1 H2).
Defined.

(** ** Two wrappers *)

Lemma safe_ptr_arrow_inv {T} me w (σ σ1 : store T) a :
  safe_ptr.arrow (x_lock_t := unique_lock.t) me w σ = Ret (a, σ1) →
  ∃ mu mu', mtxs σ !! safe_ptr.mtx_ptr w = Some mu ∧ recursive_mutex.lock me mu = Ret mu' ∧
    a = safe_ptr.auto_lock_t.mk (safe_ptr.ptr w) (owning_lock w) ∧
    σ1 = set_mtxs (insert (safe_ptr.mtx_ptr w) mu') σ.
Proof.
  destruct (mtxs σ !! safe_ptr.mtx_ptr w) as [mu|] eqn:Hmu.
  - rewrite (safe_ptr_arrow_eq _ _ _ _ Hmu).
    destruct (recursive_mutex.lock me mu) as [mu'| |] eqn:Hlock; [|done..].
    cbn [mbind outcome_bind]. intros [= <- <-]. by exists mu, mu'.
  - unfold safe_ptr.arrow, safe_ptr.auto_lock_t.ctor. cbn [lk_ctor unique_lock_lockable].
    unfold unique_lock.ctor. by rewrite Hmu.
Qed.

(** X15: wrappers with different mutexes do not exclude each other, and
    nothing orders their locks. While a thread holds an accessor of one
    safe_ptr, whether another thread's call through a second safe_ptr
    goes through depends on the second mutex alone, as if the first
    accessor were not there. But once two threads each hold an accessor
    of one of the two wrappers, each asking for the other's wrapper
    blocks: neither request is served while the other accessor lives. *)
Theorem distinct_wrappers {T R : Type} (t1 t2 : tid) (w1 w2 : safe_ptr.t)
    (f : T → T * R) (σ σ1 : store T) (a1 : safe_ptr.auto_lock_t.t unique_lock.t) :
  safe_ptr.mtx_ptr w1 ≠ safe_ptr.mtx_ptr w2 → t1 ≠ t2 →
  safe_ptr.arrow t1 w1 σ = Ret (a1, σ1) →
  safe_ptr_call t2 w2 f σ1
    = guarded t2 (safe_ptr.mtx_ptr w2) σ (call f (Ptr (safe_ptr.ptr w2)) σ1) ∧
  ∀ (a2 : safe_ptr.auto_lock_t.t unique_lock.t) (σ2 : store T),
    safe_ptr.arrow t2 w2 σ1 = Ret (a2, σ2) →
    safe_ptr.arrow (x_lock_t := unique_lock.t) t1 w2 σ2 = Blocks ∧
    safe_ptr.arrow (x_lock_t := unique_lock.t) t2 w1 σ2 = Blocks.
Proof.
  intros Hm Ht (mu1 & mu1' & Hmu1 & Hlock1 & -> & ->)%safe_ptr_arrow_inv.
  pose proof (lock_owned _ _ _ Hlock1) as [Hown1 _]. split.
  - rewrite (proj1 (safe_ptr_call_eq t2 w2 f (λ _, ()) _)). unfold guarded.
    cbn [mtxs set_mtxs]. by rewrite lookup_insert_ne.
  - intros a2 σ2 (mu2 & mu2' & Hmu2 & Hlock2 & -> & ->)%safe_ptr_arrow_inv.
    pose proof (lock_owned _ _ _ Hlock2) as [Hown2 _]. split.
    + rewrite (safe_ptr_arrow_eq t1 w2 _ mu2')
        by (cbn [mtxs set_mtxs]; apply lookup_insert_eq).
      by rewrite unavailable_lock by (by eapply held_unavailable).
    + rewrite (safe_ptr_arrow_eq t2 w1 _ mu1').
      2:{ cbn [mtxs set_mtxs]. rewrite lookup_insert_ne by done. apply lookup_insert_eq. }
      by rewrite unavailable_lock by (by eapply held_unavailable).
Qed.

Lemma distinct_wrappers_witness :
  let σ := Store {[ 1%positive := [10; 10]; 2%positive := [7] ]}
                 {[ 1%positive := recursive_mutex.Free; 2%positive := recursive_mutex.Free ]} [] in
  let σ1 := set_mtxs (insert 1%positive (recursive_mutex.Held 0 0)) σ in
  safe_ptr_call 1 (safe_ptr.mk 2 2) (push_back 3) σ1
    = guarded 1 2%positive σ (call (push_back 3) (Ptr 2%positive) σ1).
Proof.
  exact (proj1 (distinct_wrappers 0%nat 1%nat (safe_ptr.mk 1 1) (safe_ptr.mk 2 2) (push_back 3)
                  (Store {[ 1%positive := [10; 10]; 2%positive := [7] ]}
                     {[ 1%positive := recursive_mutex.Free; 2%positive := recursive_mutex.Free ]} [])
                  _ _ ltac:(done) ltac:(done) eq_refl)).
Defined.

(** ** main *)

Lemma unique_lock_ctor_shift {T} c me m (σ : store T) :
  unique_lock.ctor me m (shift c σ) =
  '(l, σ') ← unique_lock.ctor me m σ; Ret (l, shift c σ').
Proof.
  unfold unique_lock.ctor. cbn [mtxs shift].
  destruct (mtxs σ !! m) as [mu|]; [|done]. by destruct (recursive_mutex.lock me mu).
Qed.

Lemma unique_lock_dtor_shift {T} c me l (σ : store T) :
  unique_lock.dtor me l (shift c σ) = σ' ← unique_lock.dtor me l σ; Ret (shift c σ').
Proof.
  unfold unique_lock.dtor. destruct (unique_lock.owns l); [|done].
  destruct (unique_lock.pm l) as [m|]; [|done]. cbn [mtxs shift].
  destruct (mtxs σ !! m) as [mu|]; [|done]. by destruct (recursive_mutex.unlock me mu).
Qed.

Lemma destroy_shift c me x (σ : store map_t) :
  destroy me x (shift c σ) = σ' ← destroy me x σ; Ret (shift c σ').
Proof. destruct x; apply unique_lock_dtor_shift. Qed.

Lemma print_shift {T} c items (σ : store T) :
  print items (shift c σ) = shift c (print items σ).
Proof. unfold print, shift. cbn [objs mtxs cout]. by rewrite app_assoc. Qed.

Lemma exec_shift c me i th σ :
  exec me i th (shift c σ) = '(th', σ') ← exec me i th σ; Ret (th', shift c σ').
Proof.
  destruct th as [code0 ts r w ro]. destruct i; xcbn.
  - unfold safe_ptr.deref, safe_ptr.auto_lock_obj_t.ctor. cbn [lk_ctor unique_lock_lockable].
    rewrite unique_lock_ctor_shift.
    destruct (unique_lock.ctor me (safe_ptr.mtx_ptr w) σ) as [[l σ1]| |]; reflexivity.
  - destruct ts as [|[a|a|a] ts]; xcbn; try done.
    destruct a as [p l]. destruct (objs σ !! p) as [m|] eqn:Hm.
    + rewrite !(index_set_first_eq _ _ _ _ _ m) by done. reflexivity.
    + unfold index_set_first, safe_ptr.auto_lock_obj_t.index.
      cbn [safe_ptr.auto_lock_obj_t.ptr objs shift]. rewrite Hm. reflexivity.
  - unfold safe_ptr.arrow, safe_ptr.auto_lock_t.ctor. cbn [lk_ctor unique_lock_lockable].
    rewrite unique_lock_ctor_shift.
    destruct (unique_lock.ctor me (safe_ptr.mtx_ptr w) σ) as [[l σ1]| |]; reflexivity.
  - destruct ts as [|[a|a|a] ts]; xcbn; try done.
    unfold map_at, elem_read, safe_ptr.auto_lock_t.arrow. cbn [objs shift].
    destruct (objs σ !! _) as [m|]; [|reflexivity]. case_decide; [|reflexivity]. xcbn.
    cbn [objs shift]. destruct (objs σ !! _) as [m'|]; [|reflexivity].
    destruct (elem_get k m') as [[f z]|]; reflexivity.
  - destruct ts as [|[a|a|a] ts]; xcbn; try done.
    unfold map_find, elem_read, safe_ptr.auto_lock_t.arrow. cbn [objs shift].
    destruct (objs σ !! _) as [m|]; [|reflexivity]. case_decide; [|reflexivity]. xcbn.
    cbn [objs shift]. destruct (objs σ !! _) as [m'|]; [|reflexivity].
    destruct (elem_get k m') as [[f z]|]; reflexivity.
  - destruct ts as [|[a|a|a] ts]; xcbn; try done.
    unfold elem_read, elem_write, safe_ptr.auto_lock_t.arrow. cbn [objs shift].
    destruct (objs σ !! _) as [m|]; [|reflexivity].
    destruct (elem_get k m) as [[f z]|]; reflexivity.
  - done.
  - destruct ro as [w'|]; [|reflexivity].
    unfold safe_ptr.arrow_const, safe_ptr.auto_lock_t.ctor. cbn [lk_ctor unique_lock_lockable].
    rewrite unique_lock_ctor_shift.
    destruct (unique_lock.ctor me (safe_ptr.mtx_ptr w') σ) as [[l σ1]| |]; reflexivity.
  - by rewrite print_shift.
  - destruct ts as [|[a|a|a] ts]; xcbn; try done.
    unfold call_const, safe_ptr.auto_lock_t.arrow_const. cbn [objs shift].
    destruct (objs σ !! _) as [m|]; [|reflexivity]. xcbn.
    destruct (map_at_const k m) as [[f z]|]; [|reflexivity]. by rewrite print_shift.
  - destruct ts as [|[a|a|a] ts]; xcbn; try done.
    unfold call_const, safe_ptr.auto_lock_t.arrow_const. cbn [objs shift].
    destruct (objs σ !! _) as [m|]; [|reflexivity]. xcbn.
    destruct (map_at_const k m) as [[f z]|]; [|reflexivity]. by rewrite print_shift.
  - by rewrite print_shift.
  - destruct ts as [|x ts]; [done|]. rewrite destroy_shift.
    destruct (destroy me x σ); reflexivity.
Qed.

Lemma step_shift c me st :
  step me (shift_state c st) = st' ← step me st; Ret (shift_state c st').
Proof.
  unfold step. cbn [threads sto shift_state].
  destruct (threads st !! me) as [th|]; [|done].
  destruct (code th) as [|i c0]; [done|]. rewrite exec_shift.
  by destruct (exec me i (set_code c0 th) (sto st)) as [[th' σ']| |].
Qed.

Lemma run_shift c sched st :
  run sched (shift_state c st) = st' ← run sched st; Ret (shift_state c st').
Proof.
  revert st. induction sched as [|me sched IH]; intros st; [done|].
  cbn [run]. rewrite step_shift.
  destruct (step me st) as [st1| |]; [|done..]. cbn [mbind outcome_bind]. apply IH.
Qed.

Lemma returned_finished st : forallb returned (threads st) = true ↔ finished st.
Proof.
  unfold finished. rewrite <- Is_true_true, forallb_True. apply Forall_iff.
  intros th. unfold returned. destruct (code th); [done|]. split; [by intros []|done].
Qed.

Lemma call_test_safe_ptr_eq c sched :
  call_test_safe_ptr sched (with_cout c globals.2) =
  st ← run sched test_safe_ptr;
  if forallb returned (threads st) then Ret (shift c (sto st)) else Blocks.
Proof.
  unfold call_test_safe_ptr.
  change (State (with_cout c globals.2) (threads test_safe_ptr))
    with (State (Store (objs globals.2) (mtxs globals.2) c) (threads test_safe_ptr)).
  rewrite <- (app_nil_r c) at 1.
  change (State (Store (objs globals.2) (mtxs globals.2) (c ++ [])) (threads test_safe_ptr))
    with (shift_state c test_safe_ptr).
  rewrite run_shift. by destruct (run sched test_safe_ptr).
Qed.

Lemma call_test_execute_around sched g :
  call_test Test_execute_around sched g = Fault.
Proof. unfold call_test. by rewrite test_execute_around_undefined. Qed.

Lemma main_execute_around_first rest sched input :
  main (("test_execute_around", Test_execute_around) :: rest) sched input = Fault.
Proof. unfold main. cbn [call_tests]. by rewrite call_test_execute_around. Qed.

Lemma main_safe_ptr_first sched input :
  main [("test_safe_ptr", Test_safe_ptr); ("test_execute_around", Test_execute_around)]
       sched input =
  match run sched test_safe_ptr with
  | Ret st => if forallb returned (threads st) then Fault else Blocks
  | Blocks => Blocks
  | Fault => Fault
  end.
Proof.
  unfold main. cbn [call_tests]. unfold call_test, initial_world, write.
  cbn [vectors maps console app]. rewrite call_test_safe_ptr_eq.
  destruct (run sched test_safe_ptr) as [st| |]; [|done..]. cbn [mbind outcome_bind].
  destruct (forallb returned (threads st)); [|done]. cbn [mbind outcome_bind vectors].
  by rewrite test_execute_around_undefined.
Qed.


